(** * nova-grounding-demo: multi-provider query pipeline and judge

    A shallow embedding of the Go sources (provider.go, main.go,
    display.go, judge.go) and the properties stated about them.

    Conventions.
    - A Go [string] is a [string] (a sequence of bytes).
    - A Go [int] is a [Z]; where a result could leave the 64-bit range the
      wrap-around is written with [int_wrap].
    - A Go [error] is an [option string]: [None] is [nil].
    - A Go [map[string]T] is a [gmap string T]; reading a missing key gives
      the zero value of [T].
    - A goroutine fan-out followed by [wg.Wait()] is a list of effects
      applied in the order chosen by a schedule. *)

From Stdlib Require Import ZArith QArith Qround Qpower Qcanon Lia Lqa.
From Stdlib Require Import Ascii String.
From Stdlib Require Import Permutation Sorted.
From stdpp Require Import base list gmap strings fin_maps sorting.
From Stdlib Require DecimalString.

#[local] Open Scope string_scope.
#[local] Open Scope Z_scope.
#[local] Open Scope list_scope.

(* ===================================================================== *)
(** * Data model (provider.go) *)
(* ===================================================================== *)

(** [type Citation struct { URL, Domain, Title string }] *)
Record Citation := mkCitation {
  URL : string;
  Domain : string;
  Title : string
}.

(** [type TokenUsage struct { Input, Output int }] *)
Record TokenUsage := mkTokenUsage {
  Input : Z;
  Output : Z
}.

(** [type Result struct]: a provider's response. [Duration] is in
    nanoseconds, as [time.Duration] is. *)
Record Result := mkResult {
  Text : string;
  Citations : list Citation;
  Duration : Z;
  Tokens : TokenUsage;
  Error : option string
}.

(** The methods of the [Provider] interface that return data.  [CheckAuth]
    and [Query] reach the environment and the network; one run of the
    program observes one answer of each, which the record carries. *)
Record Provider := mkProvider {
  Name : string;
  DisplayName : string;
  Emoji : string;
  CheckAuth : option string;
  Query : string -> bool -> Result
}.

(** Two's-complement wrap-around of a 64-bit Go [int]. *)
Definition int_wrap (z : Z) : Z := (z + 2 ^ 63) mod 2 ^ 64 - 2 ^ 63.

Definition len {A} (l : list A) : Z := Z.of_nat (length l).

(* ===================================================================== *)
(** * Deduplicator (provider.go) *)
(* ===================================================================== *)

(** Reading [seen[k]] from a [map[string]bool]. *)
Definition seen_get (seen : gmap string bool) (k : string) : bool :=
  default false (seen !! k).

(** [DeduplicateCitations(citations *[]Citation, seen map[string]bool, c)]:
    the slice behind the pointer and the map are the state. *)
Definition DeduplicateCitations
    (st : list Citation * gmap string bool) (c : Citation)
    : list Citation * gmap string bool :=
  let '(citations, seen) := st in
  if negb (String.eqb (URL c) "") && negb (seen_get seen (URL c))
  then (citations ++ [c], <[URL c := true]> seen)
  else (citations, seen).

(** A provider adapter starts from [seen := make(map[string]bool)] and an
    empty citation slice, and feeds every candidate it parses. *)
Definition dedup_all (cands : list Citation) : list Citation * gmap string bool :=
  foldl DeduplicateCitations ([], ∅) cands.

(* ===================================================================== *)
(** * Go's [strings.Fields] *)
(* ===================================================================== *)

(** The standard library is not part of the repository; [strings.Fields]
    is modelled after its documentation: the string is read as UTF-8 runes
    (an invalid byte reads as U+FFFD) and split around runs of runes for
    which [unicode.IsSpace] holds. *)
Module GoStrings.

Definition byte_val (a : ascii) : Z := Z.of_N (N_of_ascii a).

Definition RuneError : Z := 0xFFFD.

Definition in_range (lo hi b : Z) : bool := (lo <=? b) && (b <=? hi).

(** What the first byte of an encoding announces: a one-byte rune, an
    invalid byte, or a sequence of [size] bytes whose second byte must lie
    in [lo..hi]. *)
Inductive lead_kind :=
| LeadAscii
| LeadInvalid
| LeadMulti (size : nat) (lo hi : Z).

Definition lead (b0 : Z) : lead_kind :=
  if b0 <? 0x80 then LeadAscii
  else if b0 <? 0xC2 then LeadInvalid
  else if b0 <? 0xE0 then LeadMulti 2 0x80 0xBF
  else if b0 =? 0xE0 then LeadMulti 3 0xA0 0xBF
  else if b0 =? 0xED then LeadMulti 3 0x80 0x9F
  else if b0 <? 0xF0 then LeadMulti 3 0x80 0xBF
  else if b0 =? 0xF0 then LeadMulti 4 0x90 0xBF
  else if b0 <? 0xF4 then LeadMulti 4 0x80 0xBF
  else if b0 =? 0xF4 then LeadMulti 4 0x80 0x8F
  else LeadInvalid.

Definition cont (b : Z) : Z := Z.land b 0x3F.

(** The runes a [for _, r := range s] loop visits. *)
Fixpoint runes (s : string) : list Z :=
  match s with
  | EmptyString => []
  | String a0 t0 =>
      let b0 := byte_val a0 in
      let bad (_ : unit) := RuneError :: runes t0 in
      match lead b0 with
      | LeadAscii => b0 :: runes t0
      | LeadInvalid => bad tt
      | LeadMulti size lo hi =>
          match t0 with
          | EmptyString => bad tt
          | String a1 t1 =>
              let b1 := byte_val a1 in
              if negb (in_range lo hi b1) then bad tt
              else if (size <=? 2)%nat
              then Z.lor (Z.shiftl (Z.land b0 0x1F) 6) (cont b1) :: runes t1
              else
                match t1 with
                | EmptyString => bad tt
                | String a2 t2 =>
                    let b2 := byte_val a2 in
                    if negb (in_range 0x80 0xBF b2) then bad tt
                    else if (size <=? 3)%nat
                    then Z.lor (Z.shiftl (Z.land b0 0x0F) 12)
                           (Z.lor (Z.shiftl (cont b1) 6) (cont b2)) :: runes t2
                    else
                      match t2 with
                      | EmptyString => bad tt
                      | String a3 t3 =>
                          let b3 := byte_val a3 in
                          if negb (in_range 0x80 0xBF b3) then bad tt
                          else Z.lor (Z.shiftl (Z.land b0 0x07) 18)
                                 (Z.lor (Z.shiftl (cont b1) 12)
                                    (Z.lor (Z.shiftl (cont b2) 6) (cont b3)))
                               :: runes t3
                      end
                end
          end
      end
  end.

(** [unicode.IsSpace]: the Unicode White_Space property. *)
Definition IsSpace (r : Z) : bool :=
  in_range 0x09 0x0D r || (r =? 0x20) || (r =? 0x85) || (r =? 0xA0)
  || (r =? 0x1680) || in_range 0x2000 0x200A r
  || (r =? 0x2028) || (r =? 0x2029) || (r =? 0x202F)
  || (r =? 0x205F) || (r =? 0x3000).

(** Splitting a rune sequence into its maximal runs of non-space runes;
    [cur] is the field being read, most recent rune first. *)
Fixpoint fields_from (cur : list Z) (rs : list Z) : list (list Z) :=
  match rs with
  | [] => match cur with [] => [] | _ => [rev cur] end
  | r :: rs' =>
      if IsSpace r
      then match cur with
           | [] => fields_from [] rs'
           | _ => rev cur :: fields_from [] rs'
           end
      else fields_from (r :: cur) rs'
  end.

(** [strings.Fields(s)], each field given by its runes. *)
Definition Fields (s : string) : list (list Z) := fields_from [] (runes s).

End GoStrings.

(* ===================================================================== *)
(** * Heuristic score (display.go, and the earlier main.go) *)
(* ===================================================================== *)

(** [func calculateScore(r Result) int] *)
Definition calculateScore (r : Result) : Z :=
  match Error r with
  | Some _ => 0
  | None =>
      let wordCount := len (GoStrings.Fields (Text r)) in
      let citationScore := int_wrap (len (Citations r) * 10) in
      let wordScore := Z.min (Z.quot wordCount 10) 50 in
      int_wrap (citationScore + wordScore)
  end.

(** The earlier revision of main.go keeps the word count in the response
    record; its callers fill it in before scoring. *)
Module Legacy.

Record ModelResponse := mkModelResponse {
  ModelName : string;
  Text : string;
  Citations : list Citation;
  Duration : Z;
  Error : option string;
  WordCount : Z;
  Score : Z
}.

(** [func calculateScore(resp ModelResponse) int] *)
Definition calculateScore (resp : ModelResponse) : Z :=
  match Error resp with
  | Some _ => 0
  | None =>
      let citationScore := int_wrap (len (Citations resp) * 10) in
      let wordScore := Z.min (Z.quot (WordCount resp) 10) 50 in
      int_wrap (citationScore + wordScore)
  end.

(** [response.WordCount = len(strings.Fields(response.Text))] followed by
    [response.Score = calculateScore(response)], as in [runAllModels] and
    [runSingleModel]. *)
Definition score_response (response : ModelResponse) : ModelResponse :=
  let counted :=
    {| ModelName := ModelName response; Text := Text response;
       Citations := Citations response; Duration := Duration response;
       Error := Error response;
       WordCount := len (GoStrings.Fields (Text response));
       Score := Score response |} in
  {| ModelName := ModelName counted; Text := Text counted;
     Citations := Citations counted; Duration := Duration counted;
     Error := Error counted; WordCount := WordCount counted;
     Score := calculateScore counted |}.

End Legacy.

(* ===================================================================== *)
(** * Go's [float64] *)
(* ===================================================================== *)

(** A finite [float64] is the rational it denotes, in lowest terms.  Each
    operation returns the exact result rounded to 53 significant bits,
    nearest with ties to even, as IEEE 754 prescribes for conversion from
    an integer, [*], [+] and [/].  The exponent range is not modelled: the
    program's values stay between 2^-64 and 2^70 in magnitude, far from
    overflow and from the subnormal numbers.  Products and sums are rounded
    one by one (no fused multiply-add). *)
Module F64.

Definition float64 := Q.

Definition pow2 (e : Z) : Q := Qpower 2 e.

(** [floor (log2 x)] for [x > 0]. *)
Definition ilog2 (x : Q) : Z :=
  let n := Qnum x in
  let d := Zpos (Qden x) in
  let k := Z.log2 n - Z.log2 d in
  if Qle_bool (pow2 k) x then k else k - 1.

(** The integer nearest to [y], the even one when [y] is half-way. *)
Definition rne (y : Q) : Z :=
  let t := Qfloor (y + (1 # 2)) in
  if Qeq_bool (inject_Z t) (y + (1 # 2)) && Z.odd t then t - 1 else t.

(** Rounding a positive rational to 53 significant bits. *)
Definition round_pos (x : Q) : Q :=
  let e := ilog2 x - 52 in
  inject_Z (rne (x / pow2 e)) * pow2 e.

Definition round_canon (x : Q) : Q :=
  match Qcompare x 0 with
  | Eq => 0
  | Gt => round_pos x
  | Lt => - round_pos (- x)
  end.

Definition round (x : Q) : float64 := Qred (round_canon (Qred x)).

(** [float64(z)] for an [int] [z]. *)
Definition of_int (z : Z) : float64 := round (inject_Z z).

(** A decimal constant of the source, converted to [float64]. *)
Definition const (q : Q) : float64 := round q.

Definition mul (x y : float64) : float64 := round (x * y).
Definition add (x y : float64) : float64 := round (x + y).
Definition div (x y : float64) : float64 := round (x / y).

(** [int(x)]: the fraction is discarded. *)
Definition to_int (x : float64) : Z := Z.quot (Qnum x) (Zpos (Qden x)).

(** [x > y] *)
Definition gtb (x y : float64) : bool :=
  match Qcompare x y with Gt => true | _ => false end.

End F64.

(* ===================================================================== *)
(** * Goroutine fan-out *)
(* ===================================================================== *)

(** [go f(x)] for every [x] of a list, then [wg.Wait()] (or a channel read
    until close): the effects of the tasks take place one after the other in
    an order the runtime chooses.  A scheduler gives that order. *)
Record Scheduler := mkScheduler {
  run_order : forall A : Type, list A -> list A
}.
Arguments run_order _ {A} _.

(** Every task that was launched completes exactly once. *)
Definition fair (s : Scheduler) : Prop :=
  forall (A : Type) (l : list A), Permutation (run_order s l) l.

(** The scheduler under which tasks complete in launch order. *)
Definition in_order : Scheduler := {| run_order := fun _ l => l |}.

(** The scheduler under which the last task launched completes first. *)
Definition last_first : Scheduler := {| run_order := fun _ l => rev l |}.

(* ===================================================================== *)
(** * LinkValidator (judge.go) *)
(* ===================================================================== *)

(** [type CitationCheck struct] *)
Module CitationCheck.
Record t := mk {
  URL : string;
  StatusCode : Z;
  Healthy : bool;
  Latency : Z;
  Error : string
}.
End CitationCheck.
Abbreviation CitationCheck := CitationCheck.t.

(** What [client.Head(url)] gives back and how long it took. *)
Inductive HeadOutcome :=
| HeadFailed (err : string)
| HeadResponse (status : Z).

Record Probe := mkProbe {
  outcome : HeadOutcome;
  elapsed : Z
}.

(** The goroutine body of [validateCitations] for the citation at [idx]. *)
Definition probe_citation (head : nat -> Citation -> Probe)
    (idx : nat) (citation : Citation) : CitationCheck :=
  let p := head idx citation in
  match outcome p with
  | HeadFailed err =>
      {| CitationCheck.URL := URL citation;
         CitationCheck.StatusCode := 0;
         CitationCheck.Healthy := false;
         CitationCheck.Latency := elapsed p;
         CitationCheck.Error := err |}
  | HeadResponse status =>
      {| CitationCheck.URL := URL citation;
         CitationCheck.StatusCode := status;
         CitationCheck.Healthy := (200 <=? status) && (status <? 400);
         CitationCheck.Latency := elapsed p;
         CitationCheck.Error := "" |}
  end.

(** The zero value that [make([]CitationCheck, n)] fills the slice with. *)
Definition zero_check : CitationCheck :=
  {| CitationCheck.URL := ""; CitationCheck.StatusCode := 0;
     CitationCheck.Healthy := false; CitationCheck.Latency := 0;
     CitationCheck.Error := "" |}.

(** [checks[idx] = check], the effect of the goroutine launched for the
    citation at [idx]. *)
Definition store_check (head : nat -> Citation -> Probe)
    (checks : list CitationCheck) (task : nat * Citation)
    : list CitationCheck :=
  let '(idx, citation) := task in
  <[idx := probe_citation head idx citation]> checks.

(** [func validateCitations(citations []Citation) []CitationCheck]: one
    goroutine per citation stores its check at its own index. *)
Definition validateCitations (sched : Scheduler)
    (head : nat -> Citation -> Probe) (citations : list Citation)
    : list CitationCheck :=
  let checks := replicate (length citations) zero_check in
  foldl (store_check head) checks (run_order sched (imap pair citations)).

(** [func linkHealthScore(checks []CitationCheck) int] *)
Definition linkHealthScore (checks : list CitationCheck) : Z :=
  if len checks =? 0 then 5
  else
    let healthy :=
      foldl (fun healthy c => if CitationCheck.Healthy c then healthy + 1 else healthy)
            0 checks in
    let pct := F64.div (F64.of_int healthy) (F64.of_int (len checks)) in
    let score := F64.to_int (F64.mul pct (F64.of_int 9)) + 1 in
    if 10 <? score then 10 else score.

(* ===================================================================== *)
(** * Stable sorting: Go's [sort.SliceStable] *)
(* ===================================================================== *)

(** For a comparison that is a strict weak order there is one stable
    sorted rearrangement of a list, which is what [sort.SliceStable]
    produces; insertion into a sorted list, behind the elements that are not
    after the new one, computes it. *)
Section StableSort.
Context {A : Type} (less : A -> A -> bool).

Fixpoint insert_stable (x : A) (l : list A) : list A :=
    match l with
    | [] => [x]
    | y :: l' => if less x y then x :: y :: l' else y :: insert_stable x l'
    end.

Definition SliceStable (l : list A) : list A :=
    foldl (fun sorted x => insert_stable x sorted) [] l.
End StableSort.

(* ===================================================================== *)
(** * Judge (judge.go) *)
(* ===================================================================== *)

(** [type judgeEvaluation struct]: one evaluation of the scoring model. *)
Module judgeEvaluation.
Record t := mk {
  Model : string;
  Quality : Z;
  Recency : Z;
  Significance : Z;
  Impact : Z;
  Reasoning : string
}.
End judgeEvaluation.
Abbreviation judgeEvaluation := judgeEvaluation.t.

(** [type judgeToolResponse struct] *)
Record judgeToolResponse := mkToolResponse {
  Evaluations : list judgeEvaluation
}.

(** [type JudgeScore struct].  Its declaration is in a file of the
    repository that is not among the sources; the fields and their types
    are those [Judge] assigns and display.go prints. *)
Module JudgeScore.
Record t := mk {
  Quality : Z;
  LinkHealth : Z;
  Recency : Z;
  Significance : Z;
  Impact : Z;
  Overall : F64.float64;
  Reasoning : string
}.
End JudgeScore.
Abbreviation JudgeScore := JudgeScore.t.

(** [type ModelResult struct] (display.go): a result with its provider
    and, once judged, its score. *)
Module ModelResult.
Record t := mk {
  Provider : Provider;
  Result : Result;
  JudgeScore : option JudgeScore.t
}.
End ModelResult.
Abbreviation ModelResult := ModelResult.t.

(** What [json.Unmarshal(tb.Input, &toolInput)] gives for a content block. *)
Inductive Unmarshalled :=
| UnmarshalError (err : string)
| UnmarshalOk (toolInput : judgeToolResponse).

(** A content block of the reply, seen through [block.AsToolUse()]. *)
Record ContentBlock := mkBlock {
  block_Name : string;
  block_Input : Unmarshalled
}.

(** What [client.Messages.New] gives back. *)
Inductive ApiReply :=
| ApiFailed (err : string)
| ApiMessage (Content : list ContentBlock).

(** Everything outside the program that one call of [Judge] observes. *)
Record World := mkWorld {
  (** completion order of goroutines *)
  sched : Scheduler;
  (** the HEAD probe of citation [j] of result [i] *)
  client_Head : nat -> nat -> Citation -> Probe;
  (** the reply of the scoring model *)
  messages_New : ApiReply;
  (** the order in which the [i]-th [range evalMap] visits the entries *)
  range_map : nat -> list (string * judgeEvaluation) -> list (string * judgeEvaluation)
}.

(** What the Go runtime guarantees about a [World]: goroutines all
    complete, and [range] over a map visits every entry once. *)
Definition well_behaved (w : World) : Prop :=
  fair (sched w) /\
  forall i l, Permutation (range_map w i l) l.

Definition usable (mr : ModelResult) : bool :=
  match Error (ModelResult.Result mr) with None => true | Some _ => false end.

(** [strings.Contains(s, substr)] *)
Fixpoint Contains (s substr : string) : bool :=
  String.prefix substr s
  || match s with
     | EmptyString => false
     | String _ s' => Contains s' substr
     end.

(** [strings.ToLower] on a string of ASCII bytes; bytes above 127 are left
    as they are. *)
Definition lower_byte (a : ascii) : ascii :=
  let n := N_of_ascii a in
  if ((65 <=? n) && (n <=? 90))%N then ascii_of_N (n + 32) else a.

Fixpoint ToLower_ascii (s : string) : string :=
  match s with
  | EmptyString => EmptyString
  | String a s' => String (lower_byte a) (ToLower_ascii s')
  end.

Section Judge.
  (** [strings.ToLower]: the Unicode case mapping of the standard library. *)
Variable ToLower : string -> string.

  (** [allChecks[mr.Provider.Name()] = checks], the effect of the
      goroutine launched for [results[i]]. *)
Definition store_checks (w : World)
      (allChecks : gmap string (list CitationCheck))
      (task : nat * ModelResult) : gmap string (list CitationCheck) :=
    let '(i, mr) := task in
    <[Name (ModelResult.Provider mr) :=
        validateCitations (sched w) (client_Head w i)
          (Citations (ModelResult.Result mr))]> allChecks.

  (** Phase 1: one goroutine per usable result validates its citations
      and stores the checks under the provider's name. *)
Definition validate_all (w : World) (results : list ModelResult)
      : gmap string (list CitationCheck) :=
    foldl (store_checks w) ∅
          (run_order (sched w)
             (filter (fun task : nat * ModelResult => usable task.2 = true)
                     (imap pair results))).

  (** [allChecks[name]] *)
Definition checks_of (allChecks : gmap string (list CitationCheck))
      (name : string) : list CitationCheck :=
    default [] (allChecks !! name).

  (** The first content block named [score_models], unmarshalled. *)
Fixpoint parse_tool_use (content : list ContentBlock) : Unmarshalled :=
    match content with
    | [] => UnmarshalOk {| Evaluations := [] |}
    | block :: rest =>
        if String.eqb (block_Name block) "score_models"
        then block_Input block
        else parse_tool_use rest
    end.

  (** [evalMap[eval.Model] = eval] for every evaluation, in order. *)
Definition build_evalMap (evals : list judgeEvaluation)
      : gmap string judgeEvaluation :=
    foldl (fun evalMap eval => <[judgeEvaluation.Model eval := eval]> evalMap)
          ∅ evals.

  (** The test of the fuzzy-matching loop. *)
Definition fuzzy (p : Provider) (name : string) : bool :=
    Contains (ToLower name) (ToLower (Name p))
    || Contains (ToLower (DisplayName p)) (ToLower name).

  (** The evaluation matched to provider [p], if any: by display name,
      else the first entry the [range] loop finds to pass the test. *)
Definition match_evaluation (w : World) (i : nat)
      (evalMap : gmap string judgeEvaluation) (p : Provider)
      : option judgeEvaluation :=
    match evalMap !! DisplayName p with
    | Some eval => Some eval
    | None =>
        snd <$> List.find (fun '(name, _) => fuzzy p name)
                  (range_map w i (map_to_list evalMap))
    end.

  (** The weights of the composite score, as written in the source. *)
Definition wQuality : Q := 0.25.
Definition wLinkHealth : Q := 0.15.
Definition wRecency : Q := 0.20.
Definition wSignificance : Q := 0.20.
Definition wImpact : Q := 0.20.

  (** [float64(q)*0.25 + float64(lh)*0.15 + float64(r)*0.20 +
      float64(s)*0.20 + float64(i)*0.20] *)
Definition weighted (quality lh recency significance impact : Z)
      : F64.float64 :=
    F64.add
      (F64.add
         (F64.add
            (F64.add (F64.mul (F64.of_int quality) (F64.const wQuality))
                     (F64.mul (F64.of_int lh) (F64.const wLinkHealth)))
            (F64.mul (F64.of_int recency) (F64.const wRecency)))
         (F64.mul (F64.of_int significance) (F64.const wSignificance)))
      (F64.mul (F64.of_int impact) (F64.const wImpact)).

Definition no_evaluation : string :=
    "Judge did not return evaluation for this model".

  (** The score for a usable result, from the matched evaluation or, when
      there is none, from link health alone. *)
Definition score_of (matched : option judgeEvaluation) (lhScore : Z)
      : JudgeScore :=
    match matched with
    | Some eval =>
        {| JudgeScore.Quality := judgeEvaluation.Quality eval;
           JudgeScore.LinkHealth := lhScore;
           JudgeScore.Recency := judgeEvaluation.Recency eval;
           JudgeScore.Significance := judgeEvaluation.Significance eval;
           JudgeScore.Impact := judgeEvaluation.Impact eval;
           JudgeScore.Overall :=
             weighted (judgeEvaluation.Quality eval) lhScore
               (judgeEvaluation.Recency eval)
               (judgeEvaluation.Significance eval)
               (judgeEvaluation.Impact eval);
           JudgeScore.Reasoning := judgeEvaluation.Reasoning eval |}
    | None =>
        {| JudgeScore.Quality := 0;
           JudgeScore.LinkHealth := lhScore;
           JudgeScore.Recency := 0;
           JudgeScore.Significance := 0;
           JudgeScore.Impact := 0;
           JudgeScore.Overall := F64.of_int lhScore;
           JudgeScore.Reasoning := no_evaluation |}
    end.

  (** One iteration of the phase 3 loop: [results[i]] after it. *)
Definition attach (w : World)
      (allChecks : gmap string (list CitationCheck))
      (evalMap : gmap string judgeEvaluation)
      (i : nat) (mr : ModelResult) : ModelResult :=
    if usable mr then
      let p := ModelResult.Provider mr in
      let matched := match_evaluation w i evalMap p in
      let lhScore := linkHealthScore (checks_of allChecks (Name p)) in
      {| ModelResult.Provider := ModelResult.Provider mr;
         ModelResult.Result := ModelResult.Result mr;
         ModelResult.JudgeScore := Some (score_of matched lhScore) |}
    else mr.

  (** The key of the final sort: [JudgeScore.Overall], or 0 without a score. *)
Definition rank_key (mr : ModelResult) : F64.float64 :=
    match ModelResult.JudgeScore mr with
    | Some js => JudgeScore.Overall js
    | None => 0%Q
    end.

Definition by_overall (x y : ModelResult) : bool :=
    F64.gtb (rank_key x) (rank_key y).

  (** [func Judge(ctx, results, query, verbose) ([]ModelResult, error)].
      The prompt built from [results] and [query] goes to the scoring
      model, whose reply is [messages_New w]; what is printed under
      [verbose] is not modelled. *)
Definition Judge (w : World) (results : list ModelResult)
      (query : string) (verbose : bool)
      : list ModelResult * option string :=
    let allChecks := validate_all w results in
    let validCount := len (filter (fun mr => usable mr = true) results) in
    if validCount =? 0 then (results, None)
    else
      match messages_New w with
      | ApiFailed err => (results, Some ("judge API error: " +:+ err))
      | ApiMessage content =>
          match parse_tool_use content with
          | UnmarshalError err =>
              (results, Some ("judge parse error: " +:+ err))
          | UnmarshalOk toolInput =>
              if len (Evaluations toolInput) =? 0
              then (results, Some "judge returned no evaluations")
              else
                let evalMap := build_evalMap (Evaluations toolInput) in
                (SliceStable by_overall
                   (imap (attach w allChecks evalMap) results),
                 None)
          end
      end.
End Judge.

(* ===================================================================== *)
(** * Go's [sort.Slice] *)
(* ===================================================================== *)

(** [sort.Slice(x, less)] runs the pattern-defeating quicksort of the
    standard library (sort/zsortfunc.go, since Go 1.19; go.mod asks for
    Go 1.25.6) on the slice in place.  [less]
    compares the elements currently at two indices, [Swap] exchanges them.
    Indices are [nat]: no index of these loops goes below zero. *)
Section SortSlice.
Context {A : Type} (less : A -> A -> bool).

  (** The pseudo-random step of [breakPatterns] ([xorshift.Next], on a
      [uint64]). *)
Variable xorshift_Next : Z -> Z.

Definition Less (data : list A) (i j : nat) : bool :=
    match data !! i, data !! j with
    | Some x, Some y => less x y
    | _, _ => false
    end.

Definition Swap (data : list A) (i j : nat) : list A :=
    match data !! i, data !! j with
    | Some x, Some y => <[j := x]> (<[i := y]> data)
    | _, _ => data
    end.

  (** [for j := i; j > a && data.Less(j, j-1); j-- { data.Swap(j, j-1) }] *)
Fixpoint insert_left (a j : nat) (data : list A) : list A :=
    match j with
    | O => data
    | S j' =>
        if (a <? j)%nat && Less data j j'
        then insert_left a j' (Swap data j j')
        else data
    end.

  (** [insertionSort_func(data, a, b)] *)
Definition insertionSort (data : list A) (a b : nat) : list A :=
    foldl (fun data i => insert_left a i data) data (seq (a + 1) (b - (a + 1))).

  (** [siftDown_func(data, lo, hi, first)]; [root] grows at every turn of
      the loop and stays below [hi], so [hi] turns are enough. *)
Fixpoint siftDown_from (turns : nat) (data : list A) (root hi first : nat)
      : list A :=
    match turns with
    | O => data
    | S turns' =>
        let child := (2 * root + 1)%nat in
        if (hi <=? child)%nat then data
        else
          let child :=
            if (child + 1 <? hi)%nat
               && Less data (first + child) (first + child + 1)
            then (child + 1)%nat else child in
          if negb (Less data (first + root) (first + child)) then data
          else siftDown_from turns' (Swap data (first + root) (first + child))
                 child hi first
    end.

Definition siftDown (data : list A) (lo hi first : nat) : list A :=
    siftDown_from hi data lo hi first.

  (** [heapSort_func(data, a, b)] *)
Definition heapSort (data : list A) (a b : nat) : list A :=
    let first := a in
    let lo := O in
    let hi := (b - a)%nat in
    let data :=
      foldl (fun data i => siftDown data i hi first) data
            (rev (seq 0 ((hi - 1) / 2 + 1))) in
    foldl (fun data i => siftDown (Swap data first (first + i)) lo i first)
          data (rev (seq 0 hi)).

  (** [for i <= j && p(i) { i++ }] *)
Fixpoint scan_up (turns : nat) (p : nat -> bool) (i j : nat) : nat :=
    match turns with
    | O => i
    | S turns' =>
        if (i <=? j)%nat && p i then scan_up turns' p (S i) j else i
    end.

  (** [for i <= j && p(j) { j-- }], with [1 <= i]. *)
Fixpoint scan_down (p : nat -> bool) (i j : nat) : nat :=
    match j with
    | O => O
    | S j' => if (i <=? j)%nat && p j then scan_down p i j' else j
    end.

  (** The [for] loop of [partition_func]. *)
Fixpoint partition_loop (turns : nat) (data : list A) (a i j : nat)
      : list A * nat :=
    match turns with
    | O => (data, j)
    | S turns' =>
        let i := scan_up (S j - i) (fun k => Less data k a) i j in
        let j := scan_down (fun k => negb (Less data k a)) i j in
        if (j <? i)%nat then (data, j)
        else partition_loop turns' (Swap data i j) a (S i) (j - 1)
    end.

  (** [partition_func(data, a, b, pivot)]: the new index of the pivot and
      whether the range was already partitioned. *)
Definition partition (data : list A) (a b pivot : nat)
      : list A * nat * bool :=
    let data := Swap data a pivot in
    let i := (a + 1)%nat in
    let j := (b - 1)%nat in
    let i := scan_up (S j - i) (fun k => Less data k a) i j in
    let j := scan_down (fun k => negb (Less data k a)) i j in
    if (j <? i)%nat then (Swap data j a, j, true)
    else
      let data := Swap data i j in
      let '(data, j) := partition_loop (b - a) data a (S i) (j - 1) in
      (Swap data j a, j, false).

  (** The [for] loop of [partitionEqual_func]. *)
Fixpoint partitionEqual_loop (turns : nat) (data : list A) (a i j : nat)
      : list A * nat :=
    match turns with
    | O => (data, i)
    | S turns' =>
        let i := scan_up (S j - i) (fun k => negb (Less data a k)) i j in
        let j := scan_down (fun k => Less data a k) i j in
        if (j <? i)%nat then (data, i)
        else partitionEqual_loop turns' (Swap data i j) a (S i) (j - 1)
    end.

  (** [partitionEqual_func(data, a, b, pivot)] *)
Definition partitionEqual (data : list A) (a b pivot : nat)
      : list A * nat :=
    let data := Swap data a pivot in
    partitionEqual_loop (S (b - a)) data a (a + 1) (b - 1).

  (** [for i < b && !data.Less(i, i-1) { i++ }] *)
Fixpoint run_up (turns : nat) (data : list A) (i b : nat) : nat :=
    match turns with
    | O => i
    | S turns' =>
        if (i <? b)%nat && negb (Less data i (i - 1))
        then run_up turns' data (S i) b else i
    end.

  (** [for j := i - 1; j >= 1; j-- { if !data.Less(j, j-1) { break };
      data.Swap(j, j-1) }], entered at [j]. *)
Fixpoint shift_down (j : nat) (data : list A) : list A :=
    match j with
    | O => data
    | S j' => if Less data j j' then shift_down j' (Swap data j j') else data
    end.

  (** [for j := i + 1; j < b; j++ { if !data.Less(j, j-1) { break };
      data.Swap(j, j-1) }], entered at [j]. *)
Fixpoint shift_up (turns : nat) (data : list A) (j b : nat) : list A :=
    match turns with
    | O => data
    | S turns' =>
        if (j <? b)%nat && Less data j (j - 1)
        then shift_up turns' (Swap data j (j - 1)) (S j) b
        else data
    end.

Definition shortestShifting : nat := 50.

  (** The loop of [partialInsertionSort_func]; [steps] counts [maxSteps]
      down. *)
Fixpoint partialInsertionSort_steps (steps : nat) (data : list A)
      (a i b : nat) : list A * bool :=
    match steps with
    | O => (data, false)
    | S steps' =>
        let i := run_up (b - i) data i b in
        if (i =? b)%nat then (data, true)
        else if (b - a <? shortestShifting)%nat then (data, false)
        else
          let data := Swap data i (i - 1) in
          let data :=
            if (2 <=? i - a)%nat then shift_down (i - 1) data else data in
          let data :=
            if (2 <=? b - i)%nat then shift_up (b - (i + 1)) data (i + 1) b
            else data in
          partialInsertionSort_steps steps' data a i b
    end.

Definition maxSteps : nat := 5.

  (** [partialInsertionSort_func(data, a, b)] *)
Definition partialInsertionSort (data : list A) (a b : nat)
      : list A * bool :=
    partialInsertionSort_steps maxSteps data a (a + 1) b.

  (** [bits.Len(uint(x))] *)
Definition bits_Len (x : nat) : nat :=
    match x with
    | O => O
    | _ => S (Z.to_nat (Z.log2 (Z.of_nat x)))
    end.

  (** [nextPowerOfTwo(length)] *)
Definition nextPowerOfTwo (length : nat) : Z := 2 ^ Z.of_nat (bits_Len length).

  (** [breakPatterns_func(data, a, b)]: three elements around the middle
      of the range, at [idx], [idx + 1] and [idx + 2], change places with
      elements chosen by the random source. *)
Definition breakPatterns (data : list A) (a b : nat) : list A :=
    let length := (b - a)%nat in
    if (8 <=? length)%nat then
      let modulus := nextPowerOfTwo length in
      let idx := (a + length / 4 * 2 - 1)%nat in
      fst (foldl
             (fun '(data, random) i =>
                let random := xorshift_Next random in
                let other := Z.to_nat (Z.land random (modulus - 1)) in
                let other :=
                  if (length <=? other)%nat then (other - length)%nat
                  else other in
                (Swap data (idx + i) (a + other), random))
             (data, Z.of_nat length) [0; 1; 2]%nat)
    else data.

  (** [reverseRange_func(data, a, b)] *)
Fixpoint reverse_loop (turns : nat) (data : list A) (i j : nat) : list A :=
    match turns with
    | O => data
    | S turns' =>
        if (i <? j)%nat then reverse_loop turns' (Swap data i j) (S i) (j - 1)
        else data
    end.

Definition reverseRange (data : list A) (a b : nat) : list A :=
    reverse_loop (b - a) data a (b - 1).

Inductive sortedHint := unknownHint | increasingHint | decreasingHint.

  (** [order2_func(data, a, b, swaps)] *)
Definition order2 (data : list A) (a b swaps : nat) : nat * nat * nat :=
    if Less data b a then (b, a, S swaps) else (a, b, swaps).

  (** [median_func(data, a, b, c, swaps)] *)
Definition median (data : list A) (a b c swaps : nat) : nat * nat :=
    let '(a, b, swaps) := order2 data a b swaps in
    let '(b, c, swaps) := order2 data b c swaps in
    let '(a, b, swaps) := order2 data a b swaps in
    (b, swaps).

  (** [medianAdjacent_func(data, a, swaps)] *)
Definition medianAdjacent (data : list A) (a swaps : nat) : nat * nat :=
    median data (a - 1) a (a + 1) swaps.

Definition shortestNinther : nat := 50.
Definition maxSwaps : nat := 4 * 3.

  (** [choosePivot_func(data, a, b)] *)
Definition choosePivot (data : list A) (a b : nat) : nat * sortedHint :=
    let l := (b - a)%nat in
    let swaps := O in
    let i := (a + l / 4 * 1)%nat in
    let j := (a + l / 4 * 2)%nat in
    let k := (a + l / 4 * 3)%nat in
    let '(j, swaps) :=
      if (8 <=? l)%nat then
        let '(i, j, k, swaps) :=
          if (shortestNinther <=? l)%nat then
            let '(i, swaps) := medianAdjacent data i swaps in
            let '(j, swaps) := medianAdjacent data j swaps in
            let '(k, swaps) := medianAdjacent data k swaps in
            (i, j, k, swaps)
          else (i, j, k, swaps) in
        median data i j k swaps
      else (j, swaps) in
    if (swaps =? 0)%nat then (j, increasingHint)
    else if (swaps =? maxSwaps)%nat then (j, decreasingHint)
    else (j, unknownHint).

Definition maxInsertion : nat := 12.

  (** [pdqsort_func(data, a, b, limit)].  A turn is one pass through the
      [for] loop; a pass either returns or goes on with a strictly shorter
      range, in the same call (as [a = mid + 1], [b = mid] or [a = mid]) or
      in a recursive one, which starts with [wasBalanced] and
      [wasPartitioned] true. *)
Fixpoint pdqsort (turns : nat) (data : list A) (a b limit : nat)
      (wasBalanced wasPartitioned : bool) : list A :=
    match turns with
    | O => data
    | S turns' =>
        let length := (b - a)%nat in
        if (length <=? maxInsertion)%nat then insertionSort data a b
        else if (limit =? 0)%nat then heapSort data a b
        else
          let '(data, limit) :=
            if negb wasBalanced
            then (breakPatterns data a b, (limit - 1)%nat)
            else (data, limit) in
          let '(pivot, hint) := choosePivot data a b in
          let '(data, pivot, hint) :=
            match hint with
            | decreasingHint =>
                (reverseRange data a b, (b - 1 - (pivot - a))%nat,
                 increasingHint)
            | _ => (data, pivot, hint)
            end in
          let '(data, sorted) :=
            match hint with
            | increasingHint =>
                if wasBalanced && wasPartitioned
                then partialInsertionSort data a b
                else (data, false)
            | _ => (data, false)
            end in
          if sorted then data
          else if (0 <? a)%nat && negb (Less data (a - 1) pivot) then
            let '(data, mid) := partitionEqual data a b pivot in
            pdqsort turns' data mid b limit wasBalanced wasPartitioned
          else
            let '(data, mid, alreadyPartitioned) := partition data a b pivot in
            let wasPartitioned := alreadyPartitioned in
            let leftLen := (mid - a)%nat in
            let rightLen := (b - mid)%nat in
            let balanceThreshold := (length / 8)%nat in
            if (leftLen <? rightLen)%nat then
              let wasBalanced := (balanceThreshold <=? leftLen)%nat in
              let data := pdqsort turns' data a mid limit true true in
              pdqsort turns' data (mid + 1) b limit wasBalanced wasPartitioned
            else
              let wasBalanced := (balanceThreshold <=? rightLen)%nat in
              let data := pdqsort turns' data (mid + 1) b limit true true in
              pdqsort turns' data a mid limit wasBalanced wasPartitioned
    end.

  (** [sort.Slice(x, less)] *)
Definition sort_Slice (x : list A) : list A :=
    let length := length x in
    let limit := bits_Len length in
    pdqsort (S length) x 0 length limit true true.
End SortSlice.

(* ===================================================================== *)
(** * Orchestrator (main.go) *)
(* ===================================================================== *)

Module Orchestrator.

(** [type ModelResult struct] as main.go uses it: with the heuristic
    score. *)
Module ModelResult.
Record t := mk {
  Provider : Provider;
  Result : Result;
  Score : Z
}.
End ModelResult.
Abbreviation ModelResult := ModelResult.t.

(** Reading a list by index needs an element to fall back on; the sort
    never reads out of range. *)
#[global] Instance ModelResult_inhabited : Inhabited ModelResult :=
  populate
    (let empty := {| Text := ""; Citations := []; Duration := 0;
                     Tokens := {| Input := 0; Output := 0 |};
                     Error := None |} in
     {| ModelResult.Provider :=
          {| Name := ""; DisplayName := ""; Emoji := ""; CheckAuth := None;
             Query := fun _ _ => empty |};
        ModelResult.Result := empty;
        ModelResult.Score := 0 |}).

(** The order of [sort.Strings]: byte-wise lexicographic. *)
Definition string_le (a b : string) : Prop := String.leb a b = true.

#[global] Instance string_le_dec : RelDecision string_le :=
  fun a b => decide (String.leb a b = true).

(** [func All() []string]: the registered names, sorted. *)
Definition All (providers : gmap string Provider) : list string :=
  merge_sort string_le (fst <$> map_to_list providers).

(** The goroutine body of [runAllModels]: what is sent on the channel. *)
Definition run_provider (query : string) (verbose : bool) (provider : Provider)
    : ModelResult :=
  let r := Query provider query verbose in
  {| ModelResult.Provider := provider;
     ModelResult.Result := r;
     ModelResult.Score := calculateScore r |}.

(** [modelResults[i].Score > modelResults[j].Score] *)
Definition by_score (x y : ModelResult) : bool :=
  ModelResult.Score y <? ModelResult.Score x.

(** The providers that pass the pre-flight [CheckAuth]. *)
Definition available (providers : gmap string Provider) : list Provider :=
  filter (fun p => CheckAuth p = None)
         (omap (fun name => providers !! name) (All providers)).

(** The results in the order they arrive on the channel. *)
Definition collect (sched : Scheduler) (available : list Provider)
    (query : string) (verbose : bool) : list ModelResult :=
  run_provider query verbose <$> run_order sched available.

(** [func runAllModels(ctx, query)]: the results in the order they are
    printed, or [None] when the program exits because no provider is
    available.  [providers] is the registry and [verbose] the flag, both
    package variables. *)
Definition runAllModels (xorshift_Next : Z -> Z) (sched : Scheduler)
    (providers : gmap string Provider) (verbose : bool) (query : string)
    : option (list ModelResult) :=
  let available := available providers in
  if len available =? 0 then None
  else Some (sort_Slice by_score xorshift_Next
               (collect sched available query verbose)).

End Orchestrator.


(* ===================================================================== *)
(** * Sample data *)
(* ===================================================================== *)

(** Providers as the adapters of the repository declare them, with fixed
    answers, and a world in which every link answers 200 and the scoring
    model evaluates Claude only. *)
Module Sample.

Definition paris : Result :=
  {| Text := "Paris is the capital of France.";
     Citations := [ {| URL := "https://a.example/1"; Domain := ""; Title := "" |} ];
     Duration := 1500000000;
     Tokens := {| Input := 12; Output := 9 |};
     Error := None |}.

Definition timeout : Result :=
  {| Text := ""; Citations := []; Duration := 5000000000;
     Tokens := {| Input := 0; Output := 0 |};
     Error := Some "API error: timeout" |}.

Definition claude : Provider :=
  {| Name := "claude"; DisplayName := "Claude 4.5 Sonnet"; Emoji := "C";
     CheckAuth := None; Query := fun _ _ => paris |}.

Definition nova : Provider :=
  {| Name := "nova"; DisplayName := "Nova Premier (AWS)"; Emoji := "N";
     CheckAuth := None; Query := fun _ _ => paris |}.

Definition grok : Provider :=
  {| Name := "grok"; DisplayName := "Grok 4 (xAI)"; Emoji := "G";
     CheckAuth := None; Query := fun _ _ => timeout |}.

Definition fresh (p : Provider) : ModelResult :=
  {| ModelResult.Provider := p;
     ModelResult.Result := Query p "X" false;
     ModelResult.JudgeScore := None |}.

Definition claude_evaluation : judgeEvaluation :=
  {| judgeEvaluation.Model := "Claude 4.5 Sonnet";
     judgeEvaluation.Quality := 8;
     judgeEvaluation.Recency := 7;
     judgeEvaluation.Significance := 6;
     judgeEvaluation.Impact := 5;
     judgeEvaluation.Reasoning := "Accurate and sourced." |}.

Definition all_links_ok (i j : nat) (c : Citation) : Probe :=
  {| outcome := HeadResponse 200; elapsed := 120000000 |}.

Definition world (reply : ApiReply) : World :=
  {| sched := in_order;
     client_Head := all_links_ok;
     messages_New := reply;
     range_map := fun _ l => l |}.

Definition scored_claude : ApiReply :=
  ApiMessage
    [ {| block_Name := "score_models";
         block_Input := UnmarshalOk {| Evaluations := [claude_evaluation] |} |} ].

Definition unreachable : ApiReply := ApiFailed "connection refused".

(** [xorshift.Next] with the shifts 13, 7 and 17 on 64 bits. *)
Definition xorshift (r : Z) : Z :=
  let r := Z.lxor r (Z.shiftl r 13 mod 2 ^ 64) in
  let r := Z.lxor r (Z.shiftr r 7) in
  Z.lxor r (Z.shiftl r 17 mod 2 ^ 64).

(** A registry of thirteen providers, of which only the seventh finds a
    source; the others time out. *)
Definition numbered (name : string) (answer : Result) : Provider :=
  {| Name := name; DisplayName := name; Emoji := "";
     CheckAuth := None; Query := fun _ _ => answer |}.

Definition thirteen : list Provider :=
  [ numbered "m00" timeout; numbered "m01" timeout; numbered "m02" timeout;
    numbered "m03" timeout; numbered "m04" timeout; numbered "m05" timeout;
    numbered "m06" paris; numbered "m07" timeout; numbered "m08" timeout;
    numbered "m09" timeout; numbered "m10" timeout; numbered "m11" timeout;
    numbered "m12" timeout ].

Definition registry (l : list Provider) : gmap string Provider :=
  foldl (fun providers p => <[Name p := p]> providers) ∅ l.

End Sample.

(* ===================================================================== *)
(** * Provider registry (provider.go) *)
(* ===================================================================== *)

(** [func Register(p Provider)]: [providers[p.Name()] = p]. *)
Definition Register (p : Provider) (providers : gmap string Provider)
    : gmap string Provider :=
  <[Name p := p]> providers.

(** [func Get(name string) (Provider, bool)] *)
Definition Get (providers : gmap string Provider) (name : string)
    : option Provider :=
  providers !! name.

(** The registry after the [init] functions of the adapters have run, in
    the order [ps]. *)
Definition registered (ps : list Provider) : gmap string Provider :=
  foldl (fun providers p => Register p providers) ∅ ps.

(* ===================================================================== *)
(** * Single-model mode and the pre-flight check (main.go) *)
(* ===================================================================== *)

Module Main.

(** [fmt.Sprintf("%s %s: %s", p.Emoji(), p.DisplayName(), err.Error())] *)
Definition auth_message (p : Provider) (err : string) : string :=
  Emoji p +:+ " " +:+ DisplayName p +:+ ": " +:+ err.

(** One turn of the pre-flight loop of [runAllModels], for [name].  The
    names come from [All()], so [Get] finds a provider. *)
Definition preflight_step (providers : gmap string Provider)
    (st : list Provider * list string) (name : string)
    : list Provider * list string :=
  let '(available, skipped) := st in
  match Get providers name with
  | None => (available, skipped)
  | Some p =>
      match CheckAuth p with
      | Some err => (available, skipped ++ [auth_message p err])
      | None => (available ++ [p], skipped)
      end
  end.

(** The pre-flight loop: the providers to run and the lines reported by
    [printSkippedProviders]. *)
Definition preflight (providers : gmap string Provider)
    : list Provider * list string :=
  foldl (preflight_step providers) ([], []) (Orchestrator.All providers).

(** How [runSingleModel] ends. *)
Inductive SingleOutcome :=
| UnknownModel (names : list string)
    (** the name is not registered: the registered names are printed and
        the program exits with status 1 *)
| NotConfigured (message : string)
    (** [CheckAuth] failed: the message is printed and the program exits
        with status 1 *)
| Printed (mr : Orchestrator.ModelResult).
    (** the provider was queried and its result printed *)

(** [func runSingleModel(ctx, modelName, query)] *)
Definition runSingleModel (providers : gmap string Provider) (verbose : bool)
    (modelName query : string) : SingleOutcome :=
  match Get providers modelName with
  | None => UnknownModel (Orchestrator.All providers)
  | Some p =>
      match CheckAuth p with
      | Some err => NotConfigured (auth_message p err)
      | None => Printed (Orchestrator.run_provider query verbose p)
      end
  end.

End Main.

(* ===================================================================== *)
(** * Cost of a result (provider.go) *)
(* ===================================================================== *)

(** [struct{ Input, Output float64 }]: USD per million tokens. *)
Module Price.
Record t := mk {
  Input : F64.float64;
  Output : F64.float64
}.
End Price.

(** [var Pricing = map[string]struct{ Input, Output float64 }{...}] *)
Definition Pricing : gmap string Price.t :=
  list_to_map
    [ ("nova",   {| Price.Input := F64.const 2.50; Price.Output := F64.const 12.50 |});
      ("claude", {| Price.Input := F64.const 3.00; Price.Output := F64.const 15.00 |});
      ("gemini", {| Price.Input := F64.const 2.00; Price.Output := F64.const 12.00 |});
      ("grok",   {| Price.Input := F64.const 3.00; Price.Output := F64.const 15.00 |}) ].

(** [var SearchCost = map[string]float64{...}] *)
Definition SearchCost : gmap string F64.float64 :=
  list_to_map
    [ ("nova", F64.const 0.01);
      ("claude", F64.const 0.01);
      ("gemini", F64.const 0.035);
      ("grok", F64.const 0.00) ].

(** [func (r Result) TokenCost(provider string) float64] *)
Definition TokenCost (r : Result) (provider : string) : F64.float64 :=
  match Pricing !! provider with
  | None => 0%Q
  | Some p =>
      F64.div
        (F64.add
           (F64.mul (F64.of_int (Input (Tokens r))) (Price.Input p))
           (F64.mul (F64.of_int (Output (Tokens r))) (Price.Output p)))
        (F64.const 1000000)
  end.

(** [func (r Result) EstimatedCost(provider string) float64]; a provider
    without an entry in [SearchCost] reads the zero value. *)
Definition EstimatedCost (r : Result) (provider : string) : F64.float64 :=
  let tokenCost := TokenCost r provider in
  let searchCost := default 0%Q (SearchCost !! provider) in
  F64.add tokenCost searchCost.

(* ===================================================================== *)
(** * Provider adapters (claude.go, gemini.go, grok.go, nova.go) *)
(* ===================================================================== *)

(** [Result{}] *)
Definition zero_Result : Result :=
  {| Text := ""; Citations := []; Duration := 0;
     Tokens := {| Input := 0; Output := 0 |}; Error := None |}.

(** Assignment to one field of a [Result]. *)
Definition set_Text (r : Result) (text : string) : Result :=
  {| Text := text; Citations := Citations r; Duration := Duration r;
     Tokens := Tokens r; Error := Error r |}.

Definition set_Citations (r : Result) (citations : list Citation) : Result :=
  {| Text := Text r; Citations := citations; Duration := Duration r;
     Tokens := Tokens r; Error := Error r |}.

Definition set_Duration (r : Result) (d : Z) : Result :=
  {| Text := Text r; Citations := Citations r; Duration := d;
     Tokens := Tokens r; Error := Error r |}.

Definition set_Tokens (r : Result) (input output : Z) : Result :=
  {| Text := Text r; Citations := Citations r; Duration := Duration r;
     Tokens := {| Input := input; Output := output |}; Error := Error r |}.

Definition set_Error (r : Result) (err : string) : Result :=
  {| Text := Text r; Citations := Citations r; Duration := Duration r;
     Tokens := Tokens r; Error := Some err |}.

(** What a call to a remote service gives back: an error or an answer. *)
Inductive Call (M : Type) : Type :=
| CallFailed (err : string)
| CallAnswered (answer : M).
Arguments CallFailed {M} err.
Arguments CallAnswered {M} answer.

(** [os.Getenv]: the value of a variable, empty when it is not set. *)
Definition Getenv := string -> string.

(** ** Claude (claude.go) *)

(** The part of the Anthropic SDK's message that the adapter reads. *)
Module anthropic.
Module TextCitation.
Record t := mk {
  Type_ : string;
  URL : string;
  Title : string
}.
End TextCitation.

(** A content block, seen through [block.AsAny()]. *)
Inductive ContentBlock :=
| TextBlock (Text : string) (Citations : list TextCitation.t)
| ToolUseBlock (Name : string)
| OtherBlock.

Record Message := mkMessage {
  Content : list ContentBlock;
  InputTokens : Z;
  OutputTokens : Z
}.
End anthropic.

(** [func (p *ClaudeProvider) CheckAuth() error] *)
Definition ClaudeProvider_CheckAuth (getenv : Getenv) : option string :=
  if String.eqb (getenv "ANTHROPIC_API_KEY") ""
  then Some "ANTHROPIC_API_KEY not set"
  else None.

(** The body of the loop over [b.Citations] in [parseClaudeResponse]. *)
Definition claude_citation (st : list Citation * gmap string bool)
    (citation : anthropic.TextCitation.t) : list Citation * gmap string bool :=
  if String.eqb (anthropic.TextCitation.Type_ citation)
                "web_search_result_location"
     && negb (String.eqb (anthropic.TextCitation.URL citation) "")
  then DeduplicateCitations st
         {| URL := anthropic.TextCitation.URL citation;
            Domain := "";
            Title := anthropic.TextCitation.Title citation |}
  else st.

(** The body of the loop over [message.Content]: the text built so far,
    the citations and the seen-set. *)
Definition claude_block (st : string * (list Citation * gmap string bool))
    (block : anthropic.ContentBlock)
    : string * (list Citation * gmap string bool) :=
  match block with
  | anthropic.TextBlock text citations =>
      (st.1 +:+ text, foldl claude_citation st.2 citations)
  | _ => st
  end.

(** [func parseClaudeResponse(message *anthropic.Message, result *Result)] *)
Definition parseClaudeResponse (message : anthropic.Message) (result : Result)
    : Result :=
  let st := foldl claude_block ("", (Citations result, ∅))
                  (anthropic.Content message) in
  set_Text (set_Citations result st.2.1) st.1.

(** [func (p *ClaudeProvider) Query(ctx, query, verbose) Result], given
    what [client.Messages.New] returned and how long it took. *)
Definition ClaudeProvider_Query (call : Call anthropic.Message) (elapsed : Z)
    : Result :=
  let result := set_Duration zero_Result elapsed in
  match call with
  | CallFailed err => set_Error result ("API error: " +:+ err)
  | CallAnswered message =>
      let result :=
        set_Tokens result (anthropic.InputTokens message)
                   (anthropic.OutputTokens message) in
      parseClaudeResponse message result
  end.

(** ** Gemini (gemini.go) *)

(** The part of the genai SDK's response that the adapter reads; the
    slices hold no nil pointers. *)
Module genai.
Module GroundingChunkWeb.
Record t := mk {
  URI : string;
  Title : string
}.
End GroundingChunkWeb.

Record GroundingChunk := mkGroundingChunk {
  Web : option GroundingChunkWeb.t
}.

Record Part := mkPart {
  Text : string
}.

Record Candidate := mkCandidate {
  (** [candidate.Content.Parts], when [candidate.Content] is not nil *)
  Content : option (list Part);
  (** [candidate.GroundingMetadata.GroundingChunks], when the metadata is
      not nil *)
  GroundingMetadata : option (list GroundingChunk)
}.

Module UsageMetadata.
Record t := mk {
  PromptTokenCount : Z;
  CandidatesTokenCount : Z
}.
End UsageMetadata.

Record GenerateContentResponse := mkResponse {
  Candidates : list Candidate;
  Usage : option UsageMetadata.t
}.
End genai.

(** [func (p *GeminiProvider) CheckAuth() error] *)
Definition GeminiProvider_CheckAuth (getenv : Getenv) : option string :=
  if String.eqb (getenv "GOOGLE_API_KEY") ""
     && String.eqb (getenv "GEMINI_API_KEY") ""
  then Some "GOOGLE_API_KEY not set"
  else None.

(** The body of the loop over the grounding chunks. *)
Definition gemini_chunk (st : list Citation * gmap string bool)
    (chunk : genai.GroundingChunk) : list Citation * gmap string bool :=
  match genai.Web chunk with
  | Some web =>
      DeduplicateCitations st
        {| URL := genai.GroundingChunkWeb.URI web;
           Domain := "";
           Title := genai.GroundingChunkWeb.Title web |}
  | None => st
  end.

(** The body of the loop over the parts. *)
Definition gemini_part (text : string) (part : genai.Part) : string :=
  if negb (String.eqb (genai.Text part) "") then text +:+ genai.Text part
  else text.

(** [func parseGeminiResponse(resp *genai.GenerateContentResponse,
    result *Result)]; [None] is a nil response. *)
Definition parseGeminiResponse (resp : option genai.GenerateContentResponse)
    (result : Result) : Result :=
  match resp with
  | None => result
  | Some resp =>
      match genai.Candidates resp with
      | [] => result
      | candidate :: _ =>
          match genai.Content candidate with
          | None => result
          | Some parts =>
              let result := set_Text result (foldl gemini_part "" parts) in
              match genai.GroundingMetadata candidate with
              | None => result
              | Some chunks =>
                  set_Citations result
                    (foldl gemini_chunk (Citations result, ∅) chunks).1
              end
          end
      end
  end.

(** How the exchange with the Gemini API went. *)
Inductive gemini_exchange :=
| GeminiClientError (err : string)
    (** [genai.NewClient] failed *)
| GeminiGenerated (call : Call genai.GenerateContentResponse) (elapsed : Z).
    (** what [client.Models.GenerateContent] returned *)

(** [func (p *GeminiProvider) Query(ctx, query, verbose) Result] *)
Definition GeminiProvider_Query (exchange : gemini_exchange) : Result :=
  let result := zero_Result in
  match exchange with
  | GeminiClientError err => set_Error result ("client error: " +:+ err)
  | GeminiGenerated call elapsed =>
      let result := set_Duration result elapsed in
      match call with
      | CallFailed err => set_Error result ("API error: " +:+ err)
      | CallAnswered resp =>
          let result :=
            match genai.Usage resp with
            | Some usage =>
                set_Tokens result
                  (genai.UsageMetadata.PromptTokenCount usage)
                  (genai.UsageMetadata.CandidatesTokenCount usage)
            | None => result
            end in
          parseGeminiResponse (Some resp) result
      end
  end.

(** ** Grok (grok.go) *)

(** [type grokResponse struct] *)
Module grokResponse.
Module Content.
Record t := mk {
  Type_ : string;
  Text : string
}.
End Content.

Module Source.
Record t := mk {
  URL : string;
  Title : string
}.
End Source.

Module Action.
Record t := mk {
  Type_ : string;
  Query : string;
  URL : string;
  Sources : list Source.t
}.
End Action.

Module Output.
Record t := mk {
  Type_ : string;
  Content : list Content.t;
  Action : Action.t
}.
End Output.

Module Usage.
Record t := mk {
  InputTokens : Z;
  OutputTokens : Z
}.
End Usage.

Record t := mk {
  OutputText : string;
  Output : list Output.t;
  Usage : option Usage.t
}.
End grokResponse.

(** [func (p *GrokProvider) CheckAuth() error] *)
Definition GrokProvider_CheckAuth (getenv : Getenv) : option string :=
  if String.eqb (getenv "XAI_API_KEY") "" then Some "XAI_API_KEY not set"
  else None.

(** The inner loop of the search for a text: the first content of type
    [output_text] with a text, or the empty string. *)
Fixpoint grok_content_text (contents : list grokResponse.Content.t) : string :=
  match contents with
  | [] => ""
  | content :: rest =>
      if String.eqb (grokResponse.Content.Type_ content) "output_text"
         && negb (String.eqb (grokResponse.Content.Text content) "")
      then grokResponse.Content.Text content
      else grok_content_text rest
  end.

(** The outer loop: it stops at the first output that gave a text. *)
Fixpoint grok_output_text (outputs : list grokResponse.Output.t) : string :=
  match outputs with
  | [] => ""
  | out :: rest =>
      let text := grok_content_text (grokResponse.Output.Content out) in
      if negb (String.eqb text "") then text else grok_output_text rest
  end.

(** The body of the loop over the matches of the link pattern. *)
Definition grok_match (st : list Citation * gmap string bool)
    (match_ : list string) : list Citation * gmap string bool :=
  if (3 <=? length match_)%nat
  then DeduplicateCitations st
         {| URL := nth 2 match_ ""; Domain := ""; Title := "" |}
  else st.

(** The body of the loop over [out.Action.Sources]. *)
Definition grok_source (st : list Citation * gmap string bool)
    (src : grokResponse.Source.t) : list Citation * gmap string bool :=
  DeduplicateCitations st
    {| URL := grokResponse.Source.URL src;
       Domain := "";
       Title := grokResponse.Source.Title src |}.

(** The body of the second loop over [resp.Output]. *)
Definition grok_output (st : list Citation * gmap string bool)
    (out : grokResponse.Output.t) : list Citation * gmap string bool :=
  if String.eqb (grokResponse.Output.Type_ out) "web_search_call"
     && String.eqb (grokResponse.Action.Type_ (grokResponse.Output.Action out))
                   "search"
  then foldl grok_source st
             (grokResponse.Action.Sources (grokResponse.Output.Action out))
  else st.

(** How the exchange with the xAI API went. *)
Inductive grok_exchange :=
| GrokMarshalError (err : string)
    (** [json.Marshal] failed *)
| GrokRequestError (err : string)
    (** [http.NewRequestWithContext] failed *)
| GrokDoError (err : string) (elapsed : Z)
    (** [client.Do] failed *)
| GrokResponse (elapsed : Z) (StatusCode : Z) (body : string)
    (readError : option string).
    (** a response arrived; [io.ReadAll] gave [body] and [readError] *)

Section Grok.
  (** [linkRegex.FindAllStringSubmatch(text, -1)] for the pattern
      [\[\[(\d+)\]\]\((https?://[^\)]+)\)] of the standard library's
      [regexp]. *)
Variable FindAllStringSubmatch : string -> list (list string).

  (** [json.Unmarshal(body, &grokResp)] *)
Variable Unmarshal : string -> Call grokResponse.t.

  (** [func parseGrokResponse(resp *grokResponse, result *Result)] *)
Definition parseGrokResponse (resp : grokResponse.t) (result : Result)
      : Result :=
    let text :=
      if String.eqb (grokResponse.OutputText resp) ""
      then grok_output_text (grokResponse.Output resp)
      else grokResponse.OutputText resp in
    let result := set_Text result text in
    let st := foldl grok_match (Citations result, ∅)
                    (FindAllStringSubmatch (Text result)) in
    let st := foldl grok_output st (grokResponse.Output resp) in
    set_Citations result st.1.

  (** [%d] of [fmt]: an [int] in decimal. *)
Definition itoa (z : Z) : string :=
    DecimalString.NilZero.string_of_int (Z.to_int z).

  (** [func (p *GrokProvider) Query(ctx, query, verbose) Result] *)
Definition GrokProvider_Query (exchange : grok_exchange) : Result :=
    let result := zero_Result in
    match exchange with
    | GrokMarshalError err => set_Error result ("marshal error: " +:+ err)
    | GrokRequestError err => set_Error result ("request error: " +:+ err)
    | GrokDoError err elapsed =>
        set_Error (set_Duration result elapsed) ("API error: " +:+ err)
    | GrokResponse elapsed StatusCode body readError =>
        let result := set_Duration result elapsed in
        if negb (StatusCode =? 200)
        then set_Error result
               ("API error (status " +:+ itoa StatusCode +:+ "): " +:+ body)
        else
          match readError with
          | Some err => set_Error result ("read error: " +:+ err)
          | None =>
              match Unmarshal body with
              | CallFailed err => set_Error result ("parse error: " +:+ err)
              | CallAnswered grokResp =>
                  let result :=
                    match grokResponse.Usage grokResp with
                    | Some usage =>
                        set_Tokens result
                          (grokResponse.Usage.InputTokens usage)
                          (grokResponse.Usage.OutputTokens usage)
                    | None => result
                    end in
                  parseGrokResponse grokResp result
              end
          end
    end.
End Grok.

(** ** Nova (nova.go) *)

(** The part of the Bedrock SDK's output that the adapter reads. *)
Module bedrock.
(** [citation.Location], seen through the type assertion. *)
Inductive CitationLocation :=
| LocationWeb (Url Domain : option string)
| LocationOther.

Record Citation := mkCitation {
  (** [None] is a nil location *)
  Location : option CitationLocation
}.

Inductive CitationGeneratedContent :=
| GeneratedText (Value : string)
| GeneratedOther.

Inductive ContentBlock :=
| MemberText (Value : string)
| MemberCitationsContent (Content : list CitationGeneratedContent)
    (Citations : list Citation)
| MemberOther.

(** [output.Output], seen through the type assertion. *)
Inductive ConverseOutputUnion :=
| MemberMessage (Content : list ContentBlock)
| OutputOther.

Module TokenUsage.
Record t := mk {
  InputTokens : option Z;
  OutputTokens : option Z
}.
End TokenUsage.

Record ConverseOutput := mkConverseOutput {
  Output : ConverseOutputUnion;
  Usage : option TokenUsage.t
}.
End bedrock.

(** What [config.LoadDefaultConfig] and [cfg.Credentials.Retrieve] give. *)
Inductive aws_credentials :=
| AwsConfigError (err : string)
| AwsRetrieveError (err : string)
| AwsRetrieved (AccessKeyID : string).

(** [func (p *NovaProvider) CheckAuth() error] *)
Definition NovaProvider_CheckAuth (creds : aws_credentials) : option string :=
  match creds with
  | AwsConfigError _ => Some "AWS credentials not configured"
  | AwsRetrieveError _ => Some "AWS credentials not found"
  | AwsRetrieved AccessKeyID =>
      if String.eqb AccessKeyID "" then Some "AWS credentials not found"
      else None
  end.

(** The body of the loop over [b.Value.Citations]; [aws.ToString] of a nil
    pointer is the empty string. *)
Definition bedrock_citation (st : list Citation * gmap string bool)
    (citation : bedrock.Citation) : list Citation * gmap string bool :=
  match bedrock.Location citation with
  | Some (bedrock.LocationWeb Url Domain_) =>
      DeduplicateCitations st
        {| URL := default "" Url; Domain := default "" Domain_; Title := "" |}
  | _ => st
  end.

(** The body of the loop over [b.Value.Content]. *)
Definition bedrock_generated (text : string)
    (content : bedrock.CitationGeneratedContent) : string :=
  match content with
  | bedrock.GeneratedText Value => text +:+ Value
  | bedrock.GeneratedOther => text
  end.

(** The body of the loop over [msg.Value.Content]. *)
Definition bedrock_block (st : string * (list Citation * gmap string bool))
    (block : bedrock.ContentBlock)
    : string * (list Citation * gmap string bool) :=
  match block with
  | bedrock.MemberText Value => (st.1 +:+ Value, st.2)
  | bedrock.MemberCitationsContent content citations =>
      (foldl bedrock_generated st.1 content,
       foldl bedrock_citation st.2 citations)
  | bedrock.MemberOther => st
  end.

(** [func parseBedrockResponse(output *bedrockruntime.ConverseOutput,
    result *Result)] *)
Definition parseBedrockResponse (output : bedrock.ConverseOutput)
    (result : Result) : Result :=
  match bedrock.Output output with
  | bedrock.MemberMessage content =>
      let st := foldl bedrock_block ("", (Citations result, ∅)) content in
      set_Text (set_Citations result st.2.1) st.1
  | bedrock.OutputOther => set_Error result "unexpected output type"
  end.

(** How the exchange with Bedrock went. *)
Inductive nova_exchange :=
| NovaClientError (err : string)
    (** [createBedrockClient] failed to load the AWS configuration *)
| NovaConversed (call : Call bedrock.ConverseOutput) (elapsed : Z).
    (** what [client.Converse] returned *)

(** [func (p *NovaProvider) Query(ctx, query, verbose) Result] *)
Definition NovaProvider_Query (exchange : nova_exchange) : Result :=
  let result := zero_Result in
  match exchange with
  | NovaClientError err =>
      set_Error result ("failed to load AWS config: " +:+ err)
  | NovaConversed call elapsed =>
      let result := set_Duration result elapsed in
      match call with
      | CallFailed err => set_Error result ("API error: " +:+ err)
      | CallAnswered output =>
          let result :=
            match bedrock.Usage output with
            | Some usage =>
                set_Tokens result
                  (default 0 (bedrock.TokenUsage.InputTokens usage))
                  (default 0 (bedrock.TokenUsage.OutputTokens usage))
            | None => result
            end in
          parseBedrockResponse output result
      end
  end.

(** ** The four adapters as providers *)

(** Everything outside the program that the adapters observe in one run. *)
Record Services := mkServices {
  getenv : Getenv;
  aws : aws_credentials;
  regexp_FindAllStringSubmatch : string -> list (list string);
  json_Unmarshal : string -> Call grokResponse.t;
  (** the exchanges, by query *)
  claude_api : string -> Call anthropic.Message * Z;
  gemini_api : string -> gemini_exchange;
  grok_api : string -> grok_exchange;
  nova_api : string -> nova_exchange
}.

Definition ClaudeProvider (s : Services) : Provider :=
  {| Name := "claude";
     DisplayName := "Claude 4.5 Sonnet";
     Emoji := "🟣";
     CheckAuth := ClaudeProvider_CheckAuth (getenv s);
     Query := fun query _ =>
       ClaudeProvider_Query (claude_api s query).1 (claude_api s query).2 |}.

Definition GeminiProvider (s : Services) : Provider :=
  {| Name := "gemini";
     DisplayName := "Gemini 3 Pro";
     Emoji := "🔵";
     CheckAuth := GeminiProvider_CheckAuth (getenv s);
     Query := fun query _ => GeminiProvider_Query (gemini_api s query) |}.

Definition GrokProvider (s : Services) : Provider :=
  {| Name := "grok";
     DisplayName := "Grok 4 (xAI)";
     Emoji := "⚫";
     CheckAuth := GrokProvider_CheckAuth (getenv s);
     Query := fun query _ =>
       GrokProvider_Query (regexp_FindAllStringSubmatch s) (json_Unmarshal s)
         (grok_api s query) |}.

Definition NovaProvider (s : Services) : Provider :=
  {| Name := "nova";
     DisplayName := "Nova Premier (AWS)";
     Emoji := "🟠";
     CheckAuth := NovaProvider_CheckAuth (aws s);
     Query := fun query _ => NovaProvider_Query (nova_api s query) |}.

(** The registry once the [init] functions of the four adapter files have
    run (in the order of the file names). *)
Definition adapters (s : Services) : list Provider :=
  [ClaudeProvider s; GeminiProvider s; GrokProvider s; NovaProvider s].

Definition providers (s : Services) : gmap string Provider :=
  registered (adapters s).

(* ===================================================================== *)
(** * The earlier revision of main.go *)
(* ===================================================================== *)

(** The earlier main.go holds the four models in one file: it dispatches
    on the model name, parses the answers with the seen-set handled in
    line, and ranks the four responses. *)
Module LegacyMain.

(** Assignment to one field of a [ModelResponse]. *)
Definition set_Text (r : Legacy.ModelResponse) (text : string)
    : Legacy.ModelResponse :=
  {| Legacy.ModelName := Legacy.ModelName r; Legacy.Text := text;
     Legacy.Citations := Legacy.Citations r;
     Legacy.Duration := Legacy.Duration r; Legacy.Error := Legacy.Error r;
     Legacy.WordCount := Legacy.WordCount r; Legacy.Score := Legacy.Score r |}.

Definition set_Citations (r : Legacy.ModelResponse)
    (citations : list Citation) : Legacy.ModelResponse :=
  {| Legacy.ModelName := Legacy.ModelName r; Legacy.Text := Legacy.Text r;
     Legacy.Citations := citations;
     Legacy.Duration := Legacy.Duration r; Legacy.Error := Legacy.Error r;
     Legacy.WordCount := Legacy.WordCount r; Legacy.Score := Legacy.Score r |}.

Definition set_Error (r : Legacy.ModelResponse) (err : string)
    : Legacy.ModelResponse :=
  {| Legacy.ModelName := Legacy.ModelName r; Legacy.Text := Legacy.Text r;
     Legacy.Citations := Legacy.Citations r;
     Legacy.Duration := Legacy.Duration r; Legacy.Error := Some err;
     Legacy.WordCount := Legacy.WordCount r; Legacy.Score := Legacy.Score r |}.

(** [if !seenCitations[url] { seenCitations[url] = true;
    result.Citations = append(result.Citations, c) }] *)
Definition add_unseen (st : list Citation * gmap string bool) (c : Citation)
    : list Citation * gmap string bool :=
  if negb (seen_get st.2 (URL c))
  then (st.1 ++ [c], <[URL c := true]> st.2)
  else st.

(** [if url != "" && !seenCitations[url] { ... }] *)
Definition add_unseen_nonempty (st : list Citation * gmap string bool)
    (c : Citation) : list Citation * gmap string bool :=
  if negb (String.eqb (URL c) "") && negb (seen_get st.2 (URL c))
  then (st.1 ++ [c], <[URL c := true]> st.2)
  else st.

Definition claude_citation (st : list Citation * gmap string bool)
    (citation : anthropic.TextCitation.t) : list Citation * gmap string bool :=
  if String.eqb (anthropic.TextCitation.Type_ citation)
                "web_search_result_location"
     && negb (String.eqb (anthropic.TextCitation.URL citation) "")
  then add_unseen st
         {| URL := anthropic.TextCitation.URL citation;
            Domain := "";
            Title := anthropic.TextCitation.Title citation |}
  else st.

Definition claude_block (st : string * (list Citation * gmap string bool))
    (block : anthropic.ContentBlock)
    : string * (list Citation * gmap string bool) :=
  match block with
  | anthropic.TextBlock text citations =>
      (st.1 +:+ text, foldl claude_citation st.2 citations)
  | anthropic.ToolUseBlock _ => st
  | anthropic.OtherBlock => st
  end.

(** [func parseClaudeResponse(message *anthropic.Message,
    result *ModelResponse)] *)
Definition parseClaudeResponse (message : anthropic.Message)
    (result : Legacy.ModelResponse) : Legacy.ModelResponse :=
  let st := foldl claude_block ("", (Legacy.Citations result, ∅))
                  (anthropic.Content message) in
  set_Text (set_Citations result st.2.1) st.1.

Definition gemini_chunk (st : list Citation * gmap string bool)
    (chunk : genai.GroundingChunk) : list Citation * gmap string bool :=
  match genai.Web chunk with
  | Some web =>
      add_unseen_nonempty st
        {| URL := genai.GroundingChunkWeb.URI web;
           Domain := "";
           Title := genai.GroundingChunkWeb.Title web |}
  | None => st
  end.

(** [func parseGeminiResponse(resp *genai.GenerateContentResponse,
    result *ModelResponse)] *)
Definition parseGeminiResponse (resp : option genai.GenerateContentResponse)
    (result : Legacy.ModelResponse) : Legacy.ModelResponse :=
  match resp with
  | None => result
  | Some resp =>
      match genai.Candidates resp with
      | [] => result
      | candidate :: _ =>
          match genai.Content candidate with
          | None => result
          | Some parts =>
              let result := set_Text result (foldl gemini_part "" parts) in
              match genai.GroundingMetadata candidate with
              | None => result
              | Some chunks =>
                  set_Citations result
                    (foldl gemini_chunk (Legacy.Citations result, ∅) chunks).1
              end
          end
      end
  end.

Definition grok_match (st : list Citation * gmap string bool)
    (match_ : list string) : list Citation * gmap string bool :=
  if (3 <=? length match_)%nat
  then add_unseen st {| URL := nth 2 match_ ""; Domain := ""; Title := "" |}
  else st.

Definition grok_source (st : list Citation * gmap string bool)
    (src : grokResponse.Source.t) : list Citation * gmap string bool :=
  add_unseen_nonempty st
    {| URL := grokResponse.Source.URL src;
       Domain := "";
       Title := grokResponse.Source.Title src |}.

Definition grok_output (st : list Citation * gmap string bool)
    (out : grokResponse.Output.t) : list Citation * gmap string bool :=
  if String.eqb (grokResponse.Output.Type_ out) "web_search_call"
     && String.eqb (grokResponse.Action.Type_ (grokResponse.Output.Action out))
                   "search"
  then foldl grok_source st
             (grokResponse.Action.Sources (grokResponse.Output.Action out))
  else st.

(** [func parseGrokResponse(resp *GrokResponse, result *ModelResponse)];
    the earlier [GrokResponse] has no [Usage], which the parser does not
    read. *)
Definition parseGrokResponse
    (FindAllStringSubmatch : string -> list (list string))
    (resp : grokResponse.t) (result : Legacy.ModelResponse)
    : Legacy.ModelResponse :=
  let text :=
    if String.eqb (grokResponse.OutputText resp) ""
    then grok_output_text (grokResponse.Output resp)
    else grokResponse.OutputText resp in
  let result := set_Text result text in
  let st := foldl grok_match (Legacy.Citations result, ∅)
                  (FindAllStringSubmatch (Legacy.Text result)) in
  let st := foldl grok_output st (grokResponse.Output resp) in
  set_Citations result st.1.

Definition bedrock_citation (st : list Citation * gmap string bool)
    (citation : bedrock.Citation) : list Citation * gmap string bool :=
  match bedrock.Location citation with
  | Some (bedrock.LocationWeb Url Domain_) =>
      add_unseen_nonempty st
        {| URL := default "" Url; Domain := default "" Domain_; Title := "" |}
  | _ => st
  end.

Definition bedrock_block (st : string * (list Citation * gmap string bool))
    (block : bedrock.ContentBlock)
    : string * (list Citation * gmap string bool) :=
  match block with
  | bedrock.MemberText Value => (st.1 +:+ Value, st.2)
  | bedrock.MemberCitationsContent content citations =>
      (foldl bedrock_generated st.1 content,
       foldl bedrock_citation st.2 citations)
  | bedrock.MemberOther => st
  end.

(** [func parseBedrockResponse(output *bedrockruntime.ConverseOutput,
    result *ModelResponse)] *)
Definition parseBedrockResponse (output : bedrock.ConverseOutput)
    (result : Legacy.ModelResponse) : Legacy.ModelResponse :=
  match bedrock.Output output with
  | bedrock.MemberMessage content =>
      let st := foldl bedrock_block ("", (Legacy.Citations result, ∅))
                      content in
      set_Text (set_Citations result st.2.1) st.1
  | bedrock.OutputOther => set_Error result "unexpected output type"
  end.

(** [func getModelDisplayName(modelName string) string] *)
Definition getModelDisplayName (modelName : string) : string :=
  if String.eqb modelName "nova" then "Nova Premier (AWS)"
  else if String.eqb modelName "claude" then "Claude 4.5 Sonnet"
  else if String.eqb modelName "gemini" then "Gemini 3 Pro"
  else if String.eqb modelName "grok" then "Grok 4 (xAI)"
  else modelName.

(** [func getModelEmoji(modelName string) string] *)
Definition getModelEmoji (modelName : string) : string :=
  if String.eqb modelName "nova" then "🟠"
  else if String.eqb modelName "claude" then "🟣"
  else if String.eqb modelName "gemini" then "🔵"
  else if String.eqb modelName "grok" then "⚫"
  else "⚪".

Section Invoke.
  (** What the four [invoke...] functions return for a query. *)
Variables invokeNova invokeClaude invokeGemini invokeGrok
    : string -> Legacy.ModelResponse.

  (** [func invokeModel(ctx, modelName, query string) ModelResponse] *)
Definition invokeModel (modelName query : string) : Legacy.ModelResponse :=
    if String.eqb modelName "nova" then invokeNova query
    else if String.eqb modelName "claude" then invokeClaude query
    else if String.eqb modelName "gemini" then invokeGemini query
    else if String.eqb modelName "grok" then invokeGrok query
    else {| Legacy.ModelName := modelName; Legacy.Text := "";
            Legacy.Citations := []; Legacy.Duration := 0;
            Legacy.Error := Some "unknown model";
            Legacy.WordCount := 0; Legacy.Score := 0 |}.

  (** [models := []string{"nova", "claude", "gemini", "grok"}] *)
Definition models : list string := ["nova"; "claude"; "gemini"; "grok"].

  (** [responses[i].Score > responses[j].Score] *)
Definition by_score (x y : Legacy.ModelResponse) : bool :=
    Legacy.Score y <? Legacy.Score x.

  (** The goroutine body of [runAllModels]: what is sent on the channel. *)
Definition run_model (query modelName : string) : Legacy.ModelResponse :=
    Legacy.score_response (invokeModel modelName query).

  (** [func runAllModels(ctx, query)]: the responses in the order they
      are printed. *)
Definition runAllModels (xorshift_Next : Z -> Z) (sched : Scheduler)
      (query : string) : list Legacy.ModelResponse :=
    sort_Slice by_score xorshift_Next
      (run_model query <$> run_order sched models).

  (** [func runSingleModel(ctx, modelName, query)]: the response that is
      printed. *)
Definition runSingleModel (modelName query : string)
      : Legacy.ModelResponse :=
    Legacy.score_response (invokeModel modelName query).
End Invoke.

#[global] Instance ModelResponse_inhabited : Inhabited Legacy.ModelResponse :=
  populate
    {| Legacy.ModelName := ""; Legacy.Text := ""; Legacy.Citations := [];
       Legacy.Duration := 0; Legacy.Error := None;
       Legacy.WordCount := 0; Legacy.Score := 0 |}.

End LegacyMain.

(** Answers of the services for the examples. *)
Module SampleServices.

Definition link : string := "See [[1]](https://x.example/a)".

Definition grok_reply : grokResponse.t :=
  {| grokResponse.OutputText := "";
     grokResponse.Output :=
       [ {| grokResponse.Output.Type_ := "web_search_call";
            grokResponse.Output.Content := [];
            grokResponse.Output.Action :=
              {| grokResponse.Action.Type_ := "search";
                 grokResponse.Action.Query := "x";
                 grokResponse.Action.URL := "";
                 grokResponse.Action.Sources :=
                   [ {| grokResponse.Source.URL := "https://x.example/a";
                        grokResponse.Source.Title := "A" |};
                     {| grokResponse.Source.URL := "https://x.example/b";
                        grokResponse.Source.Title := "B" |} ] |} |};
         {| grokResponse.Output.Type_ := "message";
            grokResponse.Output.Content :=
              [ {| grokResponse.Content.Type_ := "output_text";
                   grokResponse.Content.Text := link |} ];
            grokResponse.Output.Action :=
              {| grokResponse.Action.Type_ := "";
                 grokResponse.Action.Query := "";
                 grokResponse.Action.URL := "";
                 grokResponse.Action.Sources := [] |} |} ];
     grokResponse.Usage :=
       Some {| grokResponse.Usage.InputTokens := 20;
               grokResponse.Usage.OutputTokens := 30 |} |}.

(** The matches of the link pattern in [link], and in no other text. *)
Definition find_links (text : string) : list (list string) :=
  if String.eqb text link
  then [ ["[[1]](https://x.example/a)"; "1"; "https://x.example/a"] ]
  else [].

Definition unmarshal (body : string) : Call grokResponse.t :=
  if String.eqb body "{}" then CallAnswered grok_reply
  else CallFailed "unexpected end of JSON input".

Definition claude_reply : anthropic.Message :=
  {| anthropic.Content :=
       [ anthropic.TextBlock "Paris. "
           [ {| anthropic.TextCitation.Type_ := "web_search_result_location";
                anthropic.TextCitation.URL := "https://a.example/1";
                anthropic.TextCitation.Title := "One" |};
             {| anthropic.TextCitation.Type_ := "char_location";
                anthropic.TextCitation.URL := "https://a.example/2";
                anthropic.TextCitation.Title := "Two" |} ];
         anthropic.ToolUseBlock "web_search";
         anthropic.TextBlock "It is the capital."
           [ {| anthropic.TextCitation.Type_ := "web_search_result_location";
                anthropic.TextCitation.URL := "https://a.example/1";
                anthropic.TextCitation.Title := "One again" |} ] ];
     anthropic.InputTokens := 12;
     anthropic.OutputTokens := 9 |}.

(** Keys for Claude and Grok only; Gemini's client cannot be made and
    Bedrock is not reachable. *)
Definition services : Services :=
  {| getenv := fun name =>
       if String.eqb name "ANTHROPIC_API_KEY" then "sk-1"
       else if String.eqb name "XAI_API_KEY" then "xai-1"
       else "";
     aws := AwsRetrieveError "no credentials";
     regexp_FindAllStringSubmatch := find_links;
     json_Unmarshal := unmarshal;
     claude_api := fun _ => (CallAnswered claude_reply, 1500000000);
     gemini_api := fun _ => GeminiClientError "api key required";
     grok_api := fun _ => GrokResponse 2500000000 200 "{}" None;
     nova_api := fun _ => NovaClientError "no region" |}.

End SampleServices.

(* ===================================================================== *)
(** * Specification vocabulary *)
(* ===================================================================== *)

(** What holds of the collection and the seen-set between two calls. *)
Definition dedup_inv (st : list Citation * gmap string bool) : Prop :=
  NoDup (URL <$> st.1)
  /\ (forall c, c ∈ st.1 -> URL c <> "")
  /\ (forall c, c ∈ st.1 -> seen_get st.2 (URL c) = true).


(** The three ways in which the scoring capability fails. *)
Inductive scoring_fails (w : World) : Prop :=
| scoring_unreachable err :
    messages_New w = ApiFailed err -> scoring_fails w
| scoring_malformed content err :
    messages_New w = ApiMessage content ->
    parse_tool_use content = UnmarshalError err ->
    scoring_fails w
| scoring_empty content toolInput :
    messages_New w = ApiMessage content ->
    parse_tool_use content = UnmarshalOk toolInput ->
    Evaluations toolInput = [] ->
    scoring_fails w.

(** The scoring capability answered with at least one evaluation. *)
Definition scoring_gives (w : World) (evals : list judgeEvaluation) : Prop :=
  exists content,
    messages_New w = ApiMessage content
    /\ parse_tool_use content = UnmarshalOk {| Evaluations := evals |}
    /\ evals <> [].

(** [healthyCount]: how many checks of a list are healthy. *)
Definition healthy_count (checks : list CitationCheck) : Z :=
  len (filter (fun c => CitationCheck.Healthy c = true) checks).

(** The largest number of elements a slice of the Go heap can hold: the
    heap spans 48 bits of address space. *)
Definition max_slice_len : Z := 2 ^ 48.

(** The score as a function of the two counts. *)
Definition score_from (healthy total : Z) : Z :=
  let pct := F64.div (F64.of_int healthy) (F64.of_int total) in
  let score := F64.to_int (F64.mul pct (F64.of_int 9)) + 1 in
  if 10 <? score then 10 else score.


(** The number of whitespace-delimited tokens of a text. *)
Definition word_count (text : string) : Z := len (GoStrings.Fields text).

(** The result record that a response of the earlier revision stands for. *)
Definition as_result (resp : Legacy.ModelResponse) : Result :=
  {| Text := Legacy.Text resp;
     Citations := Legacy.Citations resp;
     Duration := Legacy.Duration resp;
     Tokens := {| Input := 0; Output := 0 |};
     Error := Legacy.Error resp |}.

(** The names of the providers with a usable result. *)
Definition usable_names (results : list ModelResult) : list string :=
  (fun mr => Name (ModelResult.Provider mr))
    <$> filter (fun mr => usable mr = true) results.

(** How a judged result relates to the result it comes from: it has the
    same provider and the same underlying result; if that is usable it
    carries a score, and otherwise it is the input result, untouched. *)
Definition judged_from (mr mr' : ModelResult) : Prop :=
  ModelResult.Provider mr' = ModelResult.Provider mr
  /\ ModelResult.Result mr' = ModelResult.Result mr
  /\ if usable mr then is_Some (ModelResult.JudgeScore mr') else mr' = mr.

(** The composite score in exact arithmetic:
    0.25·Quality + 0.15·LinkHealth + 0.20·Recency + 0.20·Significance
    + 0.20·Impact. *)
Definition exact_weighted (quality lh recency significance impact : Z) : Q :=
  (wQuality * inject_Z quality + wLinkHealth * inject_Z lh
   + wRecency * inject_Z recency + wSignificance * inject_Z significance
   + wImpact * inject_Z impact)%Q.

(** The unit roundoff of [float64], [2^-53]. *)
Definition unit_roundoff : Q := 1 # 9007199254740992.

(** A list is sorted by a key, highest first. *)
Definition sorted_desc {A} (key : A -> Z) (l : list A) : Prop :=
  StronglySorted (fun x y => key y <= key x) l.

(** Elements with equal keys come out in the order in which they came in. *)
Definition ties_in_order {A} (key : A -> Z) (arrived out : list A) : Prop :=
  forall s, filter (fun x => key x = s) out = filter (fun x => key x = s) arrived.

(** The results of a run of [runAllModels], in their order of arrival. *)
Definition arrived (sched : Scheduler) (providers : gmap string Provider)
    (verbose : bool) (query : string) : list Orchestrator.ModelResult :=
  Orchestrator.collect sched (Orchestrator.available providers) query verbose.

(** ** Vocabulary for sorting in place *)

(** The key of the element at index [i]. *)
Definition key_at {A} `{!Inhabited A} (key : A -> Z) (d : list A) (i : nat) : Z :=
  key (d !!! i).

(** The elements at the indices [a <= i < b] are sorted by key, highest
    first. *)
Definition sorted_range {A} `{!Inhabited A} (key : A -> Z) (d : list A)
    (a b : nat) : Prop :=
  forall i j, (a <= i)%nat -> (i < j)%nat -> (j < b)%nat ->
    key_at key d j <= key_at key d i.

(** [d'] comes from [d] by exchanging elements at indices within
    [a <= i < b]. *)
Inductive range_perm {A} (a b : nat) : list A -> list A -> Prop :=
| range_perm_refl d : range_perm a b d d
| range_perm_swap d i j d' :
    (a <= i < b)%nat -> (a <= j < b)%nat -> (b <= length d)%nat ->
    range_perm a b (Swap d i j) d' ->
    range_perm a b d d'.

(** No key within [a <= i < b] exceeds the key just before the range. *)
Definition below_pred {A} `{!Inhabited A} (key : A -> Z) (d : list A)
    (a b : nat) : Prop :=
  (0 < a)%nat ->
  forall i, (a <= i < b)%nat -> key_at key d i <= key_at key d (a - 1).

(** ** Invariants of the loops of [sort.Slice] *)

(** Between two rounds of the loop of [partition]: the pivot is at [a];
    the keys left of [i] exceed the pivot's, those right of [j] do not. *)
Definition split_at {A} `{!Inhabited A} (key : A -> Z) (d : list A)
    (a b i j : nat) (P : Z) : Prop :=
  (b <= length d)%nat /\ key_at key d a = P
  /\ (a < i)%nat /\ (j < b)%nat /\ (i <= j + 1)%nat
  /\ (forall k, (a < k < i)%nat -> P < key_at key d k)
  /\ (forall k, (j < k < b)%nat -> key_at key d k <= P).

(** As [split_at], for [partitionEqual]: the keys left of [i] are at
    least the pivot's, those right of [j] are smaller. *)
Definition split_equal {A} `{!Inhabited A} (key : A -> Z) (d : list A)
    (a b i j : nat) (P : Z) : Prop :=
  (b <= length d)%nat /\ key_at key d a = P
  /\ (a < i)%nat /\ (j < b)%nat /\ (i <= j + 1)%nat
  /\ (forall k, (a < k < i)%nat -> P <= key_at key d k)
  /\ (forall k, (j < k < b)%nat -> key_at key d k < P).

(** [c] is a child of [p] in the implicit binary tree of [heapSort]. *)
Definition child_of (p c : nat) : Prop :=
  c = (2 * p + 1)%nat \/ c = (2 * p + 2)%nat.

(** Below [first], the nodes from [lo] on, other than [skip], carry a key
    that is at most the keys of their children before [hi]. *)
Definition heap_but {A} `{!Inhabited A} (key : A -> Z) (d : list A)
    (first lo hi skip : nat) : Prop :=
  forall p c, (lo <= p)%nat -> p <> skip -> (c < hi)%nat -> child_of p c ->
    key_at key d (first + p) <= key_at key d (first + c).

Definition heap {A} `{!Inhabited A} (key : A -> Z) (d : list A)
    (first lo hi : nat) : Prop :=
  forall p c, (lo <= p)%nat -> (c < hi)%nat -> child_of p c ->
    key_at key d (first + p) <= key_at key d (first + c).

(* ===================================================================== *)
(** * Vocabulary for the further properties *)
(* ===================================================================== *)

(** Every provider of the registry is stored under its own name. *)
Definition keyed_by_name (providers : gmap string Provider) : Prop :=
  forall name p, providers !! name = Some p -> Name p = name.

(** The price list in exact decimals: USD per million input and output
    tokens. *)
Definition price_list : list (string * (Q * Q)) :=
  [ ("nova", (2.50, 12.50)%Q); ("claude", (3.00, 15.00)%Q);
    ("gemini", (2.00, 12.00)%Q); ("grok", (3.00, 15.00)%Q) ].

(** The cost of the tokens of a result in exact arithmetic. *)
Definition exact_token_cost (r : Result) (price : Q * Q) : Q :=
  ((inject_Z (Input (Tokens r)) * price.1
    + inject_Z (Output (Tokens r)) * price.2) / 1000000)%Q.

#[global] Instance Qeq_decision (x y : Q) : Decision (x == y)%Q := Qeq_dec x y.

(** A list is sorted by a [float64] key, highest first. *)
Definition ranked_desc {A} (key : A -> Q) (l : list A) : Prop :=
  StronglySorted (fun x y => (key y <= key x)%Q) l.

(** Elements of equal [float64] key are in [after] in the order they have
    in [before]. *)
Definition ties_kept {A} (key : A -> Q) (before after : list A) : Prop :=
  forall s,
    filter (fun x => (key x == s)%Q) after
    = filter (fun x => (key x == s)%Q) before.

(** An evaluation without a negative number. *)
Definition nonneg_evaluation (eval : judgeEvaluation) : Prop :=
  0 <= judgeEvaluation.Quality eval
  /\ 0 <= judgeEvaluation.Recency eval
  /\ 0 <= judgeEvaluation.Significance eval
  /\ 0 <= judgeEvaluation.Impact eval.

(** The seen-set holds exactly the URLs of the collection. *)
Definition seen_tracks (st : list Citation * gmap string bool) : Prop :=
  forall u, seen_get st.2 u = true <-> u ∈ URL <$> st.1.

(** The concatenation of a list of strings. *)
Definition join (l : list string) : string := foldr String.append "" l.

(** ** What the answers of the four services hold *)

(** The web search results that a Claude message cites, in the order of
    the message, and the texts of its text blocks. *)
Definition claude_candidates (message : anthropic.Message) : list Citation :=
  flat_map
    (fun block =>
       match block with
       | anthropic.TextBlock _ citations =>
           (fun citation =>
              {| URL := anthropic.TextCitation.URL citation;
                 Domain := "";
                 Title := anthropic.TextCitation.Title citation |})
             <$> filter (fun citation =>
                           anthropic.TextCitation.Type_ citation
                           = "web_search_result_location")
                        citations
       | _ => []
       end)
    (anthropic.Content message).

Definition claude_texts (message : anthropic.Message) : list string :=
  flat_map
    (fun block =>
       match block with
       | anthropic.TextBlock text _ => [text]
       | _ => []
       end)
    (anthropic.Content message).

(** The web sources of the grounding chunks of a Gemini candidate. *)
Definition gemini_candidates (chunks : list genai.GroundingChunk)
    : list Citation :=
  omap (fun chunk =>
          (fun web =>
             {| URL := genai.GroundingChunkWeb.URI web;
                Domain := "";
                Title := genai.GroundingChunkWeb.Title web |})
            <$> genai.Web chunk)
       chunks.

(** The sources of a Grok response: the links found in the text, then the
    sources of the search actions. *)
Definition grok_candidates (matches : list (list string))
    (resp : grokResponse.t) : list Citation :=
  ((fun match_ => {| URL := nth 2 match_ ""; Domain := ""; Title := "" |})
     <$> filter (fun match_ => (3 <= length match_)%nat) matches)
  ++ flat_map
       (fun out =>
          if String.eqb (grokResponse.Output.Type_ out) "web_search_call"
             && String.eqb
                  (grokResponse.Action.Type_ (grokResponse.Output.Action out))
                  "search"
          then (fun src =>
                  {| URL := grokResponse.Source.URL src;
                     Domain := "";
                     Title := grokResponse.Source.Title src |})
                 <$> grokResponse.Action.Sources (grokResponse.Output.Action out)
          else [])
       (grokResponse.Output resp).

(** The web locations that a Bedrock message cites, and its texts. *)
Definition bedrock_candidates (content : list bedrock.ContentBlock)
    : list Citation :=
  flat_map
    (fun block =>
       match block with
       | bedrock.MemberCitationsContent _ citations =>
           omap (fun citation =>
                   match bedrock.Location citation with
                   | Some (bedrock.LocationWeb Url Domain_) =>
                       Some {| URL := default "" Url;
                               Domain := default "" Domain_;
                               Title := "" |}
                   | _ => None
                   end)
                citations
       | _ => []
       end)
    content.

Definition bedrock_texts (content : list bedrock.ContentBlock) : list string :=
  flat_map
    (fun block =>
       match block with
       | bedrock.MemberText Value => [Value]
       | bedrock.MemberCitationsContent generated _ =>
           omap (fun g =>
                   match g with
                   | bedrock.GeneratedText Value => Some Value
                   | bedrock.GeneratedOther => None
                   end)
                generated
       | bedrock.MemberOther => []
       end)
    content.

(** A result with an error carries neither text nor citations. *)
Definition empty_on_error (r : Result) : Prop :=
  Error r <> None -> Text r = "" /\ Citations r = [].

(** The text that a Grok response gives: [output_text], or else the first
    text found in the output blocks. *)
Definition grok_text (resp : grokResponse.t) : string :=
  if String.eqb (grokResponse.OutputText resp) ""
  then grok_output_text (grokResponse.Output resp)
  else grokResponse.OutputText resp.


(* ===================================================================== *)
(** * Properties *)
(* ===================================================================== *)

(** ** Deduplicator *)

Lemma seen_get_insert seen k k' :
  seen_get (<[k := true]> seen) k' = (String.eqb k k' || seen_get seen k').
Proof.
  unfold seen_get. destruct (String.eqb_spec k k') as [->|Hne].
  - by rewrite lookup_insert_eq.
  - by rewrite lookup_insert_ne.
Qed.

Lemma DeduplicateCitations_noop st c :
  URL c = "" \/ seen_get st.2 (URL c) = true ->
  DeduplicateCitations st c = st.
Proof.
  destruct st as [citations seen]; simpl. intros [H|H].
  - rewrite H. reflexivity.
  - rewrite H. by rewrite andb_false_r.
Qed.

Lemma DeduplicateCitations_new st c :
  URL c <> "" -> seen_get st.2 (URL c) = false ->
  DeduplicateCitations st c = (st.1 ++ [c], <[URL c := true]> st.2).
Proof.
  destruct st as [citations seen]; simpl. intros Hne Hseen.
  rewrite Hseen. apply String.eqb_neq in Hne. by rewrite Hne.
Qed.

Lemma dedup_inv_step st c :
  dedup_inv st -> dedup_inv (DeduplicateCitations st c).
Proof.
  intros (Hnd & Hne & Hseen).
  destruct (String.eqb_spec (URL c) "") as [Hempty|Hurl].
  { rewrite DeduplicateCitations_noop by auto. done. }
  destruct (seen_get st.2 (URL c)) eqn:Hs.
  { rewrite DeduplicateCitations_noop by auto. done. }
  rewrite DeduplicateCitations_new by done.
  split; [|split]; simpl.
  - rewrite fmap_app. apply NoDup_app. split; [done|]. split.
    + intros u Hu Hin. apply list_elem_of_singleton in Hin. subst u.
      apply list_elem_of_fmap in Hu as (c' & Hc' & Hin).
      rewrite Hc', (Hseen c' Hin) in Hs. discriminate.
    + apply NoDup_singleton.
  - intros c' Hin. apply elem_of_app in Hin as [Hin|Hin]; [by apply Hne|].
    apply list_elem_of_singleton in Hin. by subst c'.
  - intros c' Hin. rewrite seen_get_insert.
    apply elem_of_app in Hin as [Hin|Hin].
    + rewrite (Hseen c' Hin). apply orb_true_r.
    + apply list_elem_of_singleton in Hin. subst c'.
      by rewrite String.eqb_refl.
Qed.

Lemma dedup_inv_foldl cands st :
  dedup_inv st -> dedup_inv (foldl DeduplicateCitations st cands).
Proof.
  revert st. induction cands as [|c cands IH]; intros st Hst; simpl; [done|].
  apply IH. by apply dedup_inv_step.
Qed.

(** C9. Fed any sequence of candidates from an empty collection and an
    empty seen-set, the deduplicator leaves a collection in which no URL
    occurs twice and no URL is empty; and in any state a candidate whose URL
    is empty or already seen changes neither the collection nor the
    seen-set. *)
Theorem dedup_no_duplicates (cands : list Citation) :
  NoDup (URL <$> (dedup_all cands).1)
  /\ (forall c, c ∈ (dedup_all cands).1 -> URL c <> "")
  /\ (forall st c,
        URL c = "" \/ seen_get st.2 (URL c) = true ->
        DeduplicateCitations st c = st).
Proof.
  assert (Hinv : dedup_inv (dedup_all cands)).
  { apply dedup_inv_foldl. split; [|split]; simpl.
    - constructor.
    - intros c Hc. by apply elem_of_nil in Hc.
    - intros c Hc. by apply elem_of_nil in Hc. }
  destruct Hinv as (Hnd & Hne & _).
  split; [done|]. split; [done|].
  intros st c. apply DeduplicateCitations_noop.
Qed.

(** ** float64 arithmetic *)

Module F64Facts.
Import F64.
#[local] Open Scope Q_scope.

Lemma pow2_pos e : 0 < pow2 e.
Proof. unfold pow2. apply Qpower_0_lt. reflexivity. Qed.

Lemma pow2_add a b : pow2 (a + b) == pow2 a * pow2 b.
Proof. unfold pow2. apply Qpower_plus. discriminate. Qed.

Lemma pow2_sub a b : pow2 (a - b) == pow2 a / pow2 b.
Proof. unfold pow2. apply Qpower_minus. discriminate. Qed.

Lemma pow2_Z n : (0 <= n)%Z -> pow2 n == inject_Z (2 ^ n).
Proof. intros H. unfold pow2. symmetry. by apply (Zpower_Qpower 2 n). Qed.

Lemma pow2_le a b : (a <= b)%Z -> pow2 a <= pow2 b.
Proof.
  intros H. unfold pow2. apply Qpower_le_compat_l; [done|]. discriminate.
Qed.

Lemma pow2_lt a b : (a < b)%Z -> pow2 a < pow2 b.
Proof.
  intros H. unfold pow2. apply Qpower_lt_compat_l; [done|]. reflexivity.
Qed.

Lemma pow2_le_inv a b : pow2 a < pow2 (b + 1) -> (a <= b)%Z.
Proof.
  intros H. destruct (Z_le_gt_dec a b) as [|Hgt]; [done|].
  exfalso. assert (pow2 (b + 1) <= pow2 a) by (apply pow2_le; lia).
  apply (Qlt_irrefl (pow2 a)). eapply Qlt_le_trans; eauto.
Qed.

Lemma rne_cases y :
  let t := Qfloor (y + (1 # 2)) in
  (rne y = t /\ (inject_Z t == y + (1 # 2) -> Z.odd t = false))
  \/ (rne y = (t - 1)%Z /\ inject_Z t == y + (1 # 2) /\ Z.odd t = true).
Proof.
  intros t. unfold rne. fold t.
  destruct (Qeq_bool (inject_Z t) (y + (1 # 2))) eqn:Heq; simpl.
  - apply Qeq_bool_iff in Heq. destruct (Z.odd t) eqn:Hodd.
    + right. done.
    + left. done.
  - left. split; [done|]. intros H. apply Qeq_bool_iff in H. congruence.
Qed.

Lemma rne_mono y y' : y <= y' -> (rne y <= rne y')%Z.
Proof.
  intros Hle.
  assert (Ht : (Qfloor (y + (1 # 2)) <= Qfloor (y' + (1 # 2)))%Z).
  { apply Qfloor_resp_le. lra. }
  pose proof (Qfloor_le (y + (1 # 2))) as Hfl.
  destruct (rne_cases y) as [[-> Hy]|(-> & Hy & Hoy)];
    destruct (rne_cases y') as [[-> Hy']|(-> & Hy' & Hoy')]; try lia.
  destruct (Z.eq_dec (Qfloor (y + (1 # 2))) (Qfloor (y' + (1 # 2)))) as [E|E];
    [|lia].
  exfalso. rewrite <- E in Hy', Hoy'.
  assert (Htie : inject_Z (Qfloor (y + (1 # 2))) == y + (1 # 2)) by lra.
  rewrite (Hy Htie) in Hoy'. discriminate.
Qed.

Lemma rne_Z k : rne (inject_Z k) = k.
Proof.
  pose proof (Qfloor_le (inject_Z k + (1 # 2))) as Hlo.
  pose proof (Qlt_floor (inject_Z k + (1 # 2))) as Hhi.
  assert (Ht : Qfloor (inject_Z k + (1 # 2)) = k).
  { assert (inject_Z (Qfloor (inject_Z k + (1 # 2))) < inject_Z (k + 1)).
    { rewrite inject_Z_plus. change (inject_Z 1) with 1.
      eapply Qle_lt_trans; [apply Hlo|]. lra. }
    assert (inject_Z (k - 1) < inject_Z (Qfloor (inject_Z k + (1 # 2)) )).
    { rewrite inject_Z_plus in Hhi. unfold Zminus.
      rewrite inject_Z_plus, inject_Z_opp.
      change (inject_Z 1) with 1 in *. lra. }
    rewrite <- Zlt_Qlt in *. lia. }
  destruct (rne_cases (inject_Z k)) as [[-> _]|(_ & Htie & _)]; [done|].
  exfalso. rewrite Ht in Htie. lra.
Qed.

Lemma rne_compat y y' : y == y' -> rne y = rne y'.
Proof.
  intros H. apply Z.le_antisymm; apply rne_mono; lra.
Qed.

Lemma rne_ge k y : inject_Z k <= y -> (k <= rne y)%Z.
Proof. intros H. rewrite <- (rne_Z k). by apply rne_mono. Qed.

Lemma rne_le k y : y <= inject_Z k -> (rne y <= k)%Z.
Proof. intros H. rewrite <- (rne_Z k). by apply rne_mono. Qed.

Lemma Zlog2_pow2 n :
  (0 < n)%Z -> pow2 (Z.log2 n) <= inject_Z n /\ inject_Z n < pow2 (Z.log2 n + 1).
Proof.
  intros Hn. pose proof (Z.log2_spec n Hn) as [Hlo Hhi].
  pose proof (Z.log2_nonneg n) as H0.
  rewrite !pow2_Z by lia. rewrite <- Zle_Qle, <- Zlt_Qlt.
  split; [done|]. by rewrite <- Z.add_1_r in Hhi.
Qed.

Lemma ilog2_spec x : 0 < x -> pow2 (ilog2 x) <= x /\ x < pow2 (ilog2 x + 1).
Proof.
  intros Hx. unfold ilog2.
  destruct x as [n d]. cbn [Qnum Qden].
  assert (Hn : (0 < n)%Z).
  { unfold Qlt in Hx. simpl in Hx. lia. }
  destruct (Zlog2_pow2 n Hn) as [Hn1 Hn2].
  destruct (Zlog2_pow2 (Zpos d) eq_refl) as [Hd1 Hd2].
  set (ln := Z.log2 n) in *. set (ld := Z.log2 (Zpos d)) in *.
  assert (Hx' : (n # d) * inject_Z (Zpos d) == inject_Z n).
  { rewrite (Qmake_Qdiv n d). field. discriminate. }
  pose proof (pow2_pos ld) as Hpd. pose proof (pow2_pos (ln - ld)) as Hpk.
  assert (Hk : pow2 (ln - ld) * pow2 ld == pow2 ln).
  { rewrite <- pow2_add. replace (ln - ld + ld)%Z with ln by lia. reflexivity. }
  assert (Hk1 : pow2 (ln - ld + 1) == 2 * pow2 (ln - ld)).
  { rewrite pow2_add. change (pow2 1) with 2. ring. }
  assert (Hk0 : 2 * pow2 (ln - ld - 1) == pow2 (ln - ld)).
  { replace (ln - ld)%Z with ((ln - ld - 1) + 1)%Z at 2 by lia.
    rewrite pow2_add. change (pow2 1) with 2. ring. }
  assert (Hd3 : pow2 (ld + 1) == 2 * pow2 ld).
  { rewrite pow2_add. change (pow2 1) with 2. ring. }
  assert (Hn3 : pow2 (ln + 1) == 2 * pow2 ln).
  { rewrite pow2_add. change (pow2 1) with 2. ring. }
  assert (Hhi : (n # d) < pow2 (ln - ld + 1)).
  { rewrite Hk1. apply Qnot_le_lt. intros Hc.
    assert (2 * pow2 (ln - ld) * pow2 ld <= (n # d) * inject_Z (Zpos d)).
    { apply Qle_trans with ((n # d) * pow2 ld).
      - apply Qmult_le_compat_r; [done|]. by apply Qlt_le_weak.
      - rewrite !(Qmult_comm (n # d)). apply Qmult_le_compat_r; [done|].
        by apply Qlt_le_weak. }
    lra. }
  assert (Hlo : pow2 (ln - ld - 1) < (n # d)).
  { apply Qnot_le_lt. intros Hc.
    assert ((n # d) * inject_Z (Zpos d) < pow2 (ln - ld - 1) * pow2 (ld + 1)).
    { apply Qlt_le_trans with ((n # d) * pow2 (ld + 1)).
      - by apply Qmult_lt_l.
      - apply Qmult_le_compat_r; [done|]. apply Qlt_le_weak, pow2_pos. }
    rewrite Hd3 in H.
    assert (pow2 (ln - ld - 1) * (2 * pow2 ld) == pow2 ln).
    { rewrite <- Hk, <- Hk0. ring. }
    lra. }
  destruct (Qle_bool (pow2 (ln - ld)) (n # d)) eqn:Hb.
  - apply Qle_bool_iff in Hb. done.
  - assert (Hlt : (n # d) < pow2 (ln - ld)).
    { apply Qnot_le_lt. intros Hc. apply Qle_bool_iff in Hc. congruence. }
    replace (ln - ld - 1 + 1)%Z with (ln - ld)%Z by lia.
    split; [by apply Qlt_le_weak|done].
Qed.

Lemma ilog2_unique x k : pow2 k <= x -> x < pow2 (k + 1) -> ilog2 x = k.
Proof.
  intros Hlo Hhi.
  assert (Hx : 0 < x) by (eapply Qlt_le_trans; [apply (pow2_pos k)|done]).
  destruct (ilog2_spec x Hx) as [Hlo' Hhi'].
  apply Z.le_antisymm.
  - apply pow2_le_inv. eapply Qle_lt_trans; eauto.
  - apply pow2_le_inv. eapply Qle_lt_trans; eauto.
Qed.

Lemma ilog2_mono x y : 0 < x -> x <= y -> (ilog2 x <= ilog2 y)%Z.
Proof.
  intros Hx Hxy.
  assert (Hy : 0 < y) by (eapply Qlt_le_trans; eauto).
  destruct (ilog2_spec x Hx) as [Hlo _].
  destruct (ilog2_spec y Hy) as [_ Hhi].
  apply pow2_le_inv. eapply Qle_lt_trans; [apply Hlo|].
  eapply Qle_lt_trans; eauto.
Qed.

(** The significand before rounding lies in [[2^52, 2^53)]. *)
Lemma scaled_bounds x :
  0 < x ->
  pow2 52 <= x / pow2 (ilog2 x - 52) /\ x / pow2 (ilog2 x - 52) < pow2 53.
Proof.
  intros Hx. destruct (ilog2_spec x Hx) as [Hlo Hhi].
  pose proof (pow2_pos (ilog2 x - 52)) as He.
  assert (H52 : pow2 52 * pow2 (ilog2 x - 52) == pow2 (ilog2 x)).
  { rewrite <- pow2_add. by replace (52 + (ilog2 x - 52))%Z with (ilog2 x) by lia. }
  assert (H53 : pow2 53 * pow2 (ilog2 x - 52) == pow2 (ilog2 x + 1)).
  { rewrite <- pow2_add.
    by replace (53 + (ilog2 x - 52))%Z with (ilog2 x + 1)%Z by lia. }
  split.
  - apply Qle_shift_div_l; [done|]. by rewrite H52.
  - apply Qlt_shift_div_r; [done|]. by rewrite H53.
Qed.

Lemma round_pos_bounds x :
  0 < x ->
  pow2 (ilog2 x) <= round_pos x /\ round_pos x <= pow2 (ilog2 x + 1).
Proof.
  intros Hx. unfold round_pos.
  destruct (scaled_bounds x Hx) as [Hlo Hhi].
  pose proof (pow2_pos (ilog2 x - 52)) as He.
  set (y := x / pow2 (ilog2 x - 52)) in *.
  assert (H1 : (2 ^ 52 <= rne y)%Z).
  { apply rne_ge. by rewrite <- pow2_Z. }
  assert (H2 : (rne y <= 2 ^ 53)%Z).
  { apply rne_le. rewrite <- pow2_Z by done. by apply Qlt_le_weak. }
  rewrite Zle_Qle in H1, H2. rewrite <- !pow2_Z in H1, H2 by done.
  split.
  - replace (ilog2 x) with (52 + (ilog2 x - 52))%Z at 1 by lia.
    rewrite pow2_add. apply Qmult_le_compat_r; [done|by apply Qlt_le_weak].
  - replace (ilog2 x + 1)%Z with (53 + (ilog2 x - 52))%Z by lia.
    rewrite pow2_add. apply Qmult_le_compat_r; [done|by apply Qlt_le_weak].
Qed.

Lemma round_pos_pos x : 0 < x -> 0 < round_pos x.
Proof.
  intros Hx. destruct (round_pos_bounds x Hx) as [H _].
  eapply Qlt_le_trans; [apply pow2_pos|apply H].
Qed.

Lemma round_pos_mono x x' : 0 < x -> x <= x' -> round_pos x <= round_pos x'.
Proof.
  intros Hx Hle.
  assert (Hx' : 0 < x') by (eapply Qlt_le_trans; eauto).
  pose proof (ilog2_mono x x' Hx Hle) as Hlog.
  destruct (Z.eq_dec (ilog2 x) (ilog2 x')) as [E|E].
  - unfold round_pos. rewrite E.
    pose proof (pow2_pos (ilog2 x' - 52)) as He.
    apply Qmult_le_compat_r; [|by apply Qlt_le_weak].
    rewrite <- Zle_Qle. apply rne_mono.
    apply Qmult_le_compat_r; [done|]. apply Qinv_le_0_compat.
    by apply Qlt_le_weak.
  - destruct (round_pos_bounds x Hx) as [_ H1].
    destruct (round_pos_bounds x' Hx') as [H2 _].
    eapply Qle_trans; [apply H1|]. eapply Qle_trans; [|apply H2].
    apply pow2_le. lia.
Qed.

Lemma round_canon_mono x x' : x <= x' -> round_canon x <= round_canon x'.
Proof.
  intros Hle. unfold round_canon.
  destruct (Qcompare_spec x 0) as [Cx|Cx|Cx];
    destruct (Qcompare_spec x' 0) as [Cx'|Cx'|Cx']; try lra.
  - apply Qlt_le_weak. by apply round_pos_pos.
  - assert (0 < round_pos (- x)) by (apply round_pos_pos; lra). lra.
  - assert (round_pos (- x') <= round_pos (- x)).
    { apply round_pos_mono; lra. }
    lra.
  - assert (0 < round_pos (- x)) by (apply round_pos_pos; lra).
    assert (0 < round_pos x') by (by apply round_pos_pos). lra.
  - by apply round_pos_mono.
Qed.

(** Rounding is monotone. *)
Lemma round_mono x x' : x <= x' -> round x <= round x'.
Proof.
  intros Hle. unfold round.
  pose proof (Qred_correct (round_canon (Qred x))) as H1.
  pose proof (Qred_correct (round_canon (Qred x'))) as H2.
  assert (H3 : round_canon (Qred x) <= round_canon (Qred x')).
  { apply round_canon_mono.
    pose proof (Qred_correct x). pose proof (Qred_correct x'). lra. }
  lra.
Qed.

(** Rounding depends on the value only. *)
Lemma round_eq x x' : x == x' -> round x = round x'.
Proof.
  intros H. unfold round. by rewrite (Qred_complete x x' H).
Qed.

Lemma Qred_inject_Z z : Qred (inject_Z z) = inject_Z z.
Proof.
  unfold inject_Z, Qred.
  pose proof (Z.ggcd_gcd z 1) as Hg. pose proof (Z.ggcd_correct_divisors z 1) as Hd.
  destruct (Z.ggcd z 1) as [g [a b]]. simpl in *.
  rewrite Z.gcd_1_r in Hg. subst g. destruct Hd as [Ha Hb].
  replace a with z by lia. replace b with 1%Z by lia. reflexivity.
Qed.

(** Integers of at most 53 bits are represented exactly. *)
Lemma round_Z z : (Z.abs z <= 2 ^ 53)%Z -> round (inject_Z z) = inject_Z z.
Proof.
  intros Hz.
  assert (Hpos : forall n, (0 < n <= 2 ^ 53)%Z -> round_pos (inject_Z n) == inject_Z n).
  { intros n [Hn0 Hn].
    destruct (Zlog2_pow2 n Hn0) as [Hlo Hhi].
    assert (Hl : ilog2 (inject_Z n) = Z.log2 n) by (by apply ilog2_unique).
    assert (Hl53 : (Z.log2 n <= 53)%Z).
    { destruct (Z.eq_dec n (2 ^ 53)%Z) as [->|Hne']; [reflexivity|].
      assert (Z.log2 n < 53)%Z; [|lia].
      apply Z.log2_lt_pow2; lia. }
    pose proof (Z.log2_nonneg n) as H0.
    unfold round_pos. rewrite Hl.
    pose proof (pow2_pos (Z.log2 n - 52)) as He.
    destruct (Z_le_gt_dec (Z.log2 n) 52%Z) as [Hsmall|Hbig].
    - assert (Hy : inject_Z n / pow2 (Z.log2 n - 52)
                   == inject_Z (n * 2 ^ (52 - Z.log2 n))).
      { rewrite inject_Z_mult, <- pow2_Z by lia.
        replace (52 - Z.log2 n)%Z with (- (Z.log2 n - 52))%Z by lia.
        unfold pow2 at 2. rewrite Qpower_opp. reflexivity. }
      rewrite (rne_compat _ _ Hy), rne_Z.
      rewrite inject_Z_mult, <- pow2_Z by lia.
      rewrite <- Qmult_assoc, <- pow2_add.
      replace (52 - Z.log2 n + (Z.log2 n - 52))%Z with 0%Z by lia.
      change (pow2 0) with 1. ring.
    - assert (n = 2 ^ 53)%Z.
      { assert (Z.log2 n = 53)%Z by lia.
        pose proof (Z.log2_spec n Hn0) as [Hs _]. rewrite H in Hs. lia. }
      subst n. vm_compute. reflexivity. }
  unfold round. rewrite Qred_inject_Z.
  rewrite <- (Qred_inject_Z z) at 2. apply Qred_complete.
  unfold round_canon.
  destruct (Qcompare_spec (inject_Z z) 0) as [C|C|C].
  - by rewrite C.
  - change 0 with (inject_Z 0) in C. rewrite <- Zlt_Qlt in C.
    assert (Hn : - inject_Z z == inject_Z (- z)) by (by rewrite inject_Z_opp).
    assert (E : round_pos (- inject_Z z) == round_pos (inject_Z (- z))).
    { apply Qle_antisym; apply round_pos_mono; rewrite ?Hn; try lra;
        change 0 with (inject_Z 0); rewrite <- Zlt_Qlt; lia. }
    rewrite E, Hpos by lia. rewrite inject_Z_opp. ring.
  - change 0 with (inject_Z 0) in C. rewrite <- Zlt_Qlt in C.
    apply Hpos. lia.
Qed.

Lemma round_nonneg x : 0 <= x -> 0 <= round x.
Proof.
  intros H. pose proof (round_mono 0 x H) as Hm.
  by change (round 0) with 0 in Hm.
Qed.

(** Conversion to [int] of a non-negative number is its floor. *)
Lemma to_int_floor x : 0 <= x -> to_int x = Qfloor x.
Proof.
  intros H. unfold to_int, Qfloor. destruct x as [n d]. simpl.
  apply Z.quot_div_nonneg; [|done]. unfold Qle in H. simpl in H. lia.
Qed.

Lemma to_int_between k x :
  (0 <= k)%Z -> inject_Z k <= x -> x < inject_Z (k + 1) -> to_int x = k.
Proof.
  intros Hk Hlo Hhi. rewrite to_int_floor.
  - pose proof (Qfloor_le x). pose proof (Qlt_floor x).
    assert (inject_Z (Qfloor x) < inject_Z (k + 1)) by lra.
    assert (inject_Z k < inject_Z (Qfloor x + 1)) by lra.
    rewrite <- Zlt_Qlt in *. lia.
  - eapply Qle_trans; [|apply Hlo]. change 0 with (inject_Z 0).
    by rewrite <- Zle_Qle.
Qed.
End F64Facts.


(** ** linkHealthScore *)

Section LinkHealth.
Import F64 F64Facts.
#[local] Open Scope Q_scope.

Lemma foldl_healthy (checks : list CitationCheck) (acc : Z) :
  foldl (fun healthy c => if CitationCheck.Healthy c then (healthy + 1)%Z else healthy)
        acc checks
  = (acc + healthy_count checks)%Z.
Proof.
  revert acc. unfold healthy_count, len.
  induction checks as [|c checks IH]; intros acc; simpl.
  - lia.
  - rewrite IH, filter_cons. destruct (CitationCheck.Healthy c) eqn:Hc.
    + rewrite decide_True by done. simpl length. lia.
    + rewrite decide_False by done. lia.
Qed.

Lemma linkHealthScore_unfold (checks : list CitationCheck) :
  checks <> [] ->
  linkHealthScore checks = score_from (healthy_count checks) (len checks).
Proof.
  intros Hne. unfold linkHealthScore, score_from.
  destruct checks as [|c checks]; [done|].
  replace (len (c :: checks) =? 0)%Z with false.
  2:{ symmetry. apply Z.eqb_neq. unfold len. simpl. lia. }
  by rewrite foldl_healthy, Z.add_0_l.
Qed.

Lemma healthy_count_range (checks : list CitationCheck) :
  (0 <= healthy_count checks <= len checks)%Z.
Proof.
  unfold healthy_count, len.
  pose proof (length_filter (fun c => CitationCheck.Healthy c = true) checks).
  lia.
Qed.

Lemma healthy_count_all (checks : list CitationCheck) :
  Forall (fun c => CitationCheck.Healthy c = true) checks ->
  healthy_count checks = len checks.
Proof.
  intros H. unfold healthy_count. f_equal.
  induction H as [|c checks Hc _ IH]; [done|].
  rewrite filter_cons, decide_True by done. by rewrite IH.
Qed.

Lemma healthy_count_none (checks : list CitationCheck) :
  Forall (fun c => CitationCheck.Healthy c = false) checks ->
  healthy_count checks = 0%Z.
Proof.
  intros H. unfold healthy_count, len.
  induction H as [|c checks Hc _ IH]; [done|].
  rewrite filter_cons, decide_False; [done|]. by rewrite Hc.
Qed.

Lemma of_int_nonneg z : (0 <= z)%Z -> 0 <= of_int z.
Proof.
  intros H. apply round_nonneg. change 0 with (inject_Z 0).
  by rewrite <- Zle_Qle.
Qed.

Lemma of_int_pos z : (0 < z)%Z -> 0 < of_int z.
Proof.
  intros H. unfold of_int.
  assert (round (inject_Z 1) <= round (inject_Z z)).
  { apply round_mono. rewrite <- Zle_Qle. lia. }
  change (round (inject_Z 1)) with 1 in H0. lra.
Qed.

Lemma score_from_range h n : (0 <= h)%Z -> (0 < n)%Z -> (1 <= score_from h n <= 10)%Z.
Proof.
  intros Hh Hn. unfold score_from.
  set (prod := mul _ _).
  assert (Hprod : 0 <= prod).
  { apply round_nonneg. apply Qmult_le_0_compat.
    - apply round_nonneg. apply Qle_shift_div_l; [by apply of_int_pos|].
      rewrite Qmult_0_l. by apply of_int_nonneg.
    - by apply of_int_nonneg. }
  assert (0 <= to_int prod)%Z.
  { rewrite to_int_floor by done. change 0%Z with (Qfloor 0).
    by apply Qfloor_resp_le. }
  destruct (Z.ltb_spec 10 (to_int prod + 1)); lia.
Qed.

Lemma score_from_all n : (0 < n)%Z -> score_from n n = 10%Z.
Proof.
  intros Hn. unfold score_from, div.
  pose proof (of_int_pos n Hn) as Hp.
  rewrite (round_eq (of_int n / of_int n) 1) by (field; lra).
  reflexivity.
Qed.

Lemma score_from_none n : score_from 0 n = 1%Z.
Proof.
  unfold score_from, div.
  rewrite (round_eq (of_int 0 / of_int n) 0).
  - reflexivity.
  - change (of_int 0) with 0. unfold Qdiv. ring.
Qed.

(** Where the two roundings land around the ninths: [round (k/9) * 9]
    rounds to [k], and anything at least [1 / (9 * 2^48)] below
    [(k+1)/9] stays below [k+1]. *)
Lemma ninths k :
  (0 <= k <= 8)%Z ->
  round (round (k # 9) * 9) == inject_Z k
  /\ round (round (((k + 1) # 9) - (1 # (9 * 2 ^ 48))) * 9) < inject_Z (k + 1).
Proof.
  intros Hk.
  assert (Hc : (k = 0 \/ k = 1 \/ k = 2 \/ k = 3 \/ k = 4 \/ k = 5
                \/ k = 6 \/ k = 7 \/ k = 8)%Z) by lia.
  repeat (destruct Hc as [->|Hc]); try subst k;
    (split; [vm_compute; reflexivity|vm_compute; reflexivity]).
Qed.

Lemma score_from_formula h n :
  (0 <= h <= n)%Z -> (0 < n <= max_slice_len)%Z ->
  score_from h n = Z.min 10 (9 * h / n + 1)%Z.
Proof.
  intros Hh Hn. unfold max_slice_len in Hn.
  set (k := (9 * h / n)%Z).
  assert (Hk : (k * n <= 9 * h < (k + 1) * n)%Z).
  { unfold k. pose proof (Z.mul_div_le (9 * h) n) as H1.
    pose proof (Z.mul_succ_div_gt (9 * h) n) as H2. lia. }
  assert (Hk9 : (0 <= k <= 9)%Z).
  { split; [apply Z.div_pos; lia|]. apply Z.div_le_upper_bound; lia. }
  destruct (Z.eq_dec k 9%Z) as [E|E].
  { assert (h = n) by nia. subst h. rewrite score_from_all by lia.
    rewrite E. reflexivity. }
  assert (Hk8 : (0 <= k <= 8)%Z) by lia.
  destruct (ninths k Hk8) as [Hlo Hhi].
  unfold score_from, div, mul. unfold of_int.
  rewrite (round_Z h), (round_Z n), (round_Z 9) by (try reflexivity; lia).
  assert (Hnq : 0 < inject_Z n).
  { change 0 with (inject_Z 0). rewrite <- Zlt_Qlt. lia. }
  set (pct := round (inject_Z h / inject_Z n)).
  assert (Hp1 : round (k # 9) <= pct).
  { apply round_mono. apply Qle_shift_div_l; [done|].
    rewrite (Qmake_Qdiv k 9). change (inject_Z 9) with 9.
    assert (inject_Z (k * n) <= inject_Z (9 * h)) by (rewrite <- Zle_Qle; lia).
    rewrite !inject_Z_mult in H. change (inject_Z 9) with 9 in H.
    apply Qmult_le_l with (z := 9); [reflexivity|].
    field_simplify. lra. }
  assert (Hp2 : pct <= round (((k + 1) # 9) - (1 # (9 * 2 ^ 48)))).
  { apply round_mono. apply Qle_shift_div_r; [done|].
    assert (Hi : inject_Z (9 * h) <= inject_Z ((k + 1) * n - 1))
      by (rewrite <- Zle_Qle; lia).
    unfold Z.sub in Hi. rewrite !inject_Z_plus, !inject_Z_mult in Hi.
    rewrite inject_Z_plus in Hi.
    change (inject_Z 9) with 9 in Hi. change (inject_Z 1) with 1 in Hi.
    assert (Hm1 : inject_Z (- (1)) == - (1)) by reflexivity.
    assert (Hb : inject_Z n <= inject_Z (2 ^ 48)) by (rewrite <- Zle_Qle; lia).
    rewrite (Qmake_Qdiv (k + 1) 9). rewrite inject_Z_plus.
    change (inject_Z 9) with 9. change (inject_Z 1) with 1.
    change (inject_Z (2 ^ 48)) with 281474976710656 in Hb.
    change (1 # 9 * 2 ^ 48) with (1 # 2533274790395904).
    apply Qmult_le_l with (z := 9); [reflexivity|].
    assert ((1 # 2533274790395904) * inject_Z n <= 1 # 9).
    { apply Qle_trans with ((1 # 2533274790395904) * 281474976710656).
      - apply Qmult_le_l; [reflexivity|done].
      - vm_compute. discriminate. }
    field_simplify. lra. }
  change (inject_Z 9) with 9.
  set (prod := round (pct * 9)).
  assert (Hq1 : inject_Z k <= prod).
  { rewrite <- Hlo. apply round_mono. lra. }
  assert (Hq2 : prod < inject_Z (k + 1)).
  { eapply Qle_lt_trans; [|apply Hhi]. apply round_mono. lra. }
  rewrite (to_int_between k prod) by (done || lia).
  fold k. destruct (Z.ltb_spec 10 (k + 1)); lia.
Qed.
End LinkHealth.

Lemma linkHealthScore_range (checks : list CitationCheck) :
  1 <= linkHealthScore checks <= 10.
Proof.
  destruct checks as [|c checks]; [by vm_compute|].
  rewrite linkHealthScore_unfold by done.
  pose proof (healthy_count_range (c :: checks)).
  apply score_from_range; [lia|]. unfold len. simpl. lia.
Qed.

(** C2. [linkHealthScore] lies between 1 and 10; it is 5 on the empty
    list, 10 on a non-empty list of healthy checks and 1 on a non-empty
    list without a healthy check; and on every non-empty list that a Go
    slice can hold it is [min(10, floor(healthy/total*9) + 1)], the
    roundings of [float64] notwithstanding. *)
Theorem linkHealthScore_scale (checks : list CitationCheck) :
  1 <= linkHealthScore checks <= 10
  /\ linkHealthScore [] = 5
  /\ (checks <> [] ->
      Forall (fun c => CitationCheck.Healthy c = true) checks ->
      linkHealthScore checks = 10)
  /\ (checks <> [] ->
      Forall (fun c => CitationCheck.Healthy c = false) checks ->
      linkHealthScore checks = 1)
  /\ (checks <> [] ->
      len checks <= max_slice_len ->
      linkHealthScore checks
      = Z.min 10 (9 * healthy_count checks / len checks + 1)).
Proof.
  assert (Hlen : checks <> [] -> 0 < len checks).
  { intros Hne. unfold len. destruct checks; [done|]. simpl. lia. }
  pose proof (healthy_count_range checks) as Hr.
  split; [|split; [reflexivity|split; [|split]]].
  - apply linkHealthScore_range.
  - intros Hne Hall. rewrite linkHealthScore_unfold by done.
    rewrite healthy_count_all by done. apply score_from_all. by apply Hlen.
  - intros Hne Hnone. rewrite linkHealthScore_unfold by done.
    rewrite healthy_count_none by done. apply score_from_none.
  - intros Hne Hmax. rewrite linkHealthScore_unfold by done.
    apply score_from_formula; [lia|]. split; [by apply Hlen|done].
Qed.

Lemma linkHealthScore_scale_witness :
  linkHealthScore
    [ CitationCheck.mk "https://a.example/1" 200 true 120000000 "";
      CitationCheck.mk "https://a.example/2" 404 false 90000000 "";
      CitationCheck.mk "https://a.example/3" 301 true 80000000 "" ]
  = 7.
Proof.
  set (checks := [_; _; _]).
  destruct (linkHealthScore_scale checks) as (_ & _ & _ & _ & H).
  rewrite H.
  - reflexivity.
  - discriminate.
  - vm_compute. discriminate.
Defined.


(** ** Heuristic score *)

Lemma int_wrap_small z : - 2 ^ 63 <= z < 2 ^ 63 -> int_wrap z = z.
Proof.
  intros H. unfold int_wrap. rewrite Z.mod_small; lia.
Qed.

Lemma len_nonneg {A} (l : list A) : 0 <= len l.
Proof. unfold len. lia. Qed.

Lemma word_score_range wc : 0 <= wc -> 0 <= Z.min (Z.quot wc 10) 50 <= 50.
Proof.
  intros H. rewrite Z.quot_div_nonneg by lia.
  pose proof (Z.div_pos wc 10 H). lia.
Qed.

Lemma calculateScore_ok (r : Result) :
  Error r = None ->
  len (Citations r) <= max_slice_len ->
  calculateScore r
  = len (Citations r) * 10 + Z.min (word_count (Text r) / 10) 50.
Proof.
  intros He Hlen. unfold calculateScore, word_count. rewrite He.
  pose proof (len_nonneg (Citations r)) as Hc.
  pose proof (word_score_range _ (len_nonneg (GoStrings.Fields (Text r)))) as Hw.
  unfold max_slice_len in Hlen.
  rewrite (int_wrap_small (len (Citations r) * 10)) by lia.
  rewrite int_wrap_small by lia.
  rewrite Z.quot_div_nonneg by (apply len_nonneg || lia). reflexivity.
Qed.

(** C3. The heuristic score of a result is 0 when it carries an error
    and otherwise ten times the number of citations plus
    [min(wordCount/10, 50)], [wordCount] being the number of
    whitespace-delimited tokens of the text; the word part is at most 50;
    and the score does not decrease when the citation count or the word
    count grows.  Citation lists are those a Go slice can hold. *)
Theorem calculateScore_formula (r r' : Result) :
  len (Citations r) <= max_slice_len ->
  len (Citations r') <= max_slice_len ->
  (Error r <> None -> calculateScore r = 0)
  /\ (Error r = None ->
      calculateScore r
      = len (Citations r) * 10 + Z.min (word_count (Text r) / 10) 50)
  /\ 0 <= Z.min (word_count (Text r) / 10) 50 <= 50
  /\ (Error r = None -> Error r' = None ->
      len (Citations r) <= len (Citations r') ->
      word_count (Text r) <= word_count (Text r') ->
      calculateScore r <= calculateScore r').
Proof.
  intros Hlen Hlen'.
  split; [|split; [|split]].
  - intros He. unfold calculateScore. by destruct (Error r).
  - intros He. by apply calculateScore_ok.
  - pose proof (word_score_range _ (len_nonneg (GoStrings.Fields (Text r)))) as H.
    rewrite Z.quot_div_nonneg in H by (apply len_nonneg || lia). exact H.
  - intros He He' Hc Hw. rewrite !calculateScore_ok by done.
    assert (word_count (Text r) / 10 <= word_count (Text r') / 10)
      by (apply Z.div_le_mono; lia).
    lia.
Qed.

Lemma calculateScore_formula_witness :
  calculateScore Sample.paris = 10
  /\ calculateScore Sample.paris <= calculateScore Sample.paris.
Proof.
  assert (Hlen : len (Citations Sample.paris) <= max_slice_len)
    by (vm_compute; discriminate).
  destruct (calculateScore_formula Sample.paris Sample.paris Hlen Hlen)
    as (_ & Heq & _ & Hmono).
  split.
  - rewrite Heq by reflexivity. vm_compute. reflexivity.
  - apply Hmono; reflexivity || lia.
Defined.

(** The earlier revision of [calculateScore], fed by its callers, gives
    the same score. *)
Lemma Legacy_score_agrees (resp : Legacy.ModelResponse) :
  Legacy.Score (Legacy.score_response resp) = calculateScore (as_result resp).
Proof. reflexivity. Qed.

(** ** LinkValidator: index alignment *)

Section Alignment.
Context (head : nat -> Citation -> Probe).

#[local] Abbreviation store := (store_check head).

Lemma store_length checks task : length (store checks task) = length checks.
Proof. destruct task. apply length_insert. Qed.

Lemma foldl_store_length tasks checks :
  length (foldl store checks tasks) = length checks.
Proof.
  revert checks. induction tasks as [|t tasks IH]; intros checks; simpl; [done|].
  by rewrite IH, store_length.
Qed.

Lemma foldl_store_other tasks checks i :
  i ∉ tasks.*1 -> foldl store checks tasks !! i = checks !! i.
Proof.
  revert checks. induction tasks as [|[j d] tasks IH]; intros checks Hi; simpl;
    [done|].
  rewrite fmap_cons in Hi. apply not_elem_of_cons in Hi as [Hne Hi].
  rewrite IH by done. simpl in Hne. by apply list_lookup_insert_ne.
Qed.

Lemma foldl_store_lookup tasks checks i c :
  NoDup tasks.*1 -> (i, c) ∈ tasks -> (i < length checks)%nat ->
  foldl store checks tasks !! i = Some (probe_citation head i c).
Proof.
  revert checks. induction tasks as [|[j d] tasks IH]; intros checks Hnd Hin Hi.
  { by apply elem_of_nil in Hin. }
  rewrite fmap_cons in Hnd. apply NoDup_cons in Hnd as [Hj Hnd].
  simpl. apply elem_of_cons in Hin as [Heq|Hin].
  - inversion Heq; subst j d. rewrite foldl_store_other by done.
    by apply list_lookup_insert_eq.
  - apply IH; [done|done|]. by rewrite length_insert.
Qed.

Lemma imap_pair_fst {A} (l : list A) : (imap pair l).*1 = seq 0 (length l).
Proof.
  rewrite fmap_imap. unfold compose. simpl.
  assert (H : forall (k : nat), imap (fun n _ => (k + n)%nat) l = seq k (length l)).
  { induction l as [|x l IH]; intros k; simpl; [done|].
    rewrite Nat.add_0_r. f_equal. rewrite <- (IH (S k)). apply imap_ext.
    intros. simpl. lia. }
  apply (H O).
Qed.

Lemma validateCitations_imap sched (citations : list Citation) :
  fair sched ->
  validateCitations sched head citations = imap (probe_citation head) citations.
Proof.
  intros Hfair. unfold validateCitations.
  set (tasks := run_order sched (imap pair citations)).
  assert (Hperm : Permutation tasks (imap pair citations)) by apply Hfair.
  apply list_eq. intros i. rewrite list_lookup_imap.
  destruct (citations !! i) as [c|] eqn:Hc; simpl.
  - apply foldl_store_lookup.
    + rewrite Hperm, imap_pair_fst. apply NoDup_seq.
    + rewrite Hperm. apply elem_of_lookup_imap. eauto.
    + rewrite length_replicate. by apply lookup_lt_Some in Hc.
  - apply lookup_ge_None. rewrite foldl_store_length, length_replicate.
    by apply lookup_ge_None in Hc.
Qed.
End Alignment.

(** C8. Whatever the order in which the probes finish, the checks that
    [validateCitations] returns are as many as the citations, and the check
    at each index carries the URL of the citation at that index. *)
Theorem validateCitations_aligned sched head (citations : list Citation) :
  fair sched ->
  length (validateCitations sched head citations) = length citations
  /\ forall i c,
       citations !! i = Some c ->
       exists check,
         validateCitations sched head citations !! i = Some check
         /\ CitationCheck.URL check = URL c.
Proof.
  intros Hfair. rewrite validateCitations_imap by done. split.
  - apply length_imap.
  - intros i c Hc. exists (probe_citation head i c). split.
    + by rewrite list_lookup_imap, Hc.
    + unfold probe_citation. by destruct (outcome (head i c)).
Qed.

Lemma fair_last_first : fair last_first.
Proof. intros A l. simpl. symmetry. apply Permutation_rev. Qed.

Lemma fair_in_order : fair in_order.
Proof. intros A l. reflexivity. Qed.

Lemma validateCitations_aligned_witness :
  let citations :=
    [ mkCitation "https://a.example/1" "" "";
      mkCitation "https://b.example/2" "" "" ] in
  length (validateCitations last_first (Sample.all_links_ok O) citations)
  = length citations
  /\ exists check,
       validateCitations last_first (Sample.all_links_ok O) citations !! 1%nat
       = Some check
       /\ CitationCheck.URL check = "https://b.example/2".
Proof.
  intros citations.
  destruct (validateCitations_aligned last_first (Sample.all_links_ok O)
              citations fair_last_first) as [Hlen Hurl].
  split; [exact Hlen|].
  apply (Hurl 1%nat (mkCitation "https://b.example/2" "" "")). reflexivity.
Defined.

(** ** Judge: the paths that return the input *)

Lemma no_usable_count (results : list ModelResult) :
  (forall mr, mr ∈ results -> usable mr = false) ->
  len (filter (fun mr => usable mr = true) results) = 0.
Proof.
  intros H. unfold len.
  replace (filter (fun mr => usable mr = true) results) with (@nil ModelResult);
    [reflexivity|].
  symmetry. induction results as [|mr results IH]; [reflexivity|].
  rewrite filter_cons. destruct (decide (usable mr = true)) as [Hu|Hu].
  - rewrite (H mr) in Hu by apply list_elem_of_here. discriminate.
  - apply IH. intros mr' Hin. apply H. by apply list_elem_of_further.
Qed.

Lemma some_usable_count (results : list ModelResult) mr :
  mr ∈ results -> usable mr = true ->
  (len (filter (fun mr => usable mr = true) results) =? 0) = false.
Proof.
  intros Hin Hu. apply Z.eqb_neq. unfold len.
  assert (Hin' : mr ∈ filter (fun mr => usable mr = true) results)
    by (apply list_elem_of_filter; done).
  destruct (filter _ results); [by apply elem_of_nil in Hin'|].
  simpl. lia.
Qed.

(** C7. When every input result carries an error, [Judge] returns the
    input list as it is and no error, whatever the scoring model would
    have answered. *)
Theorem Judge_nothing_usable ToLower w results query verbose :
  (forall mr, mr ∈ results -> Error (ModelResult.Result mr) <> None) ->
  Judge ToLower w results query verbose = (results, None).
Proof.
  intros H. unfold Judge. rewrite no_usable_count; [reflexivity|].
  intros mr Hin. specialize (H mr Hin). unfold usable.
  by destruct (Error (ModelResult.Result mr)).
Qed.

Lemma Judge_nothing_usable_witness :
  Judge ToLower_ascii (Sample.world Sample.scored_claude)
    [Sample.fresh Sample.grok] "X" false
  = ([Sample.fresh Sample.grok], None).
Proof.
  apply Judge_nothing_usable.
  intros mr Hin. apply list_elem_of_singleton in Hin. subst mr.
  simpl. discriminate.
Defined.

(** C6. When at least one result is usable, so that the scoring
    capability is called, and it fails (it cannot be reached, its reply
    does not unmarshal, or it holds no evaluation), [Judge] returns an
    error together with the input list; and whenever [Judge] returns an
    error at all, the list it returns is the input list. *)
Theorem Judge_scoring_failure ToLower w results query verbose :
  (forall mr, mr ∈ results -> usable mr = true -> scoring_fails w ->
     exists err, Judge ToLower w results query verbose = (results, Some err))
  /\ (forall err, (Judge ToLower w results query verbose).2 = Some err ->
        (Judge ToLower w results query verbose).1 = results).
Proof.
  split.
  - intros mr Hin Hu Hfail. unfold Judge.
    rewrite (some_usable_count results mr Hin Hu).
    destruct Hfail as [err Hw|content err Hw Hp|content ti Hw Hp He].
    + rewrite Hw. eauto.
    + rewrite Hw, Hp. eauto.
    + rewrite Hw, Hp, He. simpl. eauto.
  - intros err. unfold Judge.
    destruct (_ =? 0); [discriminate|].
    destruct (messages_New w) as [e|content]; [done|].
    destruct (parse_tool_use content) as [e|ti]; [done|].
    destruct (_ =? 0); [done|discriminate].
Qed.

Lemma Judge_scoring_failure_witness :
  exists err,
    Judge ToLower_ascii (Sample.world Sample.unreachable)
      [Sample.fresh Sample.claude; Sample.fresh Sample.grok] "X" false
    = ([Sample.fresh Sample.claude; Sample.fresh Sample.grok], Some err).
Proof.
  apply (proj1 (Judge_scoring_failure ToLower_ascii
                  (Sample.world Sample.unreachable)
                  [Sample.fresh Sample.claude; Sample.fresh Sample.grok]
                  "X" false) (Sample.fresh Sample.claude)).
  - apply list_elem_of_here.
  - reflexivity.
  - by apply (scoring_unreachable _ "connection refused").
Defined.

(** ** Judge: attaching scores *)

Lemma insert_stable_perm {A} (less : A -> A -> bool) x l :
  Permutation (insert_stable less x l) (x :: l).
Proof.
  induction l as [|y l IH]; simpl; [done|].
  destruct (less x y); [done|].
  rewrite IH. apply perm_swap.
Qed.

Lemma SliceStable_perm {A} (less : A -> A -> bool) l :
  Permutation (SliceStable less l) l.
Proof.
  unfold SliceStable.
  assert (H : forall acc, Permutation (foldl (fun sorted x => insert_stable less x sorted) acc l)
                            (acc ++ l)).
  { induction l as [|x l IH]; intros acc; simpl.
    - by rewrite app_nil_r.
    - rewrite IH, insert_stable_perm. simpl. apply Permutation_middle. }
  apply (H []).
Qed.

Lemma Forall2_imap {A B} (R : A -> B -> Prop) (f : nat -> A -> B) (l : list A) :
  (forall i x, l !! i = Some x -> R x (f i x)) -> Forall2 R l (imap f l).
Proof.
  revert f. induction l as [|x l IH]; intros f H; simpl; [constructor|].
  constructor.
  - by apply (H O).
  - apply IH. intros i y Hy. by apply (H (S i)).
Qed.

Section JudgeFacts.
Context (ToLower : string -> string).

Lemma attach_judged_from w allChecks evalMap i mr :
  judged_from mr (attach ToLower w allChecks evalMap i mr).
Proof.
  unfold judged_from, attach. destruct (usable mr) eqn:Hu.
  - cbn [ModelResult.Provider ModelResult.Result ModelResult.JudgeScore].
    eauto.
  - done.
Qed.

(** What [Judge] returns once the scoring model has answered. *)
Lemma Judge_scored w results query verbose evals mr :
  mr ∈ results -> usable mr = true -> scoring_gives w evals ->
  Judge ToLower w results query verbose
  = (SliceStable (by_overall)
       (imap (attach ToLower w (validate_all w results) (build_evalMap evals))
             results),
     None).
Proof.
  intros Hin Hu (content & Hw & Hp & Hne). unfold Judge.
  rewrite (some_usable_count results mr Hin Hu), Hw, Hp. simpl.
  destruct evals as [|e evals]; [done|]. reflexivity.
Qed.

(** The two ways in which [Judge] returns without an error. *)
Lemma Judge_no_error w results query verbose out :
  Judge ToLower w results query verbose = (out, None) ->
  (out = results /\ forall mr, mr ∈ results -> usable mr = false)
  \/ exists evals,
       scoring_gives w evals
       /\ out = SliceStable by_overall
                 (imap (attach ToLower w (validate_all w results)
                          (build_evalMap evals)) results).
Proof.
  unfold Judge. intros H.
  destruct (Z.eqb_spec (len (filter (fun mr => usable mr = true) results)) 0)
    as [E|E].
  - left. inversion H; subst out. split; [done|].
    intros mr Hin. destruct (usable mr) eqn:Hu; [|done].
    exfalso. pose proof (some_usable_count results mr Hin Hu) as Hc.
    rewrite E in Hc. discriminate.
  - right. destruct (messages_New w) as [e|content] eqn:Hw; [done|].
    destruct (parse_tool_use content) as [e|[evals]] eqn:Hp; [done|].
    simpl in H. destruct (Z.eqb_spec (len evals) 0) as [E'|E']; [done|].
    inversion H. exists evals. split; [|done].
    exists content. split; [done|]. split; [done|].
    intros ->. by apply E'.
Qed.

(** C10. When [Judge] returns without an error, the results it returns
    are the input results, one for one and possibly reordered, each with
    its provider and its underlying result unchanged: a result without an
    error carries a score, and a result with an error is the very record
    that came in, so that it has no score unless it came in with one. *)
Theorem Judge_scores_the_usable w results query verbose out :
  Judge ToLower w results query verbose = (out, None) ->
  (exists judged,
      Permutation out judged /\ Forall2 judged_from results judged)
  /\ (forall mr', mr' ∈ out ->
        Error (ModelResult.Result mr') = None ->
        is_Some (ModelResult.JudgeScore mr'))
  /\ (forall mr', mr' ∈ out ->
        Error (ModelResult.Result mr') <> None ->
        mr' ∈ results)
  /\ ((forall mr, mr ∈ results -> usable mr = false ->
         ModelResult.JudgeScore mr = None) ->
      forall mr', mr' ∈ out ->
        Error (ModelResult.Result mr') <> None ->
        ModelResult.JudgeScore mr' = None).
Proof.
  intros HJ.
  assert (Hcorr : exists judged,
             Permutation out judged /\ Forall2 judged_from results judged).
  { destruct (Judge_no_error _ _ _ _ _ HJ) as [[-> Hnone]|(evals & _ & ->)].
    - exists results. split; [done|].
      apply Forall2_same_length_lookup. split; [done|].
      intros i mr mr' H1 H2. rewrite H1 in H2. inversion H2; subst mr'.
      unfold judged_from. rewrite (Hnone mr) by (by eapply list_elem_of_lookup_2).
      done.
    - eexists. split; [apply SliceStable_perm|].
      apply Forall2_imap. intros i mr _. apply attach_judged_from. }
  split; [done|].
  destruct Hcorr as (judged & Hperm & HF).
  assert (Hsrc : forall mr', mr' ∈ out ->
             exists mr, mr ∈ results /\ judged_from mr mr').
  { intros mr' Hin. rewrite Hperm in Hin.
    apply list_elem_of_lookup in Hin as [i Hi].
    destruct (Forall2_lookup_r _ _ _ _ _ HF Hi) as (mr & Hmr & Hj).
    exists mr. split; [by eapply list_elem_of_lookup_2|done]. }
  assert (Hus : forall mr mr', judged_from mr mr' -> usable mr' = usable mr).
  { intros mr mr' (_ & Hr & _). unfold usable. by rewrite Hr. }
  split; [|split].
  - intros mr' Hin He. destruct (Hsrc mr' Hin) as (mr & _ & Hj).
    pose proof (Hus _ _ Hj) as Hu. destruct Hj as (_ & _ & Hs).
    unfold usable in Hu at 1. rewrite He in Hu. by rewrite <- Hu in Hs.
  - intros mr' Hin He. destruct (Hsrc mr' Hin) as (mr & Hmr & Hj).
    pose proof (Hus _ _ Hj) as Hu. destruct Hj as (_ & _ & Hs).
    unfold usable in Hu at 1.
    destruct (Error (ModelResult.Result mr')); [|done].
    rewrite <- Hu in Hs. by subst mr'.
  - intros Hfresh mr' Hin He. destruct (Hsrc mr' Hin) as (mr & Hmr & Hj).
    pose proof (Hus _ _ Hj) as Hu. destruct Hj as (_ & _ & Hs).
    unfold usable in Hu at 1.
    destruct (Error (ModelResult.Result mr')); [|done].
    rewrite <- Hu in Hs. subst mr'. by apply Hfresh.
Qed.

Lemma build_evalMap_lookup evals k e :
  build_evalMap evals !! k = Some e ->
  e ∈ evals /\ judgeEvaluation.Model e = k.
Proof.
  unfold build_evalMap.
  assert (Hgen : forall (done : list judgeEvaluation) (m : gmap string judgeEvaluation),
             (forall k e, m !! k = Some e -> e ∈ done /\ judgeEvaluation.Model e = k) ->
             forall k e,
               foldl (fun evalMap eval => <[judgeEvaluation.Model eval := eval]> evalMap)
                     m evals !! k = Some e ->
               e ∈ done ++ evals /\ judgeEvaluation.Model e = k).
  { induction evals as [|x evals IH]; intros dn m Hm k' e' Hl; simpl in Hl.
    - rewrite app_nil_r. by apply Hm.
    - replace (dn ++ x :: evals) with ((dn ++ [x]) ++ evals)
        by (by rewrite <- app_assoc).
      apply (IH (dn ++ [x]) (<[judgeEvaluation.Model x := x]> m)); [|done].
      intros k2 e2 H2. destruct (decide (judgeEvaluation.Model x = k2)) as [<-|Hne].
      + rewrite lookup_insert_eq in H2. inversion H2; subst e2.
        split; [|done]. apply elem_of_app. right. apply list_elem_of_here.
      + rewrite lookup_insert_ne in H2 by done.
        destruct (Hm k2 e2 H2) as [Hin Hk]. split; [|done].
        apply elem_of_app. by left. }
  intros Hl. apply (Hgen [] ∅); [|done].
  intros k2 e2 H2. by rewrite lookup_empty in H2.
Qed.

Lemma find_none_all {X} (P : X -> bool) (l : list X) :
  (forall x, x ∈ l -> P x = false) -> List.find P l = None.
Proof.
  induction l as [|x l IH]; intros H; simpl; [done|].
  rewrite (H x) by apply list_elem_of_here.
  apply IH. intros y Hy. apply H. by apply list_elem_of_further.
Qed.

(** No evaluation is matched when none bears the display name and none
    passes the fuzzy test. *)
Lemma match_evaluation_none w i evals p :
  well_behaved w ->
  (forall e, e ∈ evals ->
     judgeEvaluation.Model e <> DisplayName p
     /\ fuzzy ToLower p (judgeEvaluation.Model e) = false) ->
  match_evaluation ToLower w i (build_evalMap evals) p = None.
Proof.
  intros [_ Hrange] Hno. unfold match_evaluation.
  destruct (build_evalMap evals !! DisplayName p) as [e|] eqn:Hl.
  { apply build_evalMap_lookup in Hl as [Hin Hm].
    by destruct (Hno e Hin) as [Hne _]. }
  rewrite find_none_all; [done|].
  intros [name e] Hin. rewrite (Hrange i _) in Hin.
  apply elem_of_map_to_list in Hin.
  apply build_evalMap_lookup in Hin as [Hin Hm]. subst name.
  by destruct (Hno e Hin) as [_ Hf].
Qed.

(** Every input result has its judged counterpart in the output. *)
Lemma Judge_output_elem w results query verbose evals i mr :
  scoring_gives w evals ->
  results !! i = Some mr -> usable mr = true ->
  exists out,
    Judge ToLower w results query verbose = (out, None)
    /\ attach ToLower w (validate_all w results) (build_evalMap evals) i mr ∈ out.
Proof.
  intros Hs Hi Hu. eexists. split.
  - apply (Judge_scored w results query verbose evals mr); [|done|done].
    by eapply list_elem_of_lookup_2.
  - rewrite SliceStable_perm. apply list_elem_of_lookup. exists i.
    by rewrite list_lookup_imap, Hi.
Qed.

Lemma of_int_small z : (Z.abs z <= 2 ^ 53)%Z -> F64.of_int z = inject_Z z.
Proof. apply F64Facts.round_Z. Qed.

(** *** The checks stored for a provider *)

Lemma filter_imap_snd {X} (P : X -> Prop) `{!forall x, Decision (P x)}
    (f : nat -> nat) (l : list X) :
  (filter (fun t : nat * X => P t.2) (imap (fun i x => (f i, x)) l)).*2
  = filter P l.
Proof.
  revert f. induction l as [|x l IH]; intros f; simpl; [done|].
  rewrite !filter_cons. simpl.
  destruct (decide (P x)); simpl; [f_equal|]; apply (IH (f ∘ S)).
Qed.

Lemma store_checks_other w tasks allChecks name :
  name ∉ (fun t : nat * ModelResult => Name (ModelResult.Provider t.2)) <$> tasks ->
  foldl (store_checks w) allChecks tasks !! name = allChecks !! name.
Proof.
  revert allChecks. induction tasks as [|[j mr] tasks IH]; intros m Hn; simpl;
    [done|].
  rewrite fmap_cons in Hn. apply not_elem_of_cons in Hn as [Hne Hn].
  rewrite IH by done. simpl in Hne. by rewrite lookup_insert_ne.
Qed.

Lemma store_checks_lookup w tasks allChecks i mr :
  NoDup ((fun t : nat * ModelResult => Name (ModelResult.Provider t.2)) <$> tasks) ->
  (i, mr) ∈ tasks ->
  foldl (store_checks w) allChecks tasks !! Name (ModelResult.Provider mr)
  = Some (validateCitations (sched w) (client_Head w i)
            (Citations (ModelResult.Result mr))).
Proof.
  revert allChecks. induction tasks as [|[j mr'] tasks IH]; intros m Hnd Hin.
  { by apply elem_of_nil in Hin. }
  rewrite fmap_cons in Hnd. apply NoDup_cons in Hnd as [Hj Hnd].
  simpl. apply elem_of_cons in Hin as [Heq|Hin].
  - inversion Heq; subst j mr'. rewrite store_checks_other by done.
    by rewrite lookup_insert_eq.
  - by apply IH.
Qed.

(** With distinct provider names, the checks stored under a provider's
    name are those of its own citations. *)
Lemma validate_all_own w results i mr :
  fair (sched w) ->
  NoDup (usable_names results) ->
  results !! i = Some mr -> usable mr = true ->
  checks_of (validate_all w results) (Name (ModelResult.Provider mr))
  = validateCitations (sched w) (client_Head w i)
      (Citations (ModelResult.Result mr)).
Proof.
  intros Hfair Hnd Hi Hu. unfold checks_of, validate_all.
  set (tasks := filter _ (imap pair results)).
  assert (Hperm : Permutation (run_order (sched w) tasks) tasks) by apply Hfair.
  rewrite (store_checks_lookup w _ ∅ i mr); [done| |].
  - rewrite Hperm. unfold tasks.
    replace ((fun t : nat * ModelResult => Name (ModelResult.Provider t.2))
               <$> filter (fun task : nat * ModelResult => usable task.2 = true)
                          (imap pair results))
      with (usable_names results); [done|].
    unfold usable_names.
    rewrite <- (filter_imap_snd (fun mr => usable mr = true) (fun i => i) results).
    by rewrite <- list_fmap_compose.
  - rewrite Hperm. unfold tasks. apply list_elem_of_filter. split; [done|].
    apply elem_of_lookup_imap. eauto.
Qed.

(** C5. A provider with a usable result that no returned evaluation
    matches, neither by its display name nor by the case-insensitive
    substring test, is kept in the output of [Judge] with a score made of
    link health alone: [Overall] is the link-health score of the checks
    stored under its name, the four judged components are 0 and the
    reasoning is the fixed marker.  With distinct provider names those
    checks are the checks of its own citations. *)
Theorem Judge_fallback w results query verbose evals i mr :
  well_behaved w ->
  scoring_gives w evals ->
  results !! i = Some mr ->
  usable mr = true ->
  (forall e, e ∈ evals ->
     judgeEvaluation.Model e <> DisplayName (ModelResult.Provider mr)
     /\ fuzzy ToLower (ModelResult.Provider mr) (judgeEvaluation.Model e) = false) ->
  let lhScore :=
    linkHealthScore
      (checks_of (validate_all w results) (Name (ModelResult.Provider mr))) in
  (exists out,
      Judge ToLower w results query verbose = (out, None)
      /\ {| ModelResult.Provider := ModelResult.Provider mr;
            ModelResult.Result := ModelResult.Result mr;
            ModelResult.JudgeScore :=
              Some {| JudgeScore.Quality := 0;
                      JudgeScore.LinkHealth := lhScore;
                      JudgeScore.Recency := 0;
                      JudgeScore.Significance := 0;
                      JudgeScore.Impact := 0;
                      JudgeScore.Overall := inject_Z lhScore;
                      JudgeScore.Reasoning := no_evaluation |} |} ∈ out)
  /\ (NoDup (usable_names results) ->
      lhScore
      = linkHealthScore
          (validateCitations (sched w) (client_Head w i)
             (Citations (ModelResult.Result mr)))).
Proof.
  intros Hw Hs Hi Hu Hno lhScore. split.
  - destruct (Judge_output_elem w results query verbose evals i mr Hs Hi Hu)
      as (out & HJ & Hin).
    exists out. split; [done|].
    unfold attach in Hin. rewrite Hu in Hin.
    rewrite (match_evaluation_none w i evals _ Hw Hno) in Hin.
    unfold score_of in Hin. fold lhScore in Hin.
    rewrite of_int_small in Hin; [done|].
    pose proof (linkHealthScore_range
                  (checks_of (validate_all w results)
                     (Name (ModelResult.Provider mr)))) as Hr.
    fold lhScore in Hr. lia.
  - intros Hnd. unfold lhScore.
    by rewrite (validate_all_own w results i mr (proj1 Hw) Hnd Hi Hu).
Qed.
End JudgeFacts.

Lemma Judge_scores_the_usable_witness :
  exists out,
    Judge ToLower_ascii (Sample.world Sample.scored_claude)
      [Sample.fresh Sample.grok; Sample.fresh Sample.claude] "X" false
    = (out, None)
    /\ (forall mr', mr' ∈ out ->
          Error (ModelResult.Result mr') = None ->
          is_Some (ModelResult.JudgeScore mr')).
Proof.
  eexists. split; [vm_compute; reflexivity|].
  refine (proj1 (proj2 (Judge_scores_the_usable ToLower_ascii
                          (Sample.world Sample.scored_claude)
                          [Sample.fresh Sample.grok; Sample.fresh Sample.claude]
                          "X" false _ _))).
  vm_compute. reflexivity.
Defined.

(** ** Accuracy of the composite score *)

Section Accuracy.
Import F64 F64Facts.
#[local] Open Scope Q_scope.

Lemma rne_near y : inject_Z (rne y) <= y + (1 # 2) /\ y - (1 # 2) <= inject_Z (rne y).
Proof.
  pose proof (Qfloor_le (y + (1 # 2))) as Hlo.
  pose proof (Qlt_floor (y + (1 # 2))) as Hhi.
  rewrite inject_Z_plus in Hhi. change (inject_Z 1) with 1 in Hhi.
  destruct (rne_cases y) as [[-> _]|(-> & Htie & _)].
  - split; lra.
  - unfold Z.sub. rewrite inject_Z_plus, inject_Z_opp.
    change (inject_Z 1) with 1. split; lra.
Qed.

Lemma round_pos_near x :
  0 < x -> x * (1 - unit_roundoff) <= round_pos x /\ round_pos x <= x * (1 + unit_roundoff).
Proof.
  intros Hx. unfold round_pos.
  destruct (scaled_bounds x Hx) as [Hlo _].
  pose proof (pow2_pos (ilog2 x - 52)) as He.
  set (e := (ilog2 x - 52)%Z) in *. set (y := x / pow2 e) in *.
  destruct (rne_near y) as [H1 H2].
  assert (Hxy : x == y * pow2 e) by (unfold y; field; lra).
  assert (Hhalf : (1 # 2) <= y * unit_roundoff).
  { apply Qle_trans with (pow2 52 * unit_roundoff); [by vm_compute|].
    apply Qmult_le_compat_r; [done|by vm_compute]. }
  split.
  - apply Qle_trans with ((y - (1 # 2)) * pow2 e).
    + rewrite Hxy. rewrite <- Qmult_assoc, (Qmult_comm (pow2 e)), Qmult_assoc.
      apply Qmult_le_compat_r; [lra|by apply Qlt_le_weak].
    + apply Qmult_le_compat_r; [done|by apply Qlt_le_weak].
  - apply Qle_trans with ((y + (1 # 2)) * pow2 e).
    + apply Qmult_le_compat_r; [done|by apply Qlt_le_weak].
    + rewrite Hxy. rewrite <- (Qmult_assoc y), (Qmult_comm (pow2 e)), Qmult_assoc.
      apply Qmult_le_compat_r; [lra|by apply Qlt_le_weak].
Qed.

(** Rounding a non-negative number changes it by at most one part in
    [2^53]. *)
Lemma round_near x :
  0 <= x -> x * (1 - unit_roundoff) <= round x /\ round x <= x * (1 + unit_roundoff).
Proof.
  intros Hx. unfold round.
  pose proof (Qred_correct (round_canon (Qred x))) as Hc.
  pose proof (Qred_correct x) as Hr. unfold round_canon in *.
  destruct (Qcompare_spec (Qred x) 0) as [C|C|C].
  - unfold unit_roundoff. split; lra.
  - lra.
  - destruct (round_pos_near (Qred x) C) as [H1 H2]. unfold unit_roundoff in *.
    split; lra.
Qed.

Lemma const_values :
  const wQuality = (1 # 4)
  /\ const wLinkHealth = (5404319552844595 # 36028797018963968)
  /\ const wRecency = (3602879701896397 # 18014398509481984)
  /\ const wSignificance = (3602879701896397 # 18014398509481984)
  /\ const wImpact = (3602879701896397 # 18014398509481984).
Proof. vm_compute. repeat split. Qed.

(** The composite score computed in [float64] is within one part in
    [2^50] of the exact weighted sum, for non-negative components of at
    most 53 bits. *)
Lemma weighted_accurate q lh r s i :
  (0 <= q <= 2 ^ 53)%Z -> (0 <= lh <= 2 ^ 53)%Z -> (0 <= r <= 2 ^ 53)%Z ->
  (0 <= s <= 2 ^ 53)%Z -> (0 <= i <= 2 ^ 53)%Z ->
  exact_weighted q lh r s i * (1 - (1 # 2 ^ 50)) <= weighted q lh r s i
  /\ weighted q lh r s i <= exact_weighted q lh r s i * (1 + (1 # 2 ^ 50)).
Proof.
  intros Hq Hlh Hr Hs Hi. unfold weighted, exact_weighted, add, mul, of_int.
  destruct const_values as (-> & -> & -> & -> & ->).
  rewrite !round_Z by lia.
  unfold wQuality, wLinkHealth, wRecency, wSignificance, wImpact.
  assert (Hq' : 0 <= inject_Z q) by (change 0 with (inject_Z 0); rewrite <- Zle_Qle; lia).
  assert (Hlh' : 0 <= inject_Z lh) by (change 0 with (inject_Z 0); rewrite <- Zle_Qle; lia).
  assert (Hr' : 0 <= inject_Z r) by (change 0 with (inject_Z 0); rewrite <- Zle_Qle; lia).
  assert (Hs' : 0 <= inject_Z s) by (change 0 with (inject_Z 0); rewrite <- Zle_Qle; lia).
  assert (Hi' : 0 <= inject_Z i) by (change 0 with (inject_Z 0); rewrite <- Zle_Qle; lia).
  set (vq := inject_Z q) in *. set (vl := inject_Z lh) in *.
  set (vr := inject_Z r) in *. set (vs := inject_Z s) in *.
  set (vi := inject_Z i) in *.
  set (t1 := round (vq * _)). set (t2 := round (vl * _)).
  set (t3 := round (vr * _)). set (t4 := round (vs * _)).
  set (t5 := round (vi * _)).
  set (s1 := round (t1 + t2)). set (s2 := round (s1 + t3)).
  set (s3 := round (s2 + t4)). set (s4 := round (s3 + t5)).
  change (1 # 2 ^ 50) with (1 # 1125899906842624).
  assert (H1 := round_near (vq * (1 # 4))).
  assert (H2 := round_near (vl * (5404319552844595 # 36028797018963968))).
  assert (H3 := round_near (vr * (3602879701896397 # 18014398509481984))).
  assert (H4 := round_near (vs * (3602879701896397 # 18014398509481984))).
  assert (H5 := round_near (vi * (3602879701896397 # 18014398509481984))).
  fold t1 in H1. fold t2 in H2. fold t3 in H3. fold t4 in H4. fold t5 in H5.
  unfold unit_roundoff in *.
  destruct H1 as [H1a H1b]; [lra|]. destruct H2 as [H2a H2b]; [lra|].
  destruct H3 as [H3a H3b]; [lra|]. destruct H4 as [H4a H4b]; [lra|].
  destruct H5 as [H5a H5b]; [lra|].
  assert (G1 := round_near (t1 + t2)). fold s1 in G1. unfold unit_roundoff in G1.
  destruct G1 as [G1a G1b]; [lra|].
  assert (G2 := round_near (s1 + t3)). fold s2 in G2. unfold unit_roundoff in G2.
  destruct G2 as [G2a G2b]; [lra|].
  assert (G3 := round_near (s2 + t4)). fold s3 in G3. unfold unit_roundoff in G3.
  destruct G3 as [G3a G3b]; [lra|].
  assert (G4 := round_near (s3 + t5)). fold s4 in G4. unfold unit_roundoff in G4.
  destruct G4 as [G4a G4b]; [lra|].
  split; lra.
Qed.
End Accuracy.

Lemma weights_sum_to_one :
  (wQuality + wLinkHealth + wRecency + wSignificance + wImpact == 1)%Q.
Proof. reflexivity. Qed.

(** C4. The score that [Judge] attaches from a matched evaluation takes
    its four judged components from the evaluation and its link health from
    the checks; its [Overall] is 0.25·Quality + 0.15·LinkHealth +
    0.20·Recency + 0.20·Significance + 0.20·Impact as [float64] computes it,
    which for non-negative components is within one part in [2^50] of the
    exact sum; and the five weights add up to 1. *)
Theorem Judge_overall_weighted ToLower w results query verbose evals i mr eval :
  scoring_gives w evals ->
  results !! i = Some mr ->
  usable mr = true ->
  match_evaluation ToLower w i (build_evalMap evals) (ModelResult.Provider mr)
  = Some eval ->
  (wQuality + wLinkHealth + wRecency + wSignificance + wImpact == 1)%Q
  /\ exists out js,
       Judge ToLower w results query verbose = (out, None)
       /\ {| ModelResult.Provider := ModelResult.Provider mr;
             ModelResult.Result := ModelResult.Result mr;
             ModelResult.JudgeScore := Some js |} ∈ out
       /\ JudgeScore.Quality js = judgeEvaluation.Quality eval
       /\ JudgeScore.LinkHealth js
          = linkHealthScore
              (checks_of (validate_all w results)
                 (Name (ModelResult.Provider mr)))
       /\ JudgeScore.Recency js = judgeEvaluation.Recency eval
       /\ JudgeScore.Significance js = judgeEvaluation.Significance eval
       /\ JudgeScore.Impact js = judgeEvaluation.Impact eval
       /\ JudgeScore.Overall js
          = weighted (JudgeScore.Quality js) (JudgeScore.LinkHealth js)
              (JudgeScore.Recency js) (JudgeScore.Significance js)
              (JudgeScore.Impact js)
       /\ (0 <= JudgeScore.Quality js <= 2 ^ 53 ->
           0 <= JudgeScore.Recency js <= 2 ^ 53 ->
           0 <= JudgeScore.Significance js <= 2 ^ 53 ->
           0 <= JudgeScore.Impact js <= 2 ^ 53 ->
           let exact :=
             exact_weighted (JudgeScore.Quality js) (JudgeScore.LinkHealth js)
               (JudgeScore.Recency js) (JudgeScore.Significance js)
               (JudgeScore.Impact js) in
           (exact * (1 - (1 # 2 ^ 50)) <= JudgeScore.Overall js
            /\ JudgeScore.Overall js <= exact * (1 + (1 # 2 ^ 50)))%Q).
Proof.
  intros Hs Hi Hu Hm. split; [apply weights_sum_to_one|].
  destruct (Judge_output_elem ToLower w results query verbose evals i mr Hs Hi Hu)
    as (out & HJ & Hin).
  unfold attach in Hin. rewrite Hu, Hm in Hin.
  eexists out, _. split; [exact HJ|]. split; [exact Hin|].
  cbn [score_of JudgeScore.Quality JudgeScore.LinkHealth JudgeScore.Recency
         JudgeScore.Significance JudgeScore.Impact JudgeScore.Overall].
  repeat (split; [reflexivity|]).
  intros Hq Hr Hsg Him. apply weighted_accurate; try done.
  pose proof (linkHealthScore_range
                (checks_of (validate_all w results)
                   (Name (ModelResult.Provider mr)))) as Hr'.
  lia.
Qed.

Lemma Sample_world_well_behaved reply : well_behaved (Sample.world reply).
Proof. split; [apply fair_in_order|]. intros i l. reflexivity. Qed.

Lemma Sample_scoring_gives :
  scoring_gives (Sample.world Sample.scored_claude) [Sample.claude_evaluation].
Proof. eexists. split; [reflexivity|]. split; [reflexivity|discriminate]. Qed.

Lemma Judge_overall_weighted_witness :
  exists out js,
    Judge ToLower_ascii (Sample.world Sample.scored_claude)
      [Sample.fresh Sample.grok; Sample.fresh Sample.claude] "X" false
    = (out, None)
    /\ {| ModelResult.Provider := Sample.claude;
          ModelResult.Result := Sample.paris;
          ModelResult.JudgeScore := Some js |} ∈ out
    /\ JudgeScore.Overall js
       = weighted (JudgeScore.Quality js) (JudgeScore.LinkHealth js)
           (JudgeScore.Recency js) (JudgeScore.Significance js)
           (JudgeScore.Impact js).
Proof.
  destruct (Judge_overall_weighted ToLower_ascii
              (Sample.world Sample.scored_claude)
              [Sample.fresh Sample.grok; Sample.fresh Sample.claude]
              "X" false [Sample.claude_evaluation] 1%nat
              (Sample.fresh Sample.claude) Sample.claude_evaluation
              Sample_scoring_gives eq_refl eq_refl eq_refl)
    as (_ & out & js & HJ & Hin & _ & _ & _ & _ & _ & Hov & _).
  exists out, js. split; [exact HJ|]. split; [exact Hin|exact Hov].
Defined.

Lemma Judge_fallback_witness :
  exists out,
    Judge ToLower_ascii (Sample.world Sample.scored_claude)
      [Sample.fresh Sample.claude; Sample.fresh Sample.nova] "X" false
    = (out, None)
    /\ {| ModelResult.Provider := Sample.nova;
          ModelResult.Result := Sample.paris;
          ModelResult.JudgeScore :=
            Some {| JudgeScore.Quality := 0;
                    JudgeScore.LinkHealth := 10;
                    JudgeScore.Recency := 0;
                    JudgeScore.Significance := 0;
                    JudgeScore.Impact := 0;
                    JudgeScore.Overall := 10%Q;
                    JudgeScore.Reasoning := no_evaluation |} |} ∈ out.
Proof.
  refine (proj1 (Judge_fallback ToLower_ascii
                   (Sample.world Sample.scored_claude)
                   [Sample.fresh Sample.claude; Sample.fresh Sample.nova]
                   "X" false [Sample.claude_evaluation] 1%nat
                   (Sample.fresh Sample.nova) _ _ _ _ _)).
  - apply Sample_world_well_behaved.
  - apply Sample_scoring_gives.
  - reflexivity.
  - reflexivity.
  - intros e He. apply list_elem_of_singleton in He. subst e.
    split; [discriminate|reflexivity].
Defined.

(** ** Sorting up to twelve elements: insertion sort *)

Section InsertionFacts.
Context {A : Type} (key : A -> Z) (less : A -> A -> bool).
Hypothesis less_key : forall x y, less x y = (key y <? key x).

Lemma Less_adjacent (pre post : list A) x y :
  Less less (pre ++ y :: x :: post) (S (length pre)) (length pre) = less x y.
Proof.
  unfold Less.
  rewrite (lookup_app_r pre) by lia. rewrite (lookup_app_r pre) by lia.
  replace (S (length pre) - length pre)%nat with 1%nat by lia.
  by rewrite Nat.sub_diag.
Qed.

Lemma Swap_adjacent (pre post : list A) x y :
  Swap (pre ++ y :: x :: post) (S (length pre)) (length pre)
  = pre ++ x :: y :: post.
Proof.
  unfold Swap.
  rewrite (lookup_app_r pre) by lia. rewrite (lookup_app_r pre) by lia.
  replace (S (length pre) - length pre)%nat with 1%nat by lia.
  rewrite Nat.sub_diag. simpl.
  rewrite (insert_app_r_alt pre) by lia.
  replace (S (length pre) - length pre)%nat with 1%nat by lia. simpl.
  rewrite (insert_app_r_alt pre) by lia.
  by rewrite Nat.sub_diag.
Qed.

(** The inner loop moves the new element left past the elements it is
    less than, and stops at the first one it is not less than. *)
Lemma insert_left_moves (l2 l1 post : list A) x :
  Forall (fun y => less x y = true) l2 ->
  (forall z, last l1 = Some z -> less x z = false) ->
  insert_left less 0 (length (l1 ++ l2)) (l1 ++ l2 ++ x :: post)
  = l1 ++ x :: l2 ++ post.
Proof.
  revert post. induction l2 as [|y l2 IH] using rev_ind; intros post Hl2 Hl1.
  - rewrite app_nil_r. simpl.
    destruct l1 as [|z0 l1 _] using rev_ind; [done|].
    rewrite length_app. simpl. rewrite Nat.add_1_r. simpl.
    rewrite <- app_assoc. simpl. rewrite Less_adjacent.
    rewrite (Hl1 z0) by apply last_snoc. done.
  - apply Forall_app in Hl2 as [Hl2 Hy]. rewrite Forall_singleton in Hy.
    rewrite !length_app. simpl. rewrite Nat.add_1_r, Nat.add_succ_r. simpl.
    rewrite <- !app_assoc. simpl.
    rewrite (app_assoc l1 l2). rewrite <- (length_app l1 l2).
    rewrite Less_adjacent, Hy, Swap_adjacent.
    replace ((l1 ++ l2) ++ x :: y :: post) with (l1 ++ l2 ++ x :: y :: post)
      by (by rewrite app_assoc).
    by rewrite (IH (y :: post)).
Qed.

Lemma insert_stable_splits (l1 l2 : list A) x :
  Forall (fun y => less x y = false) l1 ->
  (forall y, head l2 = Some y -> less x y = true) ->
  insert_stable less x (l1 ++ l2) = l1 ++ x :: l2.
Proof.
  intros H1 H2. induction H1 as [|z l1 Hz _ IH]; simpl.
  - destruct l2 as [|y l2]; [done|]. simpl. by rewrite (H2 y).
  - by rewrite Hz, IH.
Qed.

(** A sorted list splits into the elements a new one is not less than
    and those it is less than. *)
Lemma sorted_desc_splits (l : list A) x :
  sorted_desc key l ->
  exists l1 l2,
    l = l1 ++ l2
    /\ Forall (fun y => less x y = false) l1
    /\ Forall (fun y => less x y = true) l2.
Proof.
  induction 1 as [|y l Hl IH Hy].
  - exists [], []. done.
  - destruct (less x y) eqn:Hxy.
    + exists [], (y :: l). split; [done|]. split; [done|].
      constructor; [done|]. rewrite less_key in Hxy.
      apply Z.ltb_lt in Hxy. eapply Forall_impl; [apply Hy|].
      intros z Hz. simpl in Hz. rewrite less_key. apply Z.ltb_lt. lia.
    + destruct IH as (l1 & l2 & -> & H1 & H2).
      exists (y :: l1), l2. split; [done|]. split; [|done]. by constructor.
Qed.

Lemma insert_left_stable (done post : list A) x :
  sorted_desc key done ->
  insert_left less 0 (length done) (done ++ x :: post)
  = insert_stable less x done ++ post.
Proof.
  intros Hs. destruct (sorted_desc_splits done x Hs) as (l1 & l2 & -> & H1 & H2).
  rewrite insert_stable_splits; [|done|].
  - rewrite <- !app_assoc. simpl. rewrite <- insert_left_moves; [|done|].
    + done.
    + intros z Hz. rewrite Forall_forall in H1. apply H1.
      apply last_Some in Hz as [l' ->]. apply elem_of_app. right.
      apply list_elem_of_here.
  - intros y Hy. destruct l2; [done|]. inversion Hy; subst.
    by apply Forall_cons in H2 as [? _].
Qed.

Lemma insert_stable_sorted (l : list A) x :
  sorted_desc key l -> sorted_desc key (insert_stable less x l).
Proof.
  induction 1 as [|y l Hl IH Hy]; simpl.
  - repeat constructor.
  - destruct (less x y) eqn:Hxy; rewrite less_key in Hxy.
    + apply Z.ltb_lt in Hxy. constructor; [by constructor|].
      constructor; [lia|]. eapply Forall_impl; [apply Hy|].
      intros z Hz. simpl in *. lia.
    + apply Z.ltb_ge in Hxy. constructor; [done|].
      rewrite (insert_stable_perm less x l). by constructor.
Qed.

Lemma foldl_insert_sorted (l acc : list A) :
  sorted_desc key acc ->
  sorted_desc key (foldl (fun sorted x => insert_stable less x sorted) acc l).
Proof.
  revert acc. induction l as [|x l IH]; intros acc Hacc; simpl; [done|].
  apply IH. by apply insert_stable_sorted.
Qed.

Lemma SliceStable_sorted (l : list A) : sorted_desc key (SliceStable less l).
Proof. apply foldl_insert_sorted. constructor. Qed.

Lemma filter_none (P : A -> Prop) `{!forall y, Decision (P y)} (l : list A) :
  Forall (fun y => ~ P y) l -> filter P l = [].
Proof.
  induction 1 as [|y l Hy _ IH]; [done|].
  by rewrite filter_cons, decide_False.
Qed.

(** Insertion behind the elements of the same key. *)
Lemma insert_stable_filter (l : list A) x s :
  sorted_desc key l ->
  filter (fun y => key y = s) (insert_stable less x l)
  = filter (fun y => key y = s) l ++ filter (fun y => key y = s) [x].
Proof.
  induction 1 as [|y l Hl IH Hy]; simpl; [done|].
  destruct (less x y) eqn:Hxy; rewrite less_key in Hxy.
  - apply Z.ltb_lt in Hxy.
    rewrite (filter_cons _ x), (filter_cons _ x []).
    destruct (decide (key x = s)) as [Hx|Hx]; [|by rewrite app_nil_r].
    assert (Hnone : filter (fun y => key y = s) (y :: l) = []).
    { apply filter_none. constructor; [simpl; lia|].
      eapply Forall_impl; [apply Hy|]. intros z Hz. simpl in *. lia. }
    by rewrite Hnone.
  - rewrite !(filter_cons _ y), IH. by destruct (decide (key y = s)).
Qed.

Lemma foldl_insert_filter (l acc : list A) s :
  sorted_desc key acc ->
  filter (fun y => key y = s)
         (foldl (fun sorted x => insert_stable less x sorted) acc l)
  = filter (fun y => key y = s) acc ++ filter (fun y => key y = s) l.
Proof.
  revert acc. induction l as [|x l IH]; intros acc Hacc; simpl.
  - by rewrite app_nil_r.
  - rewrite IH by (by apply insert_stable_sorted).
    rewrite insert_stable_filter by done.
    rewrite <- app_assoc. f_equal.
    rewrite (filter_cons _ x l). rewrite (filter_cons _ x []).
    by destruct (decide (key x = s)).
Qed.

Lemma SliceStable_ties (l : list A) : ties_in_order key l (SliceStable less l).
Proof.
  intros s. unfold SliceStable. rewrite foldl_insert_filter by constructor.
  done.
Qed.

Lemma foldl_insert_left (rest done : list A) :
  sorted_desc key done ->
  foldl (fun data i => insert_left less 0 i data) (done ++ rest)
        (seq (length done) (length rest))
  = foldl (fun sorted x => insert_stable less x sorted) done rest.
Proof.
  revert done. induction rest as [|x rest IH]; intros dn Hs; simpl.
  - by rewrite app_nil_r.
  - rewrite insert_left_stable by done.
    assert (Hlen : length (insert_stable less x dn) = S (length dn)).
    { by rewrite (insert_stable_perm less x dn). }
    rewrite <- Hlen. apply IH. by apply insert_stable_sorted.
Qed.

(** Insertion sort in place computes the stable sort. *)
Lemma insertionSort_stable (data : list A) :
  insertionSort less data 0 (length data) = SliceStable less data.
Proof.
  unfold insertionSort, SliceStable. destruct data as [|x data]; [done|].
  simpl. rewrite Nat.sub_0_r.
  apply (foldl_insert_left data [x]). repeat constructor.
Qed.

Lemma sort_Slice_small next (data : list A) :
  (length data <= maxInsertion)%nat ->
  sort_Slice less next data = SliceStable less data.
Proof.
  intros Hlen. unfold sort_Slice. simpl.
  rewrite Nat.sub_0_r. apply Nat.leb_le in Hlen. rewrite Hlen.
  apply insertionSort_stable.
Qed.
End InsertionFacts.

(** ** Sorting beyond twelve elements: pattern-defeating quicksort *)

Section SwapFacts.
Context {A : Type} `{!Inhabited A} (key : A -> Z) (less : A -> A -> bool).
Hypothesis less_key : forall x y, less x y = (key y <? key x).

Lemma Swap_length (d : list A) i j : length (Swap d i j) = length d.
Proof.
  unfold Swap. destruct (d !! i), (d !! j); try done.
  by rewrite !length_insert.
Qed.

Lemma Swap_lookup (d : list A) i j k :
  (i < length d)%nat -> (j < length d)%nat ->
  Swap d i j !!! k
  = if decide (k = j) then d !!! i
    else if decide (k = i) then d !!! j else d !!! k.
Proof.
  intros Hi Hj. unfold Swap.
  rewrite (list_lookup_lookup_total_lt d i Hi).
  rewrite (list_lookup_lookup_total_lt d j Hj).
  destruct (decide (k = j)) as [->|Hkj].
  - apply list_lookup_total_insert_eq. by rewrite length_insert.
  - rewrite list_lookup_total_insert_ne by done.
    destruct (decide (k = i)) as [->|Hki].
    + by apply list_lookup_total_insert_eq.
    + by rewrite list_lookup_total_insert_ne.
Qed.

Lemma Swap_key (d : list A) i j k :
  (i < length d)%nat -> (j < length d)%nat ->
  key_at key (Swap d i j) k
  = if decide (k = j) then key_at key d i
    else if decide (k = i) then key_at key d j else key_at key d k.
Proof.
  intros Hi Hj. unfold key_at. rewrite Swap_lookup by done.
  by repeat case_decide.
Qed.

Lemma Less_key (d : list A) i j :
  (i < length d)%nat -> (j < length d)%nat ->
  Less less d i j = (key_at key d j <? key_at key d i).
Proof.
  intros Hi Hj. unfold Less, key_at.
  rewrite (list_lookup_lookup_total_lt d i Hi).
  rewrite (list_lookup_lookup_total_lt d j Hj).
  apply less_key.
Qed.

Lemma Swap_perm (d : list A) i j : Permutation (Swap d i j) d.
Proof.
  unfold Swap.
  destruct (d !! i) as [x|] eqn:Hi; [|done].
  destruct (d !! j) as [y|] eqn:Hj; [|done].
  destruct (decide (i = j)) as [->|Hne].
  - rewrite Hi in Hj. inversion Hj; subst y.
    rewrite list_insert_insert_eq. by rewrite list_insert_id.
  - symmetry. apply Permutation_inj. split; [by rewrite !length_insert|].
    exists (fun k => if decide (k = i) then j else if decide (k = j) then i else k).
    split.
    + intros k1 k2. repeat case_decide; lia.
    + intros k. repeat case_decide; subst.
      * rewrite list_lookup_insert_eq; [done|].
        rewrite length_insert. by apply lookup_lt_Some in Hj.
      * rewrite list_lookup_insert_ne by done.
        rewrite list_lookup_insert_eq; [done|]. by apply lookup_lt_Some in Hi.
      * by rewrite !list_lookup_insert_ne.
Qed.

(** *** Rearrangements within a range *)

Lemma range_perm_one a b (d : list A) i j :
  (a <= i < b)%nat -> (a <= j < b)%nat -> (b <= length d)%nat ->
  range_perm a b d (Swap d i j).
Proof.
  intros Hi Hj Hb. apply (range_perm_swap a b d i j); [done|done|done|].
  constructor.
Qed.

Lemma range_perm_trans a b (d1 d2 d3 : list A) :
  range_perm a b d1 d2 -> range_perm a b d2 d3 -> range_perm a b d1 d3.
Proof.
  induction 1 as [|d i j d' Hi Hj Hb _ IH]; [done|].
  intros H. apply (range_perm_swap a b d i j); auto.
Qed.

Lemma range_perm_length a b (d d' : list A) :
  range_perm a b d d' -> length d' = length d.
Proof.
  induction 1 as [|d i j d' Hi Hj Hb _ IH]; [done|].
  by rewrite IH, Swap_length.
Qed.

Lemma range_perm_widen a b a' b' (d d' : list A) :
  (a' <= a)%nat -> (b <= b')%nat -> (b' <= length d)%nat ->
  range_perm a b d d' -> range_perm a' b' d d'.
Proof.
  intros Ha Hb Hlen H. induction H as [|d i j d' Hi Hj Hbd _ IH]; [constructor|].
  apply (range_perm_swap a' b' d i j); [lia|lia|done|].
  apply IH. by rewrite Swap_length.
Qed.

Lemma range_perm_perm a b (d d' : list A) :
  range_perm a b d d' -> Permutation d' d.
Proof.
  induction 1 as [|d i j d' Hi Hj Hb _ IH]; [done|].
  etrans; [apply IH|apply Swap_perm].
Qed.

Lemma range_perm_outside a b (d d' : list A) k :
  range_perm a b d d' -> (k < a \/ b <= k)%nat -> d' !!! k = d !!! k.
Proof.
  induction 1 as [|d i j d' Hi Hj Hb _ IH]; [done|].
  intros Hk. rewrite IH by done. rewrite Swap_lookup by lia.
  repeat case_decide; try done; lia.
Qed.

Lemma range_perm_all a b (d d' : list A) (P : A -> Prop) :
  range_perm a b d d' ->
  (forall k, (a <= k < b)%nat -> P (d !!! k)) ->
  forall k, (a <= k < b)%nat -> P (d' !!! k).
Proof.
  induction 1 as [|d i j d' Hi Hj Hb _ IH]; [done|].
  intros HP. apply IH. intros k Hk. rewrite Swap_lookup by lia.
  repeat case_decide; apply HP; lia.
Qed.

Lemma range_perm_below_pred a b (d d' : list A) :
  range_perm a b d d' -> below_pred key d a b -> below_pred key d' a b.
Proof.
  intros Hp Hb Ha i Hi. unfold key_at.
  rewrite (range_perm_outside a b d d' (a - 1)) by (done || lia).
  apply (range_perm_all a b d d'
           (fun x => key x <= key (d !!! (a - 1)%nat)) Hp); [|done].
  intros k Hk. by apply Hb.
Qed.
End SwapFacts.

Section RangeSort.
Context {A : Type} `{!Inhabited A} (key : A -> Z) (less : A -> A -> bool).
Hypothesis less_key : forall x y, less x y = (key y <? key x).

#[local] Abbreviation K := (key_at key).
#[local] Abbreviation LessK := (Less_key key less less_key).
#[local] Abbreviation SwapK := (Swap_key key).

(** *** Insertion sort on a range *)

Lemma insert_left_sorts j : forall a top (d : list A),
  (a <= j)%nat -> (j <= top)%nat -> (top < length d)%nat ->
  sorted_range key d a j ->
  (forall i m, (a <= i < j)%nat -> (j < m <= top)%nat -> K d m <= K d i) ->
  sorted_range key d (j + 1) (top + 1) ->
  (forall m, (j < m <= top)%nat -> K d m < K d j) ->
  range_perm a (top + 1) d (insert_left less a j d)
  /\ sorted_range key (insert_left less a j d) a (top + 1).
Proof.
  induction j as [|j IH]; intros a top d Ha Htop Hlen Hlo Hcross Hhi Hj; simpl.
  - split; [constructor|]. intros i m Hi Him Hm.
    destruct (decide (i = 0%nat)) as [->|Hi0].
    + apply Z.lt_le_incl, Hj. lia.
    + apply Hhi; lia.
  - destruct ((a <? S j)%nat && Less less d (S j) j) eqn:Hc.
    + apply andb_true_iff in Hc as [Haj Hless].
      apply Nat.ltb_lt in Haj. rewrite LessK in Hless by lia.
      apply Z.ltb_lt in Hless.
      destruct (IH a top (Swap d (S j) j)) as [Hp Hs].
      * lia.
      * lia.
      * by rewrite Swap_length.
      * intros i m Hi Him Hm. rewrite !SwapK by lia.
        repeat case_decide; try lia. apply Hlo; lia.
      * intros i m Hi Hm. rewrite !SwapK by lia.
        repeat case_decide; try lia.
        -- apply Hlo; lia.
        -- apply Hcross; lia.
      * intros i m Hi Him Hm. rewrite !SwapK by lia.
        repeat case_decide; try lia.
        -- apply Hcross; lia.
        -- apply Hhi; lia.
      * intros m Hm. rewrite !SwapK by lia.
        repeat case_decide; try lia. apply Hj. lia.
      * split; [|done].
        apply (range_perm_swap a (top + 1) d (S j) j); [lia|lia|lia|done].
    + split; [constructor|].
      assert (Hstop : a = S j \/ K d (S j) <= K d j).
      { apply andb_false_iff in Hc as [Hc|Hc].
        - apply Nat.ltb_ge in Hc. left. lia.
        - right. rewrite LessK in Hc by lia. by apply Z.ltb_ge in Hc. }
      intros i m Hi Him Hm.
      destruct (Nat.lt_trichotomy m (S j)) as [Hlt|[->|Hgt]].
      * apply Hlo; lia.
      * destruct Hstop as [->|Hstop]; [lia|].
        destruct (decide (i = j)) as [->|Hij]; [done|].
        etrans; [apply Hstop|]. apply Hlo; lia.
      * destruct (Nat.lt_trichotomy i (S j)) as [Hlt'|[->|Hgt']].
        -- apply Hcross; lia.
        -- apply Z.lt_le_incl, Hj. lia.
        -- apply Hhi; lia.
Qed.

Lemma insert_left_step a i (d : list A) :
  (a <= i)%nat -> (i < length d)%nat ->
  sorted_range key d a i ->
  range_perm a (i + 1) d (insert_left less a i d)
  /\ sorted_range key (insert_left less a i d) a (i + 1).
Proof.
  intros Ha Hi Hs. apply insert_left_sorts; try done; try lia.
  all: unfold sorted_range; intros; lia.
Qed.

Lemma insertionSort_range n : forall a (d : list A) i,
  (a <= i)%nat -> (i + n <= length d)%nat ->
  sorted_range key d a i ->
  let d' := foldl (fun data i => insert_left less a i data) d (seq i n) in
  range_perm a (i + n) d d' /\ sorted_range key d' a (i + n).
Proof.
  induction n as [|n IH]; intros a d i Ha Hlen Hs; simpl.
  - rewrite Nat.add_0_r. split; [constructor|done].
  - destruct (insert_left_step a i d) as [Hp Hs']; [lia|lia|done|].
    destruct (IH a (insert_left less a i d) (S i)) as [Hp2 Hs2].
    + lia.
    + rewrite (range_perm_length _ _ _ _ Hp). lia.
    + by rewrite Nat.add_1_r in Hs'.
    + replace (i + S n)%nat with (S i + n)%nat by lia. split; [|done].
      eapply range_perm_trans; [|apply Hp2].
      eapply range_perm_widen; [| | |apply Hp]; lia.
Qed.

Lemma insertionSort_sorts a b (d : list A) :
  (a <= b)%nat -> (b <= length d)%nat ->
  range_perm a b d (insertionSort less d a b)
  /\ sorted_range key (insertionSort less d a b) a b.
Proof.
  intros Hab Hb. unfold insertionSort.
  destruct (decide (a = b)) as [->|Hne].
  { replace (b - (b + 1))%nat with 0%nat by lia. simpl.
    split; [constructor|]. intros i j. lia. }
  pose proof (insertionSort_range (b - (a + 1)) a d (a + 1)) as H.
  replace (a + 1 + (b - (a + 1)))%nat with b in H by lia.
  apply H; [lia|lia|]. intros i j. lia.
Qed.
End RangeSort.

Section Partition.
Context {A : Type} `{!Inhabited A} (key : A -> Z) (less : A -> A -> bool).
Hypothesis less_key : forall x y, less x y = (key y <? key x).

#[local] Abbreviation K := (key_at key).
#[local] Abbreviation LessK := (Less_key key less less_key).
#[local] Abbreviation SwapK := (Swap_key key).

(** *** The scans *)

Lemma scan_up_spec turns : forall (p : nat -> bool) i j,
  (j + 1 - i <= turns)%nat ->
  (i <= scan_up turns p i j)%nat
  /\ (i <= j + 1 -> scan_up turns p i j <= j + 1)%nat
  /\ (forall k, (i <= k < scan_up turns p i j)%nat -> p k = true)
  /\ ((scan_up turns p i j <= j)%nat -> p (scan_up turns p i j) = false).
Proof.
  induction turns as [|turns IH]; intros p i j Ht; simpl.
  - repeat split; intros; lia.
  - destruct ((i <=? j)%nat && p i) eqn:Hc.
    + apply andb_true_iff in Hc as [Hij Hp]. apply Nat.leb_le in Hij.
      destruct (IH p (S i) j) as (H1 & H2 & H3 & H4); [lia|].
      repeat split; try lia; [|done].
      intros k Hk. destruct (decide (k = i)) as [->|Hne]; [done|].
      apply H3. lia.
    + repeat split; try lia.
      intros Hij. apply andb_false_iff in Hc as [Hc|Hc]; [|done].
      apply Nat.leb_gt in Hc. lia.
Qed.

Lemma scan_down_spec j : forall (p : nat -> bool) i,
  (1 <= i)%nat ->
  (scan_down p i j <= j)%nat
  /\ (i <= j + 1 -> i <= scan_down p i j + 1)%nat
  /\ (forall k, (scan_down p i j < k <= j)%nat -> p k = true)
  /\ ((i <= scan_down p i j)%nat -> p (scan_down p i j) = false).
Proof.
  induction j as [|j IH]; intros p i Hi; simpl.
  - repeat split; intros; lia.
  - destruct ((i <=? S j)%nat && p (S j)) eqn:Hc.
    + apply andb_true_iff in Hc as [Hij Hp]. apply Nat.leb_le in Hij.
      destruct (IH p i Hi) as (H1 & H2 & H3 & H4).
      repeat split; try lia; [|done].
      intros k Hk. destruct (decide (k = S j)) as [->|Hne]; [done|].
      apply H3. lia.
    + repeat split; try lia.
      intros Hij. apply andb_false_iff in Hc as [Hc|Hc]; [|done].
      apply Nat.leb_gt in Hc. lia.
Qed.

(** *** Partition around a pivot *)

Lemma scan_round (d : list A) a b i j P :
  split_at key d a b i j P ->
  let i' := scan_up (S j - i) (fun k => Less less d k a) i j in
  let j' := scan_down (fun k => negb (Less less d k a)) i' j in
  split_at key d a b i' j' P
  /\ (i <= i')%nat /\ (j' <= j)%nat
  /\ ((i' <= j')%nat -> K d i' <= P /\ P < K d j').
Proof.
  intros (Hlen & HP & Hai & Hjb & Hij & Hl & Hr) i' j'.
  destruct (scan_up_spec (S j - i) (fun k => Less less d k a) i j)
    as (U1 & U2 & U3 & U4); [lia|].
  fold i' in U1, U2, U3, U4.
  destruct (scan_down_spec j (fun k => negb (Less less d k a)) i')
    as (D1 & D2 & D3 & D4); [lia|].
  fold j' in D1, D2, D3, D4.
  assert (Hleft : forall k, (a < k < i')%nat -> P < K d k).
  { intros k Hk. destruct (decide (k < i)%nat) as [Hlt|Hge]; [apply Hl; lia|].
    specialize (U3 k). rewrite LessK in U3 by lia. rewrite HP in U3.
    apply Z.ltb_lt, U3. lia. }
  assert (Hright : forall k, (j' < k < b)%nat -> K d k <= P).
  { intros k Hk. destruct (decide (j < k)%nat) as [Hlt|Hge]; [apply Hr; lia|].
    specialize (D3 k). rewrite LessK in D3 by lia. rewrite HP in D3.
    apply Z.ltb_ge. apply negb_true_iff, D3. lia. }
  split; [|split; [done|split; [done|]]].
  - repeat split; try done; lia.
  - intros Hle. split.
    + specialize (U4 ltac:(lia)). rewrite LessK in U4 by lia.
      rewrite HP in U4. by apply Z.ltb_ge.
    + specialize (D4 Hle). rewrite LessK in D4 by lia. rewrite HP in D4.
      apply negb_false_iff in D4. by apply Z.ltb_lt.
Qed.

Lemma split_at_swap (d : list A) a b i j P :
  split_at key d a b i j P -> (i <= j)%nat ->
  K d i <= P -> P < K d j ->
  split_at key (Swap d i j) a b (S i) (j - 1) P.
Proof.
  intros (Hlen & HP & Hai & Hjb & Hij & Hl & Hr) Hle Hi Hj.
  assert (i <> j) by (intros ->; lia).
  repeat split.
  - by rewrite Swap_length.
  - rewrite SwapK by lia. repeat case_decide; try lia; done.
  - lia.
  - lia.
  - lia.
  - intros k Hk. rewrite SwapK by lia. repeat case_decide; try lia.
    apply Hl. lia.
  - intros k Hk. rewrite SwapK by lia. repeat case_decide; try lia.
    apply Hr. lia.
Qed.

Lemma partition_loop_spec turns : forall (d : list A) a b i j P,
  split_at key d a b i j P -> (j + 1 - i <= turns)%nat ->
  let r := partition_loop less turns d a i j in
  range_perm a b d r.1
  /\ (a <= r.2 < b)%nat
  /\ split_at key r.1 a b (S r.2) r.2 P.
Proof.
  induction turns as [|turns IH]; intros d a b i j P Hs Ht; simpl.
  - destruct Hs as (Hlen & HP & Hai & Hjb & Hij & Hl & Hr).
    split; [constructor|]. split; [lia|].
    repeat split; try done; try lia. intros k Hk. apply Hl. lia.
  - destruct (scan_round d a b i j P Hs) as (Hs' & Hi & Hj & Hstop).
    set (i' := scan_up (S j - i) (fun k => Less less d k a) i j) in *.
    set (j' := scan_down (fun k => negb (Less less d k a)) i' j) in *.
    destruct (j' <? i')%nat eqn:Hc.
    + apply Nat.ltb_lt in Hc. simpl.
      destruct Hs' as (Hlen & HP & Hai & Hjb & Hij & Hl & Hr).
      split; [constructor|]. split; [lia|].
      repeat split; try done; try lia. intros k Hk. apply Hl. lia.
    + apply Nat.ltb_ge in Hc. destruct (Hstop Hc) as [Hki Hkj].
      pose proof (split_at_swap d a b i' j' P Hs' Hc Hki Hkj) as Hs2.
      destruct Hs' as (Hlen & HP & Hai & Hjb & Hij & Hl & Hr).
      destruct (IH (Swap d i' j') a b (S i') (j' - 1)%nat P Hs2) as (R1 & R2 & R3);
        [lia|].
      split; [|done].
      apply (range_perm_swap a b d i' j'); [lia|lia|lia|done].
Qed.

(** [partition] leaves the pivot at the index it returns, the greater
    keys before it and the others after it. *)
Lemma partition_spec (d : list A) a b pivot :
  (a <= pivot < b)%nat -> (b <= length d)%nat ->
  let r := partition less d a b pivot in
  let d' := r.1.1 in
  let mid := r.1.2 in
  range_perm a b d d'
  /\ (a <= mid < b)%nat
  /\ (forall k, (a <= k < mid)%nat -> K d' mid < K d' k)
  /\ (forall k, (mid < k < b)%nat -> K d' k <= K d' mid).
Proof.
  intros Hp Hb. unfold partition.
  set (d1 := Swap d a pivot).
  assert (Hp1 : range_perm a b d d1) by (apply range_perm_one; lia).
  assert (Hlen1 : length d1 = length d) by apply Swap_length.
  set (P := K d1 a).
  assert (Hs0 : split_at key d1 a b (a + 1) (b - 1) P).
  { repeat split; try done; try lia; intros k Hk; lia. }
  destruct (scan_round d1 a b (a + 1) (b - 1) P Hs0) as (Hs' & Hi & Hj & Hstop).
  replace (S (b - 1) - (a + 1))%nat with (S (b - 1) - (a + 1))%nat in * by done.
  set (i' := scan_up (S (b - 1) - (a + 1)) (fun k => Less less d1 k a) (a + 1) (b - 1)) in *.
  set (j' := scan_down (fun k => negb (Less less d1 k a)) i' (b - 1)) in *.
  assert (Hfinish : forall (d2 : list A) m,
            range_perm a b d d2 -> (a <= m < b)%nat ->
            split_at key d2 a b (S m) m P ->
            range_perm a b d (Swap d2 m a)
            /\ (a <= m < b)%nat
            /\ (forall k, (a <= k < m)%nat -> K (Swap d2 m a) m < K (Swap d2 m a) k)
            /\ (forall k, (m < k < b)%nat -> K (Swap d2 m a) k <= K (Swap d2 m a) m)).
  { intros d2 m Hp2 Hm (Hlen & HP & Hai & Hjb & Hij & Hl & Hr).
    split; [|split; [done|split]].
    - eapply range_perm_trans; [apply Hp2|]. apply range_perm_one; lia.
    - intros k Hk. rewrite !SwapK by lia.
      repeat case_decide; subst; try lia; rewrite ?HP; apply Hl; lia.
    - intros k Hk. rewrite !SwapK by lia.
      repeat case_decide; subst; try lia; rewrite ?HP; apply Hr; lia. }
  destruct (j' <? i')%nat eqn:Hc.
  - apply Nat.ltb_lt in Hc. cbn [fst snd].
    destruct Hs' as (Hlen & HP & Hai & Hjb & Hij & Hl & Hr).
    apply Hfinish; [done|lia|].
    repeat split; try done; try lia. intros k Hk. apply Hl. lia.
  - apply Nat.ltb_ge in Hc. destruct (Hstop Hc) as [Hki Hkj].
    pose proof (split_at_swap d1 a b i' j' P Hs' Hc Hki Hkj) as Hs2.
    destruct Hs' as (Hlen & HP & Hai & Hjb & Hij & Hl & Hr).
    destruct (partition_loop_spec (b - a) (Swap d1 i' j') a b (S i') (j' - 1)%nat P Hs2)
      as (R1 & R2 & R3); [lia|].
    destruct (partition_loop less (b - a) (Swap d1 i' j') a (S i') (j' - 1))
      as [d3 m] eqn:Hloop.
    cbn [fst snd] in *. apply Hfinish; [|done|done].
    eapply range_perm_trans; [apply Hp1|].
    apply (range_perm_swap a b d1 i' j'); [lia|lia|lia|done].
Qed.

(** *** Partition into equal and smaller keys *)

Lemma scan_round_equal (d : list A) a b i j P :
  split_equal key d a b i j P ->
  let i' := scan_up (S j - i) (fun k => negb (Less less d a k)) i j in
  let j' := scan_down (fun k => Less less d a k) i' j in
  split_equal key d a b i' j' P
  /\ (i <= i')%nat /\ (j' <= j)%nat
  /\ ((i' <= j')%nat -> K d i' < P /\ P <= K d j').
Proof.
  intros (Hlen & HP & Hai & Hjb & Hij & Hl & Hr) i' j'.
  destruct (scan_up_spec (S j - i) (fun k => negb (Less less d a k)) i j)
    as (U1 & U2 & U3 & U4); [lia|].
  fold i' in U1, U2, U3, U4.
  destruct (scan_down_spec j (fun k => Less less d a k) i')
    as (D1 & D2 & D3 & D4); [lia|].
  fold j' in D1, D2, D3, D4.
  assert (Hleft : forall k, (a < k < i')%nat -> P <= K d k).
  { intros k Hk. destruct (decide (k < i)%nat) as [Hlt|Hge]; [apply Hl; lia|].
    specialize (U3 k). rewrite LessK in U3 by lia. rewrite HP in U3.
    apply Z.ltb_ge. apply negb_true_iff, U3. lia. }
  assert (Hright : forall k, (j' < k < b)%nat -> K d k < P).
  { intros k Hk. destruct (decide (j < k)%nat) as [Hlt|Hge]; [apply Hr; lia|].
    specialize (D3 k). rewrite LessK in D3 by lia. rewrite HP in D3.
    apply Z.ltb_lt, D3. lia. }
  split; [|split; [done|split; [done|]]].
  - repeat split; try done; lia.
  - intros Hle. split.
    + specialize (U4 ltac:(lia)). rewrite LessK in U4 by lia.
      rewrite HP in U4. apply negb_false_iff in U4. by apply Z.ltb_lt.
    + specialize (D4 Hle). rewrite LessK in D4 by lia. rewrite HP in D4.
      by apply Z.ltb_ge.
Qed.

Lemma split_equal_swap (d : list A) a b i j P :
  split_equal key d a b i j P -> (i <= j)%nat ->
  K d i < P -> P <= K d j ->
  split_equal key (Swap d i j) a b (S i) (j - 1) P.
Proof.
  intros (Hlen & HP & Hai & Hjb & Hij & Hl & Hr) Hle Hi Hj.
  assert (i <> j) by (intros ->; lia).
  repeat split.
  - by rewrite Swap_length.
  - rewrite SwapK by lia. repeat case_decide; try lia; done.
  - lia.
  - lia.
  - lia.
  - intros k Hk. rewrite SwapK by lia. repeat case_decide; try lia.
    apply Hl. lia.
  - intros k Hk. rewrite SwapK by lia. repeat case_decide; try lia.
    apply Hr. lia.
Qed.

Lemma partitionEqual_loop_spec turns : forall (d : list A) a b i j P,
  split_equal key d a b i j P -> (j + 1 - i < turns)%nat ->
  let r := partitionEqual_loop less turns d a i j in
  range_perm a b d r.1
  /\ (a < r.2 <= b)%nat
  /\ K r.1 a = P
  /\ (forall k, (a <= k < r.2)%nat -> P <= K r.1 k)
  /\ (forall k, (r.2 <= k < b)%nat -> K r.1 k < P).
Proof.
  induction turns as [|turns IH]; intros d a b i j P Hs Ht; [lia|]. simpl.
  destruct (scan_round_equal d a b i j P Hs) as (Hs' & Hi & Hj & Hstop).
  set (i' := scan_up (S j - i) (fun k => negb (Less less d a k)) i j) in *.
  set (j' := scan_down (fun k => Less less d a k) i' j) in *.
  destruct (j' <? i')%nat eqn:Hc.
  - apply Nat.ltb_lt in Hc. simpl.
    destruct Hs' as (Hlen & HP & Hai & Hjb & Hij & Hl & Hr).
    split; [constructor|]. split; [lia|]. split; [done|]. split.
    + intros k Hk. destruct (decide (k = a)) as [->|Hne]; [lia|].
      apply Hl. lia.
    + intros k Hk. apply Hr. lia.
  - apply Nat.ltb_ge in Hc. destruct (Hstop Hc) as [Hki Hkj].
    pose proof (split_equal_swap d a b i' j' P Hs' Hc Hki Hkj) as Hs2.
    destruct Hs' as (Hlen & HP & Hai & Hjb & Hij & Hl & Hr).
    destruct (IH (Swap d i' j') a b (S i') (j' - 1)%nat P Hs2)
      as (R1 & R2 & R3); [lia|].
    split; [|done].
    apply (range_perm_swap a b d i' j'); [lia|lia|lia|done].
Qed.

(** [partitionEqual] moves the keys equal to the pivot's, the greatest
    of the range, before the index it returns. *)
Lemma partitionEqual_spec (d : list A) a b pivot :
  (a <= pivot < b)%nat -> (b <= length d)%nat ->
  let r := partitionEqual less d a b pivot in
  range_perm a b d r.1
  /\ (a < r.2 <= b)%nat
  /\ (forall k, (a <= k < r.2)%nat -> K d pivot <= K r.1 k)
  /\ (forall k, (r.2 <= k < b)%nat -> K r.1 k < K d pivot).
Proof.
  intros Hp Hb. unfold partitionEqual.
  set (d1 := Swap d a pivot).
  assert (Hp1 : range_perm a b d d1) by (apply range_perm_one; lia).
  assert (Hlen1 : length d1 = length d) by apply Swap_length.
  assert (HP : K d1 a = K d pivot).
  { unfold d1. rewrite SwapK by lia. by repeat case_decide; subst. }
  assert (Hs0 : split_equal key d1 a b (a + 1) (b - 1) (K d pivot)).
  { repeat split; try done; try lia; intros k Hk; lia. }
  destruct (partitionEqual_loop_spec (S (b - a)) d1 a b (a + 1) (b - 1)
              (K d pivot) Hs0) as (R1 & R2 & R3 & R4 & R5); [lia|].
  split; [|done]. eapply range_perm_trans; [apply Hp1|apply R1].
Qed.
End Partition.

Section Shuffles.
Context {A : Type} `{!Inhabited A} (less : A -> A -> bool).

(** *** The steps that only rearrange *)

Lemma reverse_loop_perm turns : forall (d : list A) a b i j,
  (a <= i)%nat -> (j < b)%nat -> (b <= length d)%nat ->
  range_perm a b d (reverse_loop turns d i j).
Proof.
  induction turns as [|turns IH]; intros d a b i j Hi Hj Hb; simpl;
    [constructor|].
  destruct (i <? j)%nat eqn:Hc; [|constructor].
  apply Nat.ltb_lt in Hc.
  apply (range_perm_swap a b d i j); [lia|lia|lia|].
  apply IH; [lia|lia|]. by rewrite Swap_length.
Qed.

Lemma reverseRange_perm (d : list A) a b :
  (a < b)%nat -> (b <= length d)%nat ->
  range_perm a b d (reverseRange d a b).
Proof. intros Hab Hb. apply reverse_loop_perm; lia. Qed.

Lemma nextPowerOfTwo_bound l :
  (0 < l)%nat -> 0 < nextPowerOfTwo l <= 2 * Z.of_nat l.
Proof.
  intros Hl. unfold nextPowerOfTwo, bits_Len.
  destruct l as [|l]; [lia|].
  pose proof (Z.log2_spec (Z.of_nat (S l)) ltac:(lia)) as [H1 H2].
  pose proof (Z.log2_nonneg (Z.of_nat (S l))) as H0.
  rewrite Nat2Z.inj_succ, Z2Nat.id by lia.
  rewrite Z.pow_succ_r by lia. lia.
Qed.

Lemma land_nextPowerOfTwo r l :
  Z.land r (nextPowerOfTwo l - 1) = r mod nextPowerOfTwo l.
Proof.
  unfold nextPowerOfTwo. rewrite <- Z.land_ones by lia.
  by rewrite Z.ones_equiv, <- Z.sub_1_r.
Qed.

Lemma breakPatterns_perm next (d : list A) a b :
  (a <= b)%nat -> (b <= length d)%nat ->
  range_perm a b d (breakPatterns next d a b).
Proof.
  intros Hab Hb. unfold breakPatterns.
  destruct (8 <=? b - a)%nat eqn:Hc; [|constructor].
  apply Nat.leb_le in Hc.
  pose proof (nextPowerOfTwo_bound (b - a) ltac:(lia)) as [Hm0 Hm].
  pose proof (Nat.div_mod_eq (b - a) 4) as Hdiv.
  pose proof (Nat.mod_upper_bound (b - a) 4 ltac:(lia)) as Hmod.
  set (modulus := nextPowerOfTwo (b - a)) in *.
  set (idx := (a + (b - a) / 4 * 2 - 1)%nat).
  assert (Hstep : forall (d0 : list A) random i,
            (i < 3)%nat -> (b <= length d0)%nat ->
            let other0 := Z.to_nat (Z.land (next random) (modulus - 1)) in
            let other := if (b - a <=? other0)%nat then (other0 - (b - a))%nat
                         else other0 in
            range_perm a b d0 (Swap d0 (idx + i) (a + other))).
  { intros d0 random i Hi Hb0 other0 other.
    assert (Ho : (other0 < 2 * (b - a))%nat).
    { unfold other0.
      unfold modulus. rewrite land_nextPowerOfTwo.
      pose proof (Z.mod_pos_bound (next random) (nextPowerOfTwo (b - a)) Hm0).
      fold modulus in H |- *. lia. }
    apply range_perm_one; [unfold idx; lia| |done].
    unfold other. destruct (b - a <=? other0)%nat eqn:E.
    - apply Nat.leb_le in E. lia.
    - apply Nat.leb_gt in E. lia. }
  set (r0 := Z.of_nat (b - a)).
  pose proof (Hstep d r0 0%nat ltac:(lia) Hb) as S0. cbn zeta in S0.
  set (d1 := Swap d _ _) in S0.
  assert (Hb1 : (b <= length d1)%nat) by (unfold d1; by rewrite Swap_length).
  pose proof (Hstep d1 (next r0) 1%nat ltac:(lia) Hb1) as S1. cbn zeta in S1.
  set (d2 := Swap d1 _ _) in S1.
  assert (Hb2 : (b <= length d2)%nat) by (unfold d2; by rewrite Swap_length).
  pose proof (Hstep d2 (next (next r0)) 2%nat ltac:(lia) Hb2) as S2.
  cbn zeta in S2.
  eapply range_perm_trans; [exact S0|].
  eapply range_perm_trans; [exact S1|]. exact S2.
Qed.

(** *** The pivot lies in the range *)

Lemma order2_fst (d : list A) a b swaps :
  ((order2 less d a b swaps).1.1 = a /\ (order2 less d a b swaps).1.2 = b)
  \/ ((order2 less d a b swaps).1.1 = b /\ (order2 less d a b swaps).1.2 = a).
Proof. unfold order2. destruct (Less less d b a); simpl; auto. Qed.

Lemma median_among (d : list A) a b c swaps :
  (median less d a b c swaps).1 = a
  \/ (median less d a b c swaps).1 = b
  \/ (median less d a b c swaps).1 = c.
Proof.
  unfold median.
  destruct (order2_fst d a b swaps) as [[E1 E2]|[E1 E2]];
    destruct (order2 less d a b swaps) as [[a1 b1] s1]; simpl in *; subst;
    match goal with |- context [order2 less d ?x ?y ?s] =>
      destruct (order2_fst d x y s) as [[F1 F2]|[F1 F2]];
      destruct (order2 less d x y s) as [[b2 c2] s2]; simpl in *; subst
    end;
    match goal with |- context [order2 less d ?x ?y ?s] =>
      destruct (order2_fst d x y s) as [[G1 G2]|[G1 G2]];
      destruct (order2 less d x y s) as [[a3 b3] s3]; simpl in *; subst
    end; auto.
Qed.

Lemma choosePivot_range (d : list A) a b :
  (8 <= b - a)%nat ->
  (a <= (choosePivot less d a b).1 < b)%nat.
Proof.
  intros Hl. unfold choosePivot.
  pose proof (Nat.div_mod_eq (b - a) 4) as Hdiv.
  pose proof (Nat.mod_upper_bound (b - a) 4 ltac:(lia)) as Hmod.
  apply Nat.leb_le in Hl as Hl'. rewrite Hl'.
  set (q := ((b - a) / 4)%nat) in *.
  assert (Hin : forall j s, (a < j < b - 1)%nat ->
            (a <= (if (s =? 0)%nat then (j, increasingHint)
                   else if (s =? maxSwaps)%nat then (j, decreasingHint)
                   else (j, unknownHint)).1 < b)%nat).
  { intros j s Hj. destruct (s =? 0)%nat, (s =? maxSwaps)%nat; simpl; lia. }
  destruct (shortestNinther <=? b - a)%nat eqn:Hn.
  - apply Nat.leb_le in Hn. unfold shortestNinther in Hn.
    unfold medianAdjacent.
    pose proof (median_among d (a + q * 1 - 1) (a + q * 1) (a + q * 1 + 1) 0) as M1.
    destruct (median less d (a + q * 1 - 1) (a + q * 1) (a + q * 1 + 1) 0)
      as [i1 s1]. simpl in M1.
    pose proof (median_among d (a + q * 2 - 1) (a + q * 2) (a + q * 2 + 1) s1) as M2.
    destruct (median less d (a + q * 2 - 1) (a + q * 2) (a + q * 2 + 1) s1)
      as [j1 s2]. simpl in M2.
    pose proof (median_among d (a + q * 3 - 1) (a + q * 3) (a + q * 3 + 1) s2) as M3.
    destruct (median less d (a + q * 3 - 1) (a + q * 3) (a + q * 3 + 1) s2)
      as [k1 s3]. simpl in M3.
    pose proof (median_among d i1 j1 k1 s3) as M4.
    destruct (median less d i1 j1 k1 s3) as [j2 s4]. simpl in M4.
    apply Hin. lia.
  - pose proof (median_among d (a + q * 1) (a + q * 2) (a + q * 3) 0) as M4.
    destruct (median less d (a + q * 1) (a + q * 2) (a + q * 3) 0) as [j2 s4].
    simpl in M4. apply Hin. lia.
Qed.
End Shuffles.

Section Heap.
Context {A : Type} `{!Inhabited A} (key : A -> Z) (less : A -> A -> bool).
Hypothesis less_key : forall x y, less x y = (key y <? key x).

#[local] Abbreviation K := (key_at key).
#[local] Abbreviation LessK := (Less_key key less less_key).
#[local] Abbreviation SwapK := (Swap_key key).

(** *** Heap sort *)

Ltac idx_subst :=
  repeat match goal with
  | H : (?f + ?x = ?f + ?y)%nat |- _ =>
      let E := fresh in
      assert (E : x = y) by lia; clear H; first [subst x|subst y|idtac]
  end.

Lemma siftDown_from_S turns (d : list A) root hi first :
  siftDown_from less (S turns) d root hi first
  = if (hi <=? 2 * root + 1)%nat then d
    else
      let c := if (2 * root + 1 + 1 <? hi)%nat
                  && Less less d (first + (2 * root + 1)) (first + (2 * root + 1) + 1)
               then (2 * root + 1 + 1)%nat else (2 * root + 1)%nat in
      if negb (Less less d (first + root) (first + c)) then d
      else siftDown_from less turns (Swap d (first + root) (first + c)) c hi first.
Proof. reflexivity. Qed.

Lemma siftDown_from_spec turns : forall (d : list A) root lo hi first,
  (first + hi <= length d)%nat -> (lo <= root)%nat ->
  (hi - root <= turns)%nat ->
  heap_but key d first lo hi root ->
  (forall p c, (lo <= p)%nat -> child_of p root -> (c < hi)%nat ->
     child_of root c -> K d (first + p) <= K d (first + c)) ->
  range_perm (first + root) (first + hi) d (siftDown_from less turns d root hi first)
  /\ heap key (siftDown_from less turns d root hi first) first lo hi.
Proof.
  induction turns as [|turns IH]; intros d root lo hi first Hlen Hlo Ht Hh Hg.
  { simpl. split; [apply range_perm_refl|]. intros p c Hp Hc Hpc.
    apply Hh; try done. unfold child_of in Hpc. lia. }
  rewrite siftDown_from_S. destruct (hi <=? 2 * root + 1)%nat eqn:Hleaf.
  { apply Nat.leb_le in Hleaf. split; [apply range_perm_refl|].
    intros p c Hp Hc Hpc. apply Hh; try done. unfold child_of in Hpc. lia. }
  apply Nat.leb_gt in Hleaf. cbn zeta.
  set (c1 := (2 * root + 1)%nat) in *.
  set (c := if (c1 + 1 <? hi)%nat && Less less d (first + c1) (first + c1 + 1)
            then (c1 + 1)%nat else c1).
  assert (Hc : (c = c1 \/ c = c1 + 1)%nat /\ (c < hi)%nat
               /\ forall s, (s < hi)%nat -> child_of root s ->
                    K d (first + c) <= K d (first + s)).
  { unfold c. destruct ((c1 + 1 <? hi)%nat && _) eqn:E.
    - apply andb_true_iff in E as [E1 E2]. apply Nat.ltb_lt in E1.
      rewrite LessK in E2 by lia. apply Z.ltb_lt in E2.
      split; [lia|]. split; [lia|]. intros s Hs [->| ->].
      + fold c1. replace (first + (c1 + 1))%nat with (first + c1 + 1)%nat by lia.
        lia.
      + replace (2 * root + 2)%nat with (c1 + 1)%nat by (unfold c1; lia). lia.
    - split; [lia|]. split; [lia|]. intros s Hs [->| ->].
      + fold c1. lia.
      + replace (2 * root + 2)%nat with (c1 + 1)%nat in * by (unfold c1; lia).
        apply andb_false_iff in E as [E|E].
        * apply Nat.ltb_ge in E. lia.
        * rewrite LessK in E by lia. apply Z.ltb_ge in E.
          replace (first + (c1 + 1))%nat with (first + c1 + 1)%nat by lia. lia. }
  clearbody c. destruct Hc as (Hcc & Hchi & Hmin).
  destruct (Less less d (first + root) (first + c)) eqn:Hless; cbn [negb].
  - rewrite LessK in Hless by lia. apply Z.ltb_lt in Hless.
    destruct (IH (Swap d (first + root) (first + c)) c lo hi first)
      as [Hp Hheap].
    + by rewrite Swap_length.
    + lia.
    + lia.
    + intros p s Hp Hps Hs Hch. rewrite !SwapK by lia.
      unfold heap_but, child_of in *.
      repeat case_decide; idx_subst; try lia;
        first [apply Hmin; lia | apply Hg; lia | apply Hh; lia].
    + intros p g Hp Hpc Hg' Hcg. rewrite !SwapK by lia.
      unfold heap_but, child_of in *.
      repeat case_decide; idx_subst; try lia;
        first [apply Hmin; lia | apply Hg; lia | apply Hh; lia].
    + split; [|done].
      apply (range_perm_swap _ _ d (first + root) (first + c)); [lia|lia|lia|].
      eapply range_perm_widen; [| | |apply Hp]; try lia.
      by rewrite Swap_length.
  - rewrite LessK in Hless by lia. apply Z.ltb_ge in Hless.
    split; [apply range_perm_refl|]. intros p s Hp Hs Hps.
    destruct (decide (p = root)) as [->|Hne].
    + etrans; [apply Hless|]. by apply Hmin.
    + by apply Hh.
Qed.

Lemma siftDown_spec (d : list A) lo hi first :
  (first + hi <= length d)%nat ->
  heap_but key d first lo hi lo ->
  range_perm (first + lo) (first + hi) d (siftDown less d lo hi first)
  /\ heap key (siftDown less d lo hi first) first lo hi.
Proof.
  intros Hlen Hh. unfold siftDown. apply siftDown_from_spec; try done; try lia.
  intros p c Hp Hpc. unfold child_of in Hpc. lia.
Qed.

Lemma heap_root_min (d : list A) first hi :
  heap key d first 0 hi ->
  forall c, (c < hi)%nat -> K d (first + 0) <= K d (first + c).
Proof.
  intros Hh c. induction c as [c IH] using lt_wf_ind. intros Hc.
  destruct c as [|c]; [done|].
  pose proof (Nat.div_mod_eq c 2) as Hd.
  pose proof (Nat.mod_upper_bound c 2 ltac:(lia)) as Hm.
  etrans; [apply (IH (c / 2)%nat); lia|].
  apply Hh; [lia|done|]. unfold child_of. lia.
Qed.

Lemma rev_seq_S n : rev (seq 0 (S n)) = n :: rev (seq 0 n).
Proof. by rewrite seq_S, rev_app_distr. Qed.

(** Building the heap, from the last parent up. *)
Lemma heapify n : forall (d : list A) first hi,
  (first + hi <= length d)%nat ->
  heap key d first n hi ->
  let d' := foldl (fun data i => siftDown less data i hi first) d (rev (seq 0 n)) in
  range_perm first (first + hi) d d' /\ heap key d' first 0 hi.
Proof.
  induction n as [|n IH]; intros d first hi Hlen Hh.
  { simpl. split; [apply range_perm_refl|done]. }
  rewrite rev_seq_S. cbn [foldl].
  destruct (siftDown_spec d n hi first Hlen) as [Hp1 Hh1].
  { intros p c Hp Hne Hc Hpc. apply Hh; [lia|done|done]. }
  destruct (IH (siftDown less d n hi first) first hi) as [Hp2 Hh2]; [|done|].
  { by rewrite (range_perm_length _ _ _ _ Hp1). }
  split; [|done]. eapply range_perm_trans; [|apply Hp2].
  eapply range_perm_widen; [| | |apply Hp1]; lia.
Qed.

(** Moving the root behind the heap, again and again. *)
Lemma heap_drain n : forall (d : list A) first hi,
  (first + hi <= length d)%nat -> (n <= hi)%nat ->
  heap key d first 0 n ->
  sorted_range key d (first + n) (first + hi) ->
  (forall x y, (x < n)%nat -> (n <= y < hi)%nat ->
     K d (first + y) <= K d (first + x)) ->
  let d' := foldl (fun data i => siftDown less (Swap data first (first + i)) 0 i first)
                  d (rev (seq 0 n)) in
  range_perm first (first + hi) d d'
  /\ sorted_range key d' first (first + hi).
Proof.
  induction n as [|n IH]; intros d first hi Hlen Hn Hh Hs Hx.
  { simpl. split; [apply range_perm_refl|].
    by replace (first + 0)%nat with first in Hs by lia. }
  rewrite rev_seq_S. cbn [foldl].
  set (d1 := Swap d first (first + n)).
  assert (Hlen1 : length d1 = length d) by apply Swap_length.
  assert (Hmin : forall c, (c < S n)%nat -> K d (first + 0) <= K d (first + c))
    by (by apply heap_root_min).
  replace (first + 0)%nat with first in Hmin by lia.
  assert (HminA : forall k, (first <= k < first + S n)%nat -> K d first <= K d k).
  { intros k Hk. replace k with (first + (k - first))%nat by lia.
    apply Hmin. lia. }
  assert (HxA : forall kx ky, (first <= kx < first + S n)%nat ->
                  (first + S n <= ky < first + hi)%nat -> K d ky <= K d kx).
  { intros kx ky Hkx Hky. replace kx with (first + (kx - first))%nat by lia.
    replace ky with (first + (ky - first))%nat by lia. apply Hx; lia. }
  assert (Hk1 : forall k, K d1 k = if decide (k = (first + n)%nat) then K d first
                                  else if decide (k = first) then K d (first + n)
                                  else K d k).
  { intros k. unfold d1. rewrite SwapK by lia. done. }
  destruct (siftDown_spec d1 0 n first) as [Hp2 Hh2]; [lia| |].
  { intros p c Hp Hne Hc Hpc. rewrite !Hk1. unfold child_of in Hpc.
    repeat case_decide; try lia. apply Hh; [lia|lia|done]. }
  set (d2 := siftDown less d1 0 n first) in *.
  replace (first + 0)%nat with first in Hp2 by lia.
  assert (Hout : forall k, (first + n <= k)%nat -> K d2 k = K d1 k).
  { intros k Hk. unfold key_at.
    rewrite (range_perm_outside _ _ _ _ k Hp2); [done|lia]. }
  destruct (IH d2 first hi) as [Hp3 Hs3].
  - rewrite (range_perm_length _ _ _ _ Hp2). lia.
  - lia.
  - done.
  - intros i j Hi Hij Hj. rewrite !Hout by lia. rewrite !Hk1.
    repeat case_decide; subst; try lia;
      first [apply HxA; lia | apply Hs; lia].
  - intros x y Hxn Hy. rewrite (Hout (first + y)%nat) by lia.
    apply (range_perm_all first (first + n) d1 d2
             (fun e => K d1 (first + y) <= key e) Hp2); [|lia].
    intros k Hk. fold (K d1 k). rewrite !Hk1.
    repeat case_decide; subst; try lia;
      first [apply HminA; lia | apply HxA; lia].
  - split; [|done].
    apply (range_perm_swap _ _ d first (first + n)); [lia|lia|lia|].
    fold d1. eapply range_perm_trans; [|apply Hp3].
    eapply range_perm_widen; [| | |apply Hp2]; lia.
Qed.

Lemma heapSort_sorts (d : list A) a b :
  (a <= b)%nat -> (b <= length d)%nat ->
  range_perm a b d (heapSort less d a b)
  /\ sorted_range key (heapSort less d a b) a b.
Proof.
  intros Hab Hb. unfold heapSort.
  pose proof (Nat.div_mod_eq (b - a - 1) 2) as Hd.
  pose proof (Nat.mod_upper_bound (b - a - 1) 2 ltac:(lia)) as Hm.
  destruct (heapify ((b - a - 1) / 2 + 1) d a (b - a)) as [Hp1 Hh1]; [lia| |].
  { intros p c Hp Hc Hpc. unfold child_of in Hpc. lia. }
  set (d1 := foldl _ d _) in *.
  destruct (heap_drain (b - a) d1 a (b - a)) as [Hp2 Hs2].
  - rewrite (range_perm_length _ _ _ _ Hp1). lia.
  - lia.
  - done.
  - intros i j. lia.
  - intros x y. lia.
  - replace (a + (b - a))%nat with b in * by lia. split; [|done].
    eapply range_perm_trans; [apply Hp1|apply Hp2].
Qed.
End Heap.

Section PartialInsertion.
Context {A : Type} `{!Inhabited A} (key : A -> Z) (less : A -> A -> bool).
Hypothesis less_key : forall x y, less x y = (key y <? key x).

#[local] Abbreviation K := (key_at key).
#[local] Abbreviation LessK := (Less_key key less less_key).
#[local] Abbreviation SwapK := (Swap_key key).

(** *** Partial insertion sort *)

Lemma adjacent_sorted (d : list A) a b :
  (forall k, (a < k < b)%nat -> K d k <= K d (k - 1)) ->
  sorted_range key d a b.
Proof.
  intros Hadj i j Hi Hij Hj.
  induction j as [|j IH]; [lia|].
  destruct (decide (i = j)) as [->|Hne].
  - specialize (Hadj (S j) ltac:(lia)).
    by replace (S j - 1)%nat with j in Hadj by lia.
  - etrans; [|apply IH; lia].
    specialize (Hadj (S j) ltac:(lia)).
    by replace (S j - 1)%nat with j in Hadj by lia.
Qed.

Lemma run_up_spec turns : forall (d : list A) i b,
  (1 <= i)%nat -> (i <= b)%nat -> (b <= length d)%nat -> (b - i <= turns)%nat ->
  (i <= run_up less turns d i b <= b)%nat
  /\ (forall k, (i <= k < run_up less turns d i b)%nat -> K d k <= K d (k - 1))
  /\ ((run_up less turns d i b < b)%nat ->
      K d (run_up less turns d i b - 1) < K d (run_up less turns d i b)).
Proof.
  induction turns as [|turns IH]; intros d i b Hi Hib Hb Ht; simpl.
  - repeat split; intros; lia.
  - destruct ((i <? b)%nat && negb (Less less d i (i - 1))) eqn:Hc.
    + apply andb_true_iff in Hc as [Hlt Hl]. apply Nat.ltb_lt in Hlt.
      rewrite LessK in Hl by lia. apply negb_true_iff, Z.ltb_ge in Hl.
      destruct (IH d (S i) b) as (H1 & H2 & H3); try lia.
      split; [lia|]. split; [|done].
      intros k Hk. destruct (decide (k = i)) as [->|Hne]; [done|].
      apply H2. lia.
    + split; [lia|]. split; [intros; lia|].
      intros Hlt. apply andb_false_iff in Hc as [Hc|Hc].
      * apply Nat.ltb_ge in Hc. lia.
      * rewrite LessK in Hc by lia. apply negb_false_iff in Hc.
        by apply Z.ltb_lt.
Qed.

Lemma shift_down_insert j : forall (d : list A),
  shift_down less j d = insert_left less 0 j d.
Proof.
  induction j as [|j IH]; intros d; simpl; [done|].
  destruct (Less less d (S j) j); [apply IH|done].
Qed.

(** With no greater key just before the range, insertion from within
    the range does not leave it. *)
Lemma insert_left_stays j : forall a b (d : list A),
  (a <= j)%nat -> (j < b)%nat -> (b <= length d)%nat ->
  below_pred key d a b ->
  insert_left less 0 j d = insert_left less a j d.
Proof.
  induction j as [|j IH]; intros a b d Ha Hj Hb Hpred; simpl; [done|].
  destruct (a <? S j)%nat eqn:Haj.
  - apply Nat.ltb_lt in Haj. simpl.
    destruct (Less less d (S j) j) eqn:Hl; [|done].
    apply (IH a b); [lia|lia|by rewrite Swap_length|].
    eapply range_perm_below_pred; [|apply Hpred].
    apply range_perm_one; lia.
  - apply Nat.ltb_ge in Haj. assert (a = S j) by lia. subst a. simpl.
    specialize (Hpred ltac:(lia) (S j) ltac:(lia)).
    replace (S j - 1)%nat with j in Hpred by lia.
    rewrite LessK by lia.
    replace (K d j <? K d (S j)) with false; [done|].
    symmetry. apply Z.ltb_ge. done.
Qed.

Lemma shift_up_perm turns : forall (d : list A) j b,
  (1 <= j)%nat -> (b <= length d)%nat ->
  range_perm (j - 1) b d (shift_up less turns d j b).
Proof.
  induction turns as [|turns IH]; intros d j b Hj Hb; simpl;
    [apply range_perm_refl|].
  destruct ((j <? b)%nat && Less less d j (j - 1)) eqn:Hc;
    [|apply range_perm_refl].
  apply andb_true_iff in Hc as [Hlt _]. apply Nat.ltb_lt in Hlt.
  apply (range_perm_swap _ _ d j (j - 1)); [lia|lia|lia|].
  eapply range_perm_widen; [| | |apply (IH _ (S j) b)]; try lia.
  - by rewrite Swap_length.
  - by rewrite Swap_length.
Qed.

Lemma sorted_range_outside a b lo hi (d d' : list A) :
  range_perm lo hi d d' -> (b <= lo \/ hi <= a)%nat ->
  sorted_range key d a b -> sorted_range key d' a b.
Proof.
  intros Hp Hout Hs i j Hi Hij Hj. unfold key_at.
  rewrite !(range_perm_outside lo hi d d') by (done || lia).
  by apply Hs.
Qed.

Lemma partialInsertionSort_steps_spec steps : forall (d : list A) a i b,
  (a < i)%nat -> (i <= b)%nat -> (b <= length d)%nat ->
  sorted_range key d a i ->
  below_pred key d a b ->
  let r := partialInsertionSort_steps less steps d a i b in
  range_perm a b d r.1
  /\ (r.2 = true -> sorted_range key r.1 a b).
Proof.
  induction steps as [|steps IH]; intros d a i b Hai Hib Hb Hs Hpred.
  { simpl. split; [apply range_perm_refl|done]. }
  cbn [partialInsertionSort_steps].
  destruct (run_up_spec (b - i) d i b) as (R1 & R2 & R3); try lia.
  set (i1 := run_up less (b - i) d i b) in *.
  assert (Hs1 : sorted_range key d a i1).
  { apply adjacent_sorted. intros k Hk.
    destruct (decide (k < i)%nat) as [Hlt|Hge].
    - apply Hs; lia.
    - apply R2. lia. }
  destruct (i1 =? b)%nat eqn:Hend.
  { apply Nat.eqb_eq in Hend. cbn [fst snd].
    split; [apply range_perm_refl|]. intros _. by rewrite <- Hend. }
  apply Nat.eqb_neq in Hend.
  destruct (b - a <? shortestShifting)%nat.
  { cbn [fst snd]. split; [apply range_perm_refl|done]. }
  set (d1 := Swap d i1 (i1 - 1)).
  assert (Hp1 : range_perm a b d d1) by (apply range_perm_one; lia).
  assert (Hlen1 : length d1 = length d) by apply Swap_length.
  assert (Hpred1 : below_pred key d1 a b)
    by (by eapply range_perm_below_pred).
  assert (Hs1' : sorted_range key d1 a (i1 - 1)).
  { intros x y Hx Hxy Hy. unfold d1. rewrite !SwapK by lia.
    repeat case_decide; try lia. apply Hs1; lia. }
  set (d2 := if (2 <=? i1 - a)%nat then shift_down less (i1 - 1) d1 else d1).
  assert (H2 : range_perm a i1 d1 d2 /\ sorted_range key d2 a i1).
  { unfold d2. destruct (2 <=? i1 - a)%nat eqn:E.
    - apply Nat.leb_le in E. rewrite shift_down_insert.
      rewrite (insert_left_stays (i1 - 1) a b) by (done || lia).
      destruct (insert_left_step key less less_key a (i1 - 1) d1) as [P S];
        [lia|lia|done|].
      by replace (i1 - 1 + 1)%nat with i1 in * by lia.
    - apply Nat.leb_gt in E. split; [apply range_perm_refl|].
      intros x y. lia. }
  destruct H2 as [Hp2 Hs2].
  assert (Hlen2 : length d2 = length d1) by (by eapply range_perm_length).
  set (d3 := if (2 <=? b - i1)%nat then shift_up less (b - (i1 + 1)) d2 (i1 + 1) b
             else d2).
  assert (Hp3 : range_perm i1 b d2 d3).
  { unfold d3. destruct (2 <=? b - i1)%nat; [|apply range_perm_refl].
    pose proof (shift_up_perm (b - (i1 + 1)) d2 (i1 + 1) b ltac:(lia) ltac:(lia)) as H.
    by replace (i1 + 1 - 1)%nat with i1 in H by lia. }
  assert (Hp : range_perm a b d d3).
  { eapply range_perm_trans; [apply Hp1|].
    eapply range_perm_trans.
    - eapply range_perm_widen; [| | |apply Hp2]; lia.
    - eapply range_perm_widen; [| | |apply Hp3]; lia. }
  destruct (IH d3 a i1 b) as [Hp4 Hs4]; try lia.
  - rewrite (range_perm_length _ _ _ _ Hp). lia.
  - eapply sorted_range_outside; [apply Hp3| |done]. lia.
  - by eapply range_perm_below_pred.
  - split; [|done]. eapply range_perm_trans; [apply Hp|apply Hp4].
Qed.

Lemma partialInsertionSort_spec (d : list A) a b :
  (a < b)%nat -> (b <= length d)%nat ->
  below_pred key d a b ->
  let r := partialInsertionSort less d a b in
  range_perm a b d r.1
  /\ (r.2 = true -> sorted_range key r.1 a b).
Proof.
  intros Hab Hb Hpred. unfold partialInsertionSort.
  apply partialInsertionSort_steps_spec; try done; try lia.
  intros i j. lia.
Qed.
End PartialInsertion.

Section Pdqsort.
Context {A : Type} `{!Inhabited A} (key : A -> Z) (less : A -> A -> bool).
Hypothesis less_key : forall x y, less x y = (key y <? key x).
Variable next : Z -> Z.

#[local] Abbreviation K := (key_at key).
#[local] Abbreviation LessK := (Less_key key less less_key).
#[local] Abbreviation SwapK := (Swap_key key).

(** *** The main loop *)

Lemma below_pred_after_pivot (d : list A) mid b :
  (forall k, (mid < k < b)%nat -> K d k <= K d mid) ->
  below_pred key d (mid + 1) b.
Proof.
  intros H _ i Hi. replace (mid + 1 - 1)%nat with mid by lia. apply H. lia.
Qed.

Lemma below_pred_narrow (d : list A) a b b' :
  (b' <= b)%nat -> below_pred key d a b -> below_pred key d a b'.
Proof. intros Hb H Ha i Hi. apply H; [done|lia]. Qed.

(** Two sorted halves around a pivot make a sorted range. *)
Lemma sorted_around (d : list A) a mid b :
  (a <= mid < b)%nat ->
  sorted_range key d a mid ->
  sorted_range key d (mid + 1) b ->
  (forall k, (a <= k < mid)%nat -> K d mid < K d k) ->
  (forall k, (mid < k < b)%nat -> K d k <= K d mid) ->
  sorted_range key d a b.
Proof.
  intros Hm Hl Hr Hlk Hrk i j Hi Hij Hj.
  destruct (Nat.lt_trichotomy j mid) as [Hlt|[->|Hgt]].
  - apply Hl; lia.
  - apply Z.lt_le_incl, Hlk. lia.
  - destruct (Nat.lt_trichotomy i mid) as [Hlt'|[->|Hgt']].
    + pose proof (Hlk i ltac:(lia)). pose proof (Hrk j ltac:(lia)). lia.
    + apply Hrk. lia.
    + apply Hr; lia.
Qed.

Lemma pdqsort_sorts turns : forall (d : list A) a b limit wasBalanced wasPartitioned,
  (a <= b)%nat -> (b <= length d)%nat -> (b - a < turns)%nat ->
  below_pred key d a b ->
  range_perm a b d (pdqsort less next turns d a b limit wasBalanced wasPartitioned)
  /\ sorted_range key
       (pdqsort less next turns d a b limit wasBalanced wasPartitioned) a b.
Proof.
  induction turns as [|turns IH]; intros d a b limit wb wp Hab Hb Ht Hpred;
    [lia|].
  cbn [pdqsort].
  destruct (b - a <=? maxInsertion)%nat eqn:Hsmall.
  { by apply insertionSort_sorts. }
  apply Nat.leb_gt in Hsmall. unfold maxInsertion in Hsmall.
  destruct (limit =? 0)%nat.
  { by apply heapSort_sorts. }
  (* breakPatterns *)
  set (s1 := if negb wb then (breakPatterns next d a b, (limit - 1)%nat)
             else (d, limit)).
  assert (Hp1 : range_perm a b d s1.1).
  { unfold s1. destruct (negb wb); simpl.
    - by apply breakPatterns_perm.
    - apply range_perm_refl. }
  destruct s1 as [d1 limit1]. cbn [fst] in Hp1.
  assert (Hlen1 : length d1 = length d) by (by eapply range_perm_length).
  (* choosePivot *)
  pose proof (choosePivot_range less d1 a b ltac:(lia)) as Hpv.
  destruct (choosePivot less d1 a b) as [pivot hint]. cbn [fst] in Hpv.
  set (s2 := match hint with
             | decreasingHint =>
                 (reverseRange d1 a b, (b - 1 - (pivot - a))%nat, increasingHint)
             | _ => (d1, pivot, hint)
             end).
  assert (Hp2 : range_perm a b d1 s2.1.1 /\ (a <= s2.1.2 < b)%nat).
  { unfold s2. destruct hint; simpl; try (split; [apply range_perm_refl|done]).
    split; [|lia]. apply reverseRange_perm; lia. }
  destruct s2 as [[d2 pivot2] hint2]. cbn [fst snd] in Hp2.
  destruct Hp2 as [Hp2 Hpv2].
  assert (Hlen2 : length d2 = length d1) by (by eapply range_perm_length).
  assert (Hp12 : range_perm a b d d2) by (by eapply range_perm_trans).
  assert (Hpred2 : below_pred key d2 a b) by (by eapply range_perm_below_pred).
  (* partialInsertionSort *)
  set (s3 := match hint2 with
             | increasingHint =>
                 if wb && wp then partialInsertionSort less d2 a b
                 else (d2, false)
             | _ => (d2, false)
             end).
  assert (Hp3 : range_perm a b d2 s3.1
                /\ (s3.2 = true -> sorted_range key s3.1 a b)).
  { unfold s3. destruct hint2; try (split; [apply range_perm_refl|done]).
    destruct (wb && wp); [|split; [apply range_perm_refl|done]].
    apply (partialInsertionSort_spec key less less_key); [lia|lia|done]. }
  destruct s3 as [d3 sorted]. cbn [fst snd] in Hp3. destruct Hp3 as [Hp3 Hs3].
  assert (Hlen3 : length d3 = length d2) by (by eapply range_perm_length).
  assert (Hp13 : range_perm a b d d3) by (by eapply range_perm_trans).
  assert (Hpred3 : below_pred key d3 a b) by (by eapply range_perm_below_pred).
  destruct sorted.
  { split; [done|by apply Hs3]. }
  destruct ((0 <? a)%nat && negb (Less less d3 (a - 1) pivot2)) eqn:Heq.
  - (* the pivot equals the key before the range *)
    apply andb_true_iff in Heq as [Ha0 Hle]. apply Nat.ltb_lt in Ha0.
    rewrite LessK in Hle by lia. apply negb_true_iff, Z.ltb_ge in Hle.
    destruct (partitionEqual_spec key less less_key d3 a b pivot2)
      as (Hp4 & Hmid & Hleft & Hright); [lia|lia|].
    destruct (partitionEqual less d3 a b pivot2) as [d4 mid].
    cbn [fst snd] in *.
    assert (Hlen4 : length d4 = length d3) by (by eapply range_perm_length).
    assert (Hpred4 : below_pred key d4 a b) by (by eapply range_perm_below_pred).
    assert (Hout4 : K d4 (a - 1) = K d3 (a - 1)).
    { unfold key_at. by rewrite (range_perm_outside a b d3 d4) by (done || lia). }
    assert (Heqk : forall k, (a <= k < mid)%nat -> K d4 k = K d3 pivot2).
    { intros k Hk. specialize (Hleft k Hk).
      specialize (Hpred4 Ha0 k ltac:(lia)). lia. }
    destruct (IH d4 mid b limit1 wb wp) as [Hp5 Hs5]; [lia|lia|lia| |].
    { intros _ i Hi. rewrite (Heqk (mid - 1)%nat) by lia.
      apply Z.lt_le_incl, Hright. lia. }
    set (d5 := pdqsort less next turns d4 mid b limit1 wb wp) in *.
    split.
    + eapply range_perm_trans; [apply Hp13|].
      eapply range_perm_trans; [apply Hp4|].
      eapply range_perm_widen; [| | |apply Hp5]; lia.
    + assert (Hl5 : forall k, (a <= k < mid)%nat -> K d5 k = K d3 pivot2).
      { intros k Hk. unfold key_at.
        rewrite (range_perm_outside mid b d4 d5) by (done || lia).
        by apply Heqk. }
      assert (Hr5 : forall k, (mid <= k < b)%nat -> K d5 k < K d3 pivot2).
      { apply (range_perm_all mid b d4 d5 (fun e => key e < K d3 pivot2) Hp5).
        intros k Hk. by apply Hright. }
      intros i j Hi Hij Hj.
      destruct (decide (j < mid)%nat) as [Hjm|Hjm].
      * rewrite !Hl5 by lia. done.
      * destruct (decide (i < mid)%nat) as [Him|Him].
        -- rewrite (Hl5 i) by lia. apply Z.lt_le_incl, Hr5. lia.
        -- apply Hs5; lia.
  - (* partition around the pivot *)
    clear Heq.
    destruct (partition_spec key less less_key d3 a b pivot2)
      as (Hp4 & Hmid & Hleft & Hright); [lia|lia|].
    destruct (partition less d3 a b pivot2) as [[d4 mid] already].
    cbn [fst snd] in *.
    assert (Hlen4 : length d4 = length d3) by (by eapply range_perm_length).
    assert (Hp14 : range_perm a b d d4) by (by eapply range_perm_trans).
    assert (Hpred4 : below_pred key d4 a b) by (by eapply range_perm_below_pred).
    assert (Hfinal : forall d5 d6 : list A,
              (range_perm a mid d4 d5 /\ sorted_range key d5 a mid
               /\ range_perm (mid + 1) b d5 d6 /\ sorted_range key d6 (mid + 1) b)
              \/ (range_perm (mid + 1) b d4 d5 /\ sorted_range key d5 (mid + 1) b
                  /\ range_perm a mid d5 d6 /\ sorted_range key d6 a mid) ->
              range_perm a b d d6 /\ sorted_range key d6 a b).
    { intros d5 d6 Hcase.
      assert (Hl5 : length d5 = length d4)
        by (destruct Hcase as [(P & _)|(P & _)]; by eapply range_perm_length).
      assert (Hpp : range_perm a b d4 d6).
      { destruct Hcase as [(P1 & _ & P2 & _)|(P1 & _ & P2 & _)];
          (eapply range_perm_trans;
           [eapply range_perm_widen; [| | |apply P1]; lia
           |eapply range_perm_widen; [| | |apply P2]; lia]). }
      split; [by eapply range_perm_trans|].
      assert (Hmid6 : K d6 mid = K d4 mid).
      { unfold key_at.
        destruct Hcase as [(P1 & _ & P2 & _)|(P1 & _ & P2 & _)];
          rewrite (range_perm_outside _ _ _ _ mid P2) by lia;
          by rewrite (range_perm_outside _ _ _ _ mid P1) by lia. }
      assert (Hleft6 : forall k, (a <= k < mid)%nat -> K d4 mid < K d6 k).
      { destruct Hcase as [(P1 & _ & P2 & _)|(P1 & _ & P2 & _)].
        - intros k Hk. unfold key_at.
          rewrite (range_perm_outside _ _ _ _ k P2) by lia.
          by apply (range_perm_all a mid d4 d5 (fun e => K d4 mid < key e) P1).
        - apply (range_perm_all a mid d5 d6 (fun e => K d4 mid < key e) P2).
          intros k Hk. rewrite (range_perm_outside _ _ _ _ k P1) by lia.
          by apply Hleft. }
      assert (Hright6 : forall k, (mid < k < b)%nat -> K d6 k <= K d4 mid).
      { destruct Hcase as [(P1 & _ & P2 & _)|(P1 & _ & P2 & _)].
        - intros k Hk.
          apply (range_perm_all (mid + 1) b d5 d6 (fun e => key e <= K d4 mid) P2);
            [|lia].
          intros k' Hk'. rewrite (range_perm_outside _ _ _ _ k' P1) by lia.
          apply Hright. lia.
        - intros k Hk. unfold key_at.
          rewrite (range_perm_outside _ _ _ _ k P2) by lia.
          apply (range_perm_all (mid + 1) b d4 d5 (fun e => key e <= K d4 mid) P1);
            [|lia].
          intros k' Hk'. apply Hright. lia. }
      apply (sorted_around d6 a mid b); try done.
      - destruct Hcase as [(P1 & S1 & P2 & _)|(_ & _ & _ & S2)]; [|done].
        eapply sorted_range_outside; [apply P2| |done]. lia.
      - destruct Hcase as [(_ & _ & _ & S2)|(P1 & S1 & P2 & _)]; [done|].
        eapply sorted_range_outside; [apply P2| |done]. lia.
      - intros k Hk. rewrite Hmid6. by apply Hleft6.
      - intros k Hk. rewrite Hmid6. by apply Hright6. }
    assert (Hpl : below_pred key d4 a mid)
      by (eapply below_pred_narrow; [|apply Hpred4]; lia).
    assert (Hpr : below_pred key d4 (mid + 1) b)
      by (by apply below_pred_after_pivot).
    destruct (mid - a <? b - mid)%nat.
    + destruct (IH d4 a mid limit1 true true) as [P1 S1]; [lia|lia|lia|done|].
      set (d5 := pdqsort less next turns d4 a mid limit1 true true) in *.
      assert (Hl5 : length d5 = length d4) by (by eapply range_perm_length).
      destruct (IH d5 (mid + 1)%nat b limit1
                  ((b - a) / 8 <=? mid - a)%nat already) as [P2 S2];
        [lia|lia|lia| |].
      * apply below_pred_after_pivot. intros k Hk. unfold key_at.
        rewrite !(range_perm_outside a mid d4 d5) by (done || lia).
        by apply Hright.
      * apply (Hfinal d5). left. repeat split; assumption.
    + destruct (IH d4 (mid + 1)%nat b limit1 true true) as [P1 S1];
        [lia|lia|lia|done|].
      set (d5 := pdqsort less next turns d4 (mid + 1) b limit1 true true) in *.
      assert (Hl5 : length d5 = length d4) by (by eapply range_perm_length).
      destruct (IH d5 a mid limit1
                  ((b - a) / 8 <=? b - mid)%nat already) as [P2 S2];
        [lia|lia|lia| |].
      * intros Ha0 i Hi. unfold key_at.
        rewrite (range_perm_outside (mid + 1) b d4 d5 (a - 1)) by (done || lia).
        rewrite (range_perm_outside (mid + 1) b d4 d5 i) by (done || lia).
        apply Hpl; [done|lia].
      * apply (Hfinal d5). right. repeat split; assumption.
Qed.
End Pdqsort.

Section SortSliceFacts.
Context {A : Type} `{!Inhabited A} (key : A -> Z) (less : A -> A -> bool).
Hypothesis less_key : forall x y, less x y = (key y <? key x).
Variable next : Z -> Z.

Lemma sorted_range_desc (l : list A) :
  sorted_range key l 0 (length l) -> sorted_desc key l.
Proof.
  induction l as [|x l IH]; intros Hs; [constructor|].
  constructor.
  - apply IH. intros i j Hi Hij Hj.
    apply (Hs (S i) (S j)); simpl; lia.
  - apply Forall_lookup_2. intros i y Hy.
    pose proof (lookup_lt_Some _ _ _ Hy) as Hlt.
    specialize (Hs 0%nat (S i) ltac:(lia) ltac:(lia) ltac:(simpl; lia)).
    unfold key_at in Hs.
    change ((x :: l) !!! S i) with (l !!! i) in Hs.
    change ((x :: l) !!! 0%nat) with x in Hs.
    by rewrite (list_lookup_total_correct _ _ _ Hy) in Hs.
Qed.

(** [sort.Slice] rearranges its argument and leaves it sorted, whatever
    its length and whatever the random source does. *)
Lemma sort_Slice_sorts (x : list A) :
  Permutation (sort_Slice less next x) x
  /\ sorted_desc key (sort_Slice less next x).
Proof.
  unfold sort_Slice.
  destruct (pdqsort_sorts key less less_key next (S (length x)) x 0 (length x)
              (bits_Len (length x)) true true) as [Hp Hs];
    [lia|lia|lia|intros ?; lia|].
  split; [by eapply range_perm_perm|].
  apply sorted_range_desc.
  by rewrite (range_perm_length _ _ _ _ Hp).
Qed.
End SortSliceFacts.

(** ** Orchestrator: the order of the results *)

Lemma by_score_key x y :
  Orchestrator.by_score x y
  = (Orchestrator.ModelResult.Score y <? Orchestrator.ModelResult.Score x).
Proof. reflexivity. Qed.

Lemma All_perm (providers : gmap string Provider) :
  Permutation (Orchestrator.All providers) (fst <$> map_to_list providers).
Proof. apply merge_sort_Permutation. Qed.

Lemma omap_lookup_keys (providers : gmap string Provider)
    (l : list (string * Provider)) :
  (forall k p, (k, p) ∈ l -> providers !! k = Some p) ->
  omap (fun name => providers !! name) l.*1 = l.*2.
Proof.
  induction l as [|[k p] l IH]; intros H; [done|]. simpl.
  rewrite (H k p) by left. f_equal. apply IH.
  intros k' p' Hin. apply H. by right.
Qed.

(** The loop over [All()] meets every registered provider once. *)
Lemma registered_providers (providers : gmap string Provider) :
  Permutation
    (omap (fun name => providers !! name) (Orchestrator.All providers))
    (map_to_list providers).*2.
Proof.
  rewrite (All_perm providers). rewrite omap_lookup_keys; [done|].
  intros k p. apply elem_of_map_to_list.
Qed.

Lemma available_length (providers : gmap string Provider) :
  (length (Orchestrator.available providers) <= size providers)%nat.
Proof.
  unfold Orchestrator.available.
  etrans; [apply length_filter|].
  rewrite (Permutation_length (registered_providers providers)).
  by rewrite length_fmap, length_map_to_list.
Qed.

(** No more results arrive than there are registered providers. *)
Lemma arrived_length sched providers verbose query :
  fair sched ->
  (length (arrived sched providers verbose query) <= size providers)%nat.
Proof.
  intros Hfair. unfold arrived, Orchestrator.collect.
  rewrite length_fmap, (Permutation_length (Hfair _ _)).
  apply available_length.
Qed.

(** Whatever the number of results, [runAllModels] prints the results
    that arrived, by heuristic score, highest first. *)
Lemma runAllModels_sorted next sched providers verbose query out :
  Orchestrator.runAllModels next sched providers verbose query = Some out ->
  Permutation out (arrived sched providers verbose query)
  /\ sorted_desc Orchestrator.ModelResult.Score out.
Proof.
  unfold Orchestrator.runAllModels. intros H.
  destruct (len (Orchestrator.available providers) =? 0); [discriminate|].
  inversion H as [Hout]. fold (arrived sched providers verbose query).
  apply (sort_Slice_sorts Orchestrator.ModelResult.Score
           Orchestrator.by_score by_score_key next).
Qed.

(** C1. The results that [runAllModels] prints are the results that
    arrived, one for one, by heuristic score, highest first, and results of
    equal score keep their order of arrival.  Every goroutine reports once,
    and the registry holds at most twelve providers: the program registers
    four, one in the [init] function of each adapter, and up to twelve
    elements [sort.Slice] sorts by insertion. *)
Theorem runAllModels_ranking next sched providers verbose query out :
  fair sched ->
  (size providers <= maxInsertion)%nat ->
  Orchestrator.runAllModels next sched providers verbose query = Some out ->
  Permutation out (arrived sched providers verbose query)
  /\ sorted_desc Orchestrator.ModelResult.Score out
  /\ ties_in_order Orchestrator.ModelResult.Score
       (arrived sched providers verbose query) out.
Proof.
  intros Hfair Hsize Hrun.
  pose proof (arrived_length sched providers verbose query Hfair) as Hlen.
  destruct (runAllModels_sorted _ _ _ _ _ _ Hrun) as [Hperm Hsorted].
  split; [done|]. split; [done|].
  unfold Orchestrator.runAllModels in Hrun.
  destruct (len (Orchestrator.available providers) =? 0); [discriminate|].
  inversion Hrun as [Hout]. fold (arrived sched providers verbose query).
  rewrite (sort_Slice_small Orchestrator.ModelResult.Score
             Orchestrator.by_score by_score_key next
             (arrived sched providers verbose query)) by lia.
  by apply SliceStable_ties.
Qed.

Lemma runAllModels_ranking_witness :
  exists out,
    Orchestrator.runAllModels Sample.xorshift last_first
      (Sample.registry [Sample.claude; Sample.grok; Sample.nova]) false "X"
    = Some out
    /\ sorted_desc Orchestrator.ModelResult.Score out
    /\ ties_in_order Orchestrator.ModelResult.Score
         (arrived last_first
            (Sample.registry [Sample.claude; Sample.grok; Sample.nova])
            false "X") out
    /\ (Name ∘ Orchestrator.ModelResult.Provider) <$> out
       = ["nova"; "claude"; "grok"].
Proof.
  eexists. split; [vm_compute; reflexivity|].
  split; [|split; [|reflexivity]].
  - refine (proj1 (proj2 (runAllModels_ranking Sample.xorshift last_first
                            (Sample.registry [Sample.claude; Sample.grok; Sample.nova])
                            false "X" _ fair_last_first _ _))).
    + vm_compute. lia.
    + vm_compute. reflexivity.
  - refine (proj2 (proj2 (runAllModels_ranking Sample.xorshift last_first
                            (Sample.registry [Sample.claude; Sample.grok; Sample.nova])
                            false "X" _ fair_last_first _ _))).
    + vm_compute. lia.
    + vm_compute. reflexivity.
Defined.

(** The bound of twelve is needed.  In a registry of thirteen providers,
    which the program does not have, [sort.Slice] partitions around a
    pivot and results of equal score change places: when the seventh
    provider alone scores 10 and the twelve others score 0 and arrive as
    m00, m01, ..., they are printed as m03, m02, m00, m04, m05, m01, ... *)
Remark runAllModels_thirteen_reorders_ties :
  ~ (forall next sched providers verbose query out,
       Orchestrator.runAllModels next sched providers verbose query = Some out ->
       sorted_desc Orchestrator.ModelResult.Score out
       /\ ties_in_order Orchestrator.ModelResult.Score
            (arrived sched providers verbose query) out).
Proof.
  intros H.
  destruct (H Sample.xorshift in_order (Sample.registry Sample.thirteen)
              false "X" _ eq_refl) as [_ Hties].
  specialize (Hties 0). vm_compute in Hties. discriminate.
Qed.

(* ===================================================================== *)
(** * Further properties *)
(* ===================================================================== *)

(** ** The registry *)

Lemma string_compare_trans a : forall b c,
  String.compare a b <> Gt -> String.compare b c <> Gt ->
  String.compare a c <> Gt.
Proof.
  induction a as [|x a IH]; intros [|y b] [|z c]; simpl; try congruence.
  unfold Ascii.compare.
  destruct (N.compare_spec (N_of_ascii x) (N_of_ascii y)) as [Exy|Lxy|Gxy];
    destruct (N.compare_spec (N_of_ascii y) (N_of_ascii z)) as [Eyz|Lyz|Gyz];
    try congruence.
  - rewrite Exy, Eyz, N.compare_refl. apply IH.
  - rewrite Exy. rewrite (proj2 (N.compare_lt_iff _ _) Lyz). congruence.
  - rewrite <- Eyz. rewrite (proj2 (N.compare_lt_iff _ _) Lxy). congruence.
  - rewrite (proj2 (N.compare_lt_iff _ _) (N.lt_trans _ _ _ Lxy Lyz)).
    congruence.
Qed.

Lemma string_leb_iff a b : String.leb a b = true <-> String.compare a b <> Gt.
Proof. unfold String.leb. destruct (String.compare a b); split; congruence. Qed.

#[local] Instance string_le_trans : Transitive Orchestrator.string_le.
Proof.
  intros a b c. unfold Orchestrator.string_le. rewrite !string_leb_iff.
  apply string_compare_trans.
Qed.

#[local] Instance string_le_total : Total Orchestrator.string_le.
Proof. intros a b. apply String.leb_total. Qed.

#[local] Instance string_le_antisym : AntiSymm eq Orchestrator.string_le.
Proof. intros a b Hab Hba. by apply String.leb_antisym. Qed.

Lemma All_elem (providers : gmap string Provider) name :
  name ∈ Orchestrator.All providers <-> is_Some (Get providers name).
Proof.
  rewrite All_perm. unfold Get. rewrite list_elem_of_fmap. split.
  - intros ([k p] & -> & Hin). apply elem_of_map_to_list in Hin. by exists p.
  - intros [p Hp]. exists (name, p). split; [done|].
    by apply elem_of_map_to_list.
Qed.

Lemma All_sorted (providers : gmap string Provider) :
  StronglySorted Orchestrator.string_le (Orchestrator.All providers).
Proof. apply StronglySorted_merge_sort; apply _. Qed.

Lemma All_NoDup (providers : gmap string Provider) :
  NoDup (Orchestrator.All providers).
Proof. rewrite All_perm. apply NoDup_fst_map_to_list. Qed.

(** X1. [All()] lists the registered names, each once, in the byte-wise
    order of [sort.Strings]; a name is listed exactly when [Get] finds a
    provider for it; and no other list has these properties. *)
Theorem All_lists_registered (providers : gmap string Provider) :
  StronglySorted Orchestrator.string_le (Orchestrator.All providers)
  /\ NoDup (Orchestrator.All providers)
  /\ (forall name,
        name ∈ Orchestrator.All providers <-> is_Some (Get providers name))
  /\ (forall names,
        StronglySorted Orchestrator.string_le names ->
        NoDup names ->
        (forall name, name ∈ names <-> is_Some (Get providers name)) ->
        names = Orchestrator.All providers).
Proof.
  pose proof (All_sorted providers) as Hs.
  pose proof (All_NoDup providers) as Hn.
  repeat split; try done; try apply All_elem.
  intros names Hs' Hn' Hel.
  apply (StronglySorted_unique Orchestrator.string_le); try done.
  apply NoDup_Permutation; try done.
  intros name. by rewrite Hel, All_elem.
Qed.

Lemma registered_snoc ps p : registered (ps ++ [p]) = Register p (registered ps).
Proof. unfold registered. by rewrite foldl_app. Qed.

Lemma registered_lookup (ps : list Provider) (name : string) :
  Get (registered ps) name = last (filter (fun p => Name p = name) ps).
Proof.
  revert name. induction ps as [|p ps IH] using rev_ind; intros name.
  - done.
  - rewrite registered_snoc, filter_app. unfold Get, Register.
    destruct (decide (Name p = name)) as [Heq|Hne].
    + rewrite Heq, lookup_insert_eq.
      rewrite filter_cons_True, filter_nil by done.
      by rewrite last_snoc.
    + rewrite lookup_insert_ne by done.
      rewrite filter_cons_False, filter_nil, app_nil_r by done.
      apply IH.
Qed.

Lemma registered_keyed (ps : list Provider) : keyed_by_name (registered ps).
Proof.
  intros k p Hp. change (Get (registered ps) k = Some p) in Hp.
  rewrite registered_lookup in Hp. apply last_Some_elem_of in Hp.
  by apply list_elem_of_filter in Hp as [? _].
Qed.

(** X2. After any sequence of [Register] calls, [Get] finds under a name
    the provider registered last with that name, and nothing for a name
    that no registered provider has; so every provider is stored under its
    own name. *)
Theorem Get_registered (ps : list Provider) (name : string) :
  Get (registered ps) name = last (filter (fun p => Name p = name) ps)
  /\ keyed_by_name (registered ps).
Proof. split; [apply registered_lookup|apply registered_keyed]. Qed.

(** ** The pre-flight check and the two modes *)

Lemma available_elem (providers : gmap string Provider) p :
  p ∈ Orchestrator.available providers
  <-> (exists name, Get providers name = Some p) /\ CheckAuth p = None.
Proof.
  unfold Orchestrator.available.
  rewrite list_elem_of_filter, list_elem_of_omap. split.
  - intros [Hauth (name & _ & Hget)]. split; [by exists name|done].
  - intros [[name Hget] Hauth]. split; [done|]. exists name. split; [|done].
    apply All_elem. by exists p.
Qed.

Lemma preflight_foldl providers names st :
  foldl (Main.preflight_step providers) st names
  = (st.1 ++ filter (fun p => CheckAuth p = None)
                    (omap (fun name => providers !! name) names),
     st.2 ++ omap (fun p => Main.auth_message p <$> CheckAuth p)
                  (omap (fun name => providers !! name) names)).
Proof.
  revert st. induction names as [|name names IH]; intros [av sk]; simpl.
  - by rewrite !app_nil_r.
  - rewrite IH. unfold Get.
    destruct (providers !! name) as [p|] eqn:Hp; simpl; [|done].
    destruct (CheckAuth p) as [err|] eqn:Hauth; simpl.
    + rewrite filter_cons_False by (by rewrite Hauth).
      by rewrite <- app_assoc.
    + rewrite filter_cons_True by done.
      by rewrite <- app_assoc.
Qed.

Lemma preflight_available providers :
  (Main.preflight providers).1 = Orchestrator.available providers.
Proof. unfold Main.preflight. by rewrite preflight_foldl. Qed.

Lemma filter_omap_length {X} (P : X -> Prop) `{!forall x, Decision (P x)}
    {Y} (f : X -> option Y) (l : list X) :
  (forall x, x ∈ l -> P x <-> f x = None) ->
  (length (filter P l) + length (omap f l) = length l)%nat.
Proof.
  induction l as [|x l IH]; intros Hall; [done|].
  assert (Hx := Hall x ltac:(left)).
  assert (Hl : forall y, y ∈ l -> P y <-> f y = None)
    by (intros y Hy; apply Hall; by right).
  specialize (IH Hl). simpl.
  destruct (decide (P x)) as [HP|HP].
  - rewrite filter_cons_True by done. rewrite (proj1 Hx HP). simpl. f_equal. exact IH.
  - rewrite filter_cons_False by done.
    destruct (f x) eqn:E; simpl.
    + rewrite Nat.add_succ_r. f_equal. exact IH.
    + destruct HP. by apply Hx.
Qed.

(** X3. The pre-flight check of [runAllModels] sorts every registered
    provider into exactly one of two lists: it is run when [CheckAuth]
    returns nil and reported as skipped otherwise; [runAllModels] exits
    without a query exactly when no registered provider passes. *)
Theorem preflight_partitions next sched providers verbose query :
  (length (Main.preflight providers).1
   + length (Main.preflight providers).2 = size providers)%nat
  /\ (forall p,
        p ∈ (Main.preflight providers).1
        <-> (exists name, Get providers name = Some p) /\ CheckAuth p = None)
  /\ (forall line,
        line ∈ (Main.preflight providers).2
        <-> exists name p err,
              Get providers name = Some p /\ CheckAuth p = Some err
              /\ line = Main.auth_message p err)
  /\ (Orchestrator.runAllModels next sched providers verbose query = None
      <-> forall name p, Get providers name = Some p -> CheckAuth p <> None).
Proof.
  split; [|split; [|split]].
  - unfold Main.preflight. rewrite preflight_foldl. simpl.
    rewrite filter_omap_length.
    + rewrite (Permutation_length (registered_providers providers)).
      by rewrite length_fmap, length_map_to_list.
    + intros p _. destruct (CheckAuth p); simpl; split; congruence.
  - intros p. rewrite preflight_available. apply available_elem.
  - intros line. unfold Main.preflight. rewrite preflight_foldl. simpl.
    rewrite list_elem_of_omap. split.
    + intros (p & Hp & Hline). apply list_elem_of_omap in Hp as (name & _ & Hget).
      destruct (CheckAuth p) as [err|] eqn:Hauth; [|done].
      exists name, p, err. simpl in Hline. by simplify_eq.
    + intros (name & p & err & Hget & Hauth & ->). exists p. split.
      * apply list_elem_of_omap. exists name. split; [|done].
        apply All_elem. by exists p.
      * by rewrite Hauth.
  - unfold Orchestrator.runAllModels.
    destruct (Orchestrator.available providers) as [|p0 av] eqn:Hav.
    + split; [|done]. intros _ name p Hget Hauth.
      assert (Hin : p ∈ Orchestrator.available providers)
        by (apply available_elem; split; [by exists name|done]).
      rewrite Hav in Hin. by apply elem_of_nil in Hin.
    + split; [discriminate|]. intros Hall.
      assert (Hin : p0 ∈ Orchestrator.available providers)
        by (rewrite Hav; left).
      apply available_elem in Hin as [[name Hget] Hauth].
      by destruct (Hall name p0 Hget).
Qed.

Lemma runAllModels_perm next sched providers verbose query out :
  fair sched ->
  Orchestrator.runAllModels next sched providers verbose query = Some out ->
  Permutation out
    (Orchestrator.run_provider query verbose
       <$> Orchestrator.available providers).
Proof.
  unfold Orchestrator.runAllModels. intros Hfair H.
  destruct (len (Orchestrator.available providers) =? 0); [discriminate|].
  inversion H as [Hout].
  destruct (sort_Slice_sorts Orchestrator.ModelResult.Score
              Orchestrator.by_score by_score_key next
              (Orchestrator.collect sched (Orchestrator.available providers)
                 query verbose)) as [Hperm _].
  rewrite Hperm. unfold Orchestrator.collect.
  by rewrite (Hfair _ (Orchestrator.available providers)).
Qed.

Lemma available_names_sublist providers names :
  keyed_by_name providers ->
  sublist (Name <$> filter (fun p => CheckAuth p = None)
                      (omap (fun name => providers !! name) names))
          names.
Proof.
  intros Hkey. induction names as [|name names IH]; [done|]. simpl.
  destruct (providers !! name) as [p|] eqn:Hp; [|by apply sublist_cons].
  destruct (decide (CheckAuth p = None)) as [Hauth|Hauth].
  - rewrite filter_cons_True by done. simpl. rewrite (Hkey _ _ Hp).
    by apply sublist_skip.
  - rewrite filter_cons_False by done. by apply sublist_cons.
Qed.

(** X4. Whatever the order in which the goroutines finish,
    [runAllModels] prints one result for every provider that passed the
    pre-flight check and no other: the result of that provider's query with
    its heuristic score.  In a registry filled by [Register], no two
    printed results have the same provider name. *)
Theorem runAllModels_reports_each_once next sched providers verbose query out :
  fair sched ->
  Orchestrator.runAllModels next sched providers verbose query = Some out ->
  Permutation out
    (Orchestrator.run_provider query verbose
       <$> Orchestrator.available providers)
  /\ (forall mr, mr ∈ out ->
        CheckAuth (Orchestrator.ModelResult.Provider mr) = None
        /\ Orchestrator.ModelResult.Result mr
           = Query (Orchestrator.ModelResult.Provider mr) query verbose
        /\ Orchestrator.ModelResult.Score mr
           = calculateScore (Orchestrator.ModelResult.Result mr))
  /\ (keyed_by_name providers ->
      NoDup ((fun mr => Name (Orchestrator.ModelResult.Provider mr)) <$> out)).
Proof.
  intros Hfair Hrun.
  pose proof (runAllModels_perm _ _ _ _ _ _ Hfair Hrun) as Hperm.
  split; [done|]. split.
  - intros mr Hin. rewrite Hperm in Hin.
    apply list_elem_of_fmap in Hin as (p & -> & Hp).
    apply available_elem in Hp as [_ Hauth]. by simpl.
  - intros Hkey. rewrite Hperm, <- list_fmap_compose.
    eapply sublist_NoDup; [apply (All_NoDup providers)|].
    apply (available_names_sublist providers (Orchestrator.All providers) Hkey).
Qed.

Lemma runAllModels_reports_each_once_witness :
  exists out,
    Orchestrator.runAllModels Sample.xorshift last_first
      (registered [Sample.claude; Sample.grok; Sample.nova]) false "X"
    = Some out
    /\ NoDup ((fun mr => Name (Orchestrator.ModelResult.Provider mr)) <$> out).
Proof.
  eexists. split; [vm_compute; reflexivity|].
  refine (proj2 (proj2 (runAllModels_reports_each_once Sample.xorshift
                          last_first
                          (registered [Sample.claude; Sample.grok; Sample.nova])
                          false "X" _ fair_last_first _)) _).
  - vm_compute. reflexivity.
  - apply registered_keyed.
Defined.

(** X5. The two modes agree: in a registry filled by [Register], a
    result is among those that [runAllModels] prints exactly when
    [runSingleModel], asked for that provider by name, prints the same
    result with the same score. *)
Theorem runSingleModel_agrees next sched providers verbose query out :
  keyed_by_name providers ->
  fair sched ->
  Orchestrator.runAllModels next sched providers verbose query = Some out ->
  forall mr,
    mr ∈ out
    <-> Main.runSingleModel providers verbose
          (Name (Orchestrator.ModelResult.Provider mr)) query
        = Main.Printed mr.
Proof.
  intros Hkey Hfair Hrun mr.
  rewrite (runAllModels_perm _ _ _ _ _ _ Hfair Hrun).
  rewrite list_elem_of_fmap. unfold Main.runSingleModel. split.
  - intros (p & -> & Hp). apply available_elem in Hp as [[name Hget] Hauth].
    simpl. unfold Get in *. rewrite <- (Hkey _ _ Hget) in Hget.
    by rewrite Hget, Hauth.
  - intros Hsingle.
    destruct (Get providers (Name (Orchestrator.ModelResult.Provider mr)))
      as [p|] eqn:Hget; [|discriminate].
    destruct (CheckAuth p) eqn:Hauth; [discriminate|].
    inversion Hsingle as [Hmr]. exists p. split; [done|].
    apply available_elem. split; [|done]. eauto.
Qed.

Lemma runSingleModel_agrees_witness :
  Main.runSingleModel (registered [Sample.claude; Sample.grok; Sample.nova])
    false "nova" "X"
  = Main.Printed (Orchestrator.run_provider "X" false Sample.nova).
Proof.
  refine (proj1 (runSingleModel_agrees Sample.xorshift last_first
                   (registered [Sample.claude; Sample.grok; Sample.nova])
                   false "X" _ _ fair_last_first _
                   (Orchestrator.run_provider "X" false Sample.nova)) _).
  - apply registered_keyed.
  - vm_compute. reflexivity.
  - vm_compute. left.
Defined.

(** ** Cost of a result *)

Section Costs.
Import F64 F64Facts.
#[local] Open Scope Q_scope.

Lemma round_pos_compat x x' : 0 < x -> x == x' -> round_pos x == round_pos x'.
Proof.
  intros Hx E. apply Qle_antisym; apply round_pos_mono; lra.
Qed.

Lemma round_canon_compat x x' : x == x' -> round_canon x == round_canon x'.
Proof. intros E. apply Qle_antisym; apply round_canon_mono; lra. Qed.

Lemma Qdiv_eq a b c : 0 < b -> a == c * b -> a / b == c.
Proof. intros Hb E. rewrite E. field. lra. Qed.

(** A number with a significand of at most 53 bits rounds to itself. *)
Lemma round_pos_exact m e :
  (0 < m <= 2 ^ 53)%Z ->
  round_pos (inject_Z m * pow2 e) == inject_Z m * pow2 e.
Proof.
  intros [Hm0 Hm].
  pose proof (pow2_pos e) as He.
  destruct (Zlog2_pow2 m Hm0) as [Hlo Hhi].
  pose proof (Z.log2_nonneg m) as H0.
  assert (Hl : ilog2 (inject_Z m * pow2 e) = (Z.log2 m + e)%Z).
  { apply ilog2_unique.
    - rewrite pow2_add. apply Qmult_le_compat_r; [done|lra].
    - replace (Z.log2 m + e + 1)%Z with ((Z.log2 m + 1) + e)%Z by lia.
      rewrite pow2_add. apply Qmult_lt_compat_r; done. }
  unfold round_pos. rewrite Hl.
  pose proof (pow2_pos (Z.log2 m + e - 52)) as He'.
  assert (Hsplit : pow2 (Z.log2 m + e - 52) == pow2 e * pow2 (Z.log2 m - 52)).
  { rewrite <- pow2_add. by replace (e + (Z.log2 m - 52))%Z
      with (Z.log2 m + e - 52)%Z by lia. }
  pose proof (pow2_pos (Z.log2 m - 52)) as He''.
  destruct (Z_le_gt_dec (Z.log2 m) 52) as [Hsmall|Hbig].
  - assert (Hinv : pow2 (52 - Z.log2 m) * pow2 (Z.log2 m - 52) == 1).
    { rewrite <- pow2_add.
      by replace (52 - Z.log2 m + (Z.log2 m - 52))%Z with 0%Z by lia. }
    assert (Hy : inject_Z m * pow2 e / pow2 (Z.log2 m + e - 52)
                 == inject_Z (m * 2 ^ (52 - Z.log2 m))).
    { rewrite inject_Z_mult, <- pow2_Z by lia.
      apply Qdiv_eq; [lra|].
      rewrite Hsplit.
      transitivity (inject_Z m * pow2 e
                    * (pow2 (52 - Z.log2 m) * pow2 (Z.log2 m - 52))); [|ring].
      rewrite Hinv. ring. }
    rewrite (rne_compat _ _ Hy), rne_Z.
    rewrite inject_Z_mult, <- pow2_Z by lia. rewrite Hsplit.
    transitivity (inject_Z m * pow2 e
                  * (pow2 (52 - Z.log2 m) * pow2 (Z.log2 m - 52))); [ring|].
    rewrite Hinv. ring.
  - assert (m = 2 ^ 53)%Z.
    { assert (Hl53 : (Z.log2 m <= 53)%Z).
      { destruct (Z.eq_dec m (2 ^ 53)%Z) as [->|Hne]; [reflexivity|].
        assert (Z.log2 m < 53)%Z; [|lia]. apply Z.log2_lt_pow2; lia. }
      assert (E : Z.log2 m = 53%Z) by lia.
      pose proof (Z.log2_spec m Hm0) as [Hs _]. rewrite E in Hs. lia. }
    subst m. change (Z.log2 (2 ^ 53)) with 53%Z in *.
    assert (Hy : inject_Z (2 ^ 53) * pow2 e / pow2 (53 + e - 52)
                 == inject_Z (2 ^ 52)).
    { apply Qdiv_eq; [lra|]. rewrite Hsplit.
      change (pow2 (53 - 52)) with 2.
      change (inject_Z (2 ^ 53)) with (2 * inject_Z (2 ^ 52)). ring. }
    rewrite (rne_compat _ _ Hy), rne_Z. rewrite Hsplit.
    change (pow2 (53 - 52)) with 2.
    change (inject_Z (2 ^ 53)) with (2 * inject_Z (2 ^ 52)). ring.
Qed.

Lemma round_pos_idem x : 0 < x -> round_pos (round_pos x) == round_pos x.
Proof.
  intros Hx. unfold round_pos at 2 3.
  destruct (scaled_bounds x Hx) as [Hlo Hhi].
  set (y := x / pow2 (ilog2 x - 52)) in *.
  assert (H1 : (2 ^ 52 <= rne y)%Z).
  { apply rne_ge. by rewrite <- pow2_Z. }
  assert (H2 : (rne y <= 2 ^ 53)%Z).
  { apply rne_le. rewrite <- pow2_Z by done. by apply Qlt_le_weak. }
  apply round_pos_exact. lia.
Qed.

Lemma round_canon_idem x : round_canon (round_canon x) == round_canon x.
Proof.
  unfold round_canon at 2 3.
  destruct (Qcompare_spec x 0) as [C|C|C].
  - reflexivity.
  - pose proof (round_pos_pos (- x) ltac:(lra)) as Hp.
    unfold round_canon.
    destruct (Qcompare_spec (- round_pos (- x)) 0) as [C'|C'|C']; try lra.
    assert (E : round_pos (- - round_pos (- x)) == round_pos (round_pos (- x))).
    { apply round_pos_compat; lra. }
    rewrite E, round_pos_idem by lra. reflexivity.
  - pose proof (round_pos_pos x C) as Hp.
    unfold round_canon.
    destruct (Qcompare_spec (round_pos x) 0) as [C'|C'|C']; try lra.
    by apply round_pos_idem.
Qed.

(** A [float64] rounds to itself. *)
Lemma round_idem x : round (round x) = round x.
Proof.
  unfold round at 1 3. apply Qred_complete.
  transitivity (round_canon (round_canon (Qred x))).
  - apply round_canon_compat. rewrite Qred_correct. unfold round.
    by rewrite Qred_correct.
  - apply round_canon_idem.
Qed.

Lemma round_zero x : x == 0 -> round x = 0.
Proof. intros E. by rewrite (round_eq x 0 E). Qed.

Lemma of_int_mono a b : (a <= b)%Z -> of_int a <= of_int b.
Proof. intros H. apply round_mono. by rewrite <- Zle_Qle. Qed.

Lemma mul_mono_l x x' p : 0 <= p -> x <= x' -> mul x p <= mul x' p.
Proof. intros Hp H. apply round_mono. by apply Qmult_le_compat_r. Qed.

Lemma add_mono x x' y y' : x <= x' -> y <= y' -> add x y <= add x' y'.
Proof. intros H1 H2. apply round_mono. lra. Qed.

Lemma div_mono_l x x' d : 0 < d -> x <= x' -> div x d <= div x' d.
Proof.
  intros Hd H. apply round_mono. unfold Qdiv.
  apply Qmult_le_compat_r; [done|]. apply Qlt_le_weak. by apply Qinv_lt_0_compat.
Qed.

Lemma Pricing_cases provider p :
  Pricing !! provider = Some p ->
  (provider = "nova"%string /\ p = {| Price.Input := 5 # 2; Price.Output := 25 # 2 |})
  \/ (provider = "claude"%string /\ p = {| Price.Input := 3; Price.Output := 15 |})
  \/ (provider = "gemini"%string /\ p = {| Price.Input := 2; Price.Output := 12 |})
  \/ (provider = "grok"%string /\ p = {| Price.Input := 3; Price.Output := 15 |}).
Proof.
  intros H. apply elem_of_list_to_map_2 in H.
  repeat (apply elem_of_cons in H as [H|H];
          [inversion H; subst; vm_compute; tauto|]).
  by apply elem_of_nil in H.
Qed.

Lemma Pricing_nonneg provider p :
  Pricing !! provider = Some p -> 0 <= Price.Input p /\ 0 <= Price.Output p.
Proof.
  intros H.
  destruct (Pricing_cases _ _ H) as [[_ ->]|[[_ ->]|[[_ ->]|[_ ->]]]];
    simpl; split; lra.
Qed.

Lemma SearchCost_nonneg provider : 0 <= default 0 (SearchCost !! provider).
Proof.
  destruct (SearchCost !! provider) as [c|] eqn:H; simpl; [|lra].
  apply elem_of_list_to_map_2 in H.
  repeat (apply elem_of_cons in H as [H|H];
          [apply (f_equal snd) in H; cbn [snd] in H; rewrite H;
           by vm_compute|]).
  by apply elem_of_nil in H.
Qed.

Lemma TokenCost_rounded r provider :
  round (TokenCost r provider) = TokenCost r provider.
Proof.
  unfold TokenCost. destruct (Pricing !! provider); [|done].
  unfold div. apply round_idem.
Qed.

Lemma TokenCost_mono r r' provider :
  (Input (Tokens r) <= Input (Tokens r'))%Z ->
  (Output (Tokens r) <= Output (Tokens r'))%Z ->
  TokenCost r provider <= TokenCost r' provider.
Proof.
  intros Hin Hout. unfold TokenCost.
  destruct (Pricing !! provider) as [p|] eqn:Hp; [|lra].
  destruct (Pricing_nonneg _ _ Hp) as [Hi Ho].
  apply div_mono_l; [by vm_compute|].
  apply add_mono; apply mul_mono_l; try done; by apply of_int_mono.
Qed.

(** X6. A provider without an entry in the price table costs nothing,
    tokens and search together; and a result that used no tokens has token
    cost zero for every provider. *)
Theorem cost_without_price_or_tokens (r : Result) (provider : string) :
  (provider ∉ ["nova"; "claude"; "gemini"; "grok"]%string ->
   TokenCost r provider = 0 /\ EstimatedCost r provider = 0)
  /\ (Input (Tokens r) = 0%Z -> Output (Tokens r) = 0%Z ->
      TokenCost r provider = 0).
Proof.
  split.
  - intros Hnot.
    assert (Hp : Pricing !! provider = None).
    { apply not_elem_of_list_to_map_1. simpl. exact Hnot. }
    assert (Hs : default 0 (SearchCost !! provider) = 0).
    { destruct (SearchCost !! provider) as [c|] eqn:E; [|done].
      apply elem_of_list_to_map_2 in E. destruct Hnot.
      apply (list_elem_of_fmap_2 fst) in E. exact E. }
    unfold EstimatedCost, TokenCost. rewrite Hp, Hs. by vm_compute.
  - intros Hin Hout. unfold TokenCost. rewrite Hin, Hout.
    destruct (Pricing !! provider) as [p|]; [|done].
    change (of_int 0) with 0. unfold mul, add, div.
    rewrite (round_zero (0 * Price.Input p)) by ring.
    rewrite (round_zero (0 * Price.Output p)) by ring.
    change (round (0 + 0)) with 0. apply round_zero. unfold Qdiv. ring.
Qed.

(** X7. More tokens never cost less: the token cost and the estimated
    cost are monotone in the two token counts, roundings included, and
    they are not negative when the counts are not. *)
Theorem cost_monotone (r r' : Result) (provider : string) :
  (Input (Tokens r) <= Input (Tokens r'))%Z ->
  (Output (Tokens r) <= Output (Tokens r'))%Z ->
  TokenCost r provider <= TokenCost r' provider
  /\ EstimatedCost r provider <= EstimatedCost r' provider
  /\ ((0 <= Input (Tokens r))%Z -> (0 <= Output (Tokens r))%Z ->
      0 <= TokenCost r provider /\ 0 <= EstimatedCost r provider).
Proof.
  intros Hin Hout.
  pose proof (TokenCost_mono r r' provider Hin Hout) as Hm.
  split; [done|]. split.
  - unfold EstimatedCost. apply add_mono; [done|lra].
  - intros Hi Ho.
    set (zero := {| Text := Text r; Citations := Citations r;
                    Duration := Duration r;
                    Tokens := {| Input := 0; Output := 0 |};
                    Error := Error r |}).
    pose proof (TokenCost_mono zero r provider Hi Ho) as H0.
    assert (Hz : TokenCost zero provider = 0).
    { unfold TokenCost. simpl.
      destruct (Pricing !! provider) as [p|]; [|done].
      change (of_int 0) with 0. unfold mul, add, div.
      rewrite (round_zero (0 * Price.Input p)) by ring.
      rewrite (round_zero (0 * Price.Output p)) by ring.
      change (round (0 + 0)) with 0. apply round_zero. unfold Qdiv. ring. }
    rewrite Hz in H0. split; [done|].
    unfold EstimatedCost. apply round_nonneg.
    pose proof (SearchCost_nonneg provider). lra.
Qed.

Lemma cost_monotone_witness :
  TokenCost Sample.timeout "claude" <= TokenCost Sample.paris "claude".
Proof.
  refine (proj1 (cost_monotone Sample.timeout Sample.paris "claude" _ _)).
  - vm_compute. discriminate.
  - vm_compute. discriminate.
Defined.

(** X8. The estimated cost is never below the token cost, and it is the
    token cost itself where the search fee is zero, as it is for Grok. *)
Theorem EstimatedCost_adds_search (r : Result) (provider : string) :
  TokenCost r provider <= EstimatedCost r provider
  /\ (default 0 (SearchCost !! provider) == 0 ->
      EstimatedCost r provider = TokenCost r provider)
  /\ EstimatedCost r "grok" = TokenCost r "grok".
Proof.
  assert (Heq : forall prov, default 0 (SearchCost !! prov) == 0 ->
                  EstimatedCost r prov = TokenCost r prov).
  { intros prov Hz. unfold EstimatedCost, add.
    rewrite <- (TokenCost_rounded r prov) at 2. apply round_eq. lra. }
  split; [|split].
  - rewrite <- (TokenCost_rounded r provider) at 1.
    unfold EstimatedCost, add. apply round_mono.
    pose proof (SearchCost_nonneg provider). lra.
  - apply Heq.
  - apply Heq. by vm_compute.
Qed.

(** X9. For token counts of at most 53 bits the token cost computed in
    [float64] is within one part in [2^51] of
    (input · input price + output · output price) / 1,000,000 with the
    decimal prices of the table. *)
Theorem TokenCost_accurate (r : Result) (provider : string) (price : Q * Q) :
  (provider, price) ∈ price_list ->
  (0 <= Input (Tokens r) <= 2 ^ 53)%Z ->
  (0 <= Output (Tokens r) <= 2 ^ 53)%Z ->
  exact_token_cost r price * (1 - (1 # 2 ^ 51)) <= TokenCost r provider
  /\ TokenCost r provider <= exact_token_cost r price * (1 + (1 # 2 ^ 51)).
Proof.
  intros Hin Hi Ho. unfold exact_token_cost.
  assert (Hi' : 0 <= inject_Z (Input (Tokens r)))
    by (change 0 with (inject_Z 0); rewrite <- Zle_Qle; lia).
  assert (Ho' : 0 <= inject_Z (Output (Tokens r)))
    by (change 0 with (inject_Z 0); rewrite <- Zle_Qle; lia).
  unfold TokenCost, div, add, mul, of_int. rewrite !round_Z by lia.
  set (vi := inject_Z (Input (Tokens r))) in *.
  set (vo := inject_Z (Output (Tokens r))) in *.
  change (1 # 2 ^ 51) with (1 # 2251799813685248).
  unfold price_list in Hin.
  repeat (apply elem_of_cons in Hin as [Hin|Hin];
    [inversion Hin; subst provider price; clear Hin;
     match goal with
     | |- context [Pricing !! ?k] =>
         let v := eval vm_compute in (Pricing !! k) in
         change (Pricing !! k) with v
     end; cbn [Price.Input Price.Output fst snd];
     change (const 1000000) with 1000000;
     unfold Qdiv; change (/ 1000000) with (1 # 1000000);
     match goal with
     | |- context [round (round (round (vi * ?a) + round (vo * ?b)) * _)] =>
         assert (H1 := round_near (vi * a));
         assert (H2 := round_near (vo * b));
         set (t1 := round (vi * a)) in *; set (t2 := round (vo * b)) in *;
         unfold unit_roundoff in *;
         destruct H1 as [H1a H1b]; [lra|];
         destruct H2 as [H2a H2b]; [lra|];
         assert (H3 := round_near (t1 + t2));
         set (s := round (t1 + t2)) in *;
         unfold unit_roundoff in *;
         destruct H3 as [H3a H3b]; [lra|];
         assert (H4 := round_near (s * (1 # 1000000)));
         set (d := round (s * (1 # 1000000))) in *;
         unfold unit_roundoff in *;
         destruct H4 as [H4a H4b]; [lra|];
         split; lra
     end|]).
  by apply elem_of_nil in Hin.
Qed.

Lemma TokenCost_accurate_witness :
  TokenCost Sample.paris "claude"
  <= exact_token_cost Sample.paris (3.00, 15.00) * (1 + (1 # 2 ^ 51)).
Proof.
  refine (proj2 (TokenCost_accurate Sample.paris "claude" (3.00, 15.00) _ _ _)).
  - vm_compute. right. left.
  - vm_compute. split; discriminate.
  - vm_compute. split; discriminate.
Defined.
End Costs.

(** ** Link validation and the link health score *)

(** X10. [validateCitations] is free of races: for every order in which
    the probes finish, the check at index [i] is the one computed from the
    HEAD probe of citation [i].  It is healthy exactly when the probe
    answered with a status from 200 to 399; a probe that failed leaves
    status 0 and the error text. *)
Theorem validateCitations_verdicts sched head (citations : list Citation) :
  fair sched ->
  validateCitations sched head citations
  = validateCitations in_order head citations
  /\ forall i c,
       citations !! i = Some c ->
       exists check,
         validateCitations sched head citations !! i = Some check
         /\ CitationCheck.Latency check = elapsed (head i c)
         /\ match outcome (head i c) with
            | HeadFailed err =>
                CitationCheck.Healthy check = false
                /\ CitationCheck.StatusCode check = 0
                /\ CitationCheck.Error check = err
            | HeadResponse status =>
                (CitationCheck.Healthy check = true <-> 200 <= status < 400)
                /\ CitationCheck.StatusCode check = status
                /\ CitationCheck.Error check = ""
            end.
Proof.
  intros Hfair.
  rewrite (validateCitations_imap head sched citations Hfair).
  rewrite (validateCitations_imap head in_order citations fair_in_order).
  split; [done|]. intros i c Hc. exists (probe_citation head i c). split.
  - by rewrite list_lookup_imap, Hc.
  - unfold probe_citation. destruct (outcome (head i c)) as [err|status]; simpl.
    + done.
    + split; [done|]. split; [|done].
      rewrite andb_true_iff, Z.leb_le, Z.ltb_lt. done.
Qed.

Lemma validateCitations_verdicts_witness :
  validateCitations last_first (Sample.all_links_ok 0)
    (Citations Sample.paris)
  = validateCitations in_order (Sample.all_links_ok 0)
      (Citations Sample.paris).
Proof.
  exact (proj1 (validateCitations_verdicts last_first (Sample.all_links_ok 0)
                  (Citations Sample.paris) fair_last_first)).
Defined.

Section LinkScoreFacts.
Import F64 F64Facts.
#[local] Open Scope Q_scope.

Lemma to_int_mono x y : 0 <= x -> x <= y -> (to_int x <= to_int y)%Z.
Proof.
  intros Hx Hxy. rewrite !to_int_floor by lra. by apply Qfloor_resp_le.
Qed.

Lemma score_from_mono h h' n :
  (0 <= h <= h')%Z -> (0 < n)%Z -> (score_from h n <= score_from h' n)%Z.
Proof.
  intros Hh Hn. unfold score_from.
  pose proof (of_int_pos n Hn) as Hpn.
  assert (Hle : mul (div (of_int h) (of_int n)) (of_int 9)
                <= mul (div (of_int h') (of_int n)) (of_int 9)).
  { apply mul_mono_l; [by vm_compute|].
    apply div_mono_l; [done|]. apply of_int_mono. lia. }
  assert (H0 : 0 <= mul (div (of_int h) (of_int n)) (of_int 9)).
  { apply round_nonneg. apply Qmult_le_0_compat; [|by vm_compute].
    apply round_nonneg. apply Qle_shift_div_l; [done|].
    rewrite Qmult_0_l. apply of_int_nonneg. lia. }
  pose proof (to_int_mono _ _ H0 Hle) as Hm.
  repeat match goal with
         | |- context [(10 <? ?z)%Z] => destruct (Z.ltb_spec 10 z)
         end; lia.
Qed.
End LinkScoreFacts.

(** X11. Of two lists of checks of the same length, the one with more
    healthy checks never has the lower link health score, the roundings of
    [float64] notwithstanding. *)
Theorem linkHealthScore_monotone (checks checks' : list CitationCheck) :
  length checks = length checks' ->
  healthy_count checks <= healthy_count checks' ->
  linkHealthScore checks <= linkHealthScore checks'.
Proof.
  intros Hlen Hh.
  pose proof (healthy_count_range checks) as Hr.
  destruct checks as [|c checks]; destruct checks' as [|c' checks'];
    try discriminate.
  rewrite !linkHealthScore_unfold by done.
  unfold len. rewrite <- Hlen. apply score_from_mono; [lia|].
  simpl. lia.
Qed.

(** X12. On a non-empty list of checks that a Go slice can hold, the link
    health score is 10 exactly when every check is healthy, and 1 exactly
    when fewer than one check in nine is. *)
Theorem linkHealthScore_extremes (checks : list CitationCheck) :
  checks <> [] ->
  len checks <= max_slice_len ->
  (linkHealthScore checks = 10
   <-> Forall (fun c => CitationCheck.Healthy c = true) checks)
  /\ (linkHealthScore checks = 1
      <-> 9 * healthy_count checks < len checks).
Proof.
  intros Hne Hmax.
  pose proof (healthy_count_range checks) as Hr.
  assert (Hpos : 0 < len checks).
  { unfold len. destruct checks; [done|simpl; lia]. }
  rewrite linkHealthScore_unfold by done.
  rewrite score_from_formula by lia.
  set (h := healthy_count checks) in *. set (n := len checks) in *.
  assert (Hdiv : 0 <= 9 * h / n) by (apply Z.div_pos; lia).
  split.
  - split.
    + intros Hten.
      assert (Hnine : 9 <= 9 * h / n) by lia.
      assert (Hhn : h = n).
      { assert (n * 9 <= 9 * h); [|lia].
        etrans; [|apply (Z.mul_div_le (9 * h) n); lia]. nia. }
      unfold h, n, healthy_count, len in Hhn.
      apply Nat2Z.inj in Hhn.
      apply Forall_forall. intros c Hc.
      destruct (CitationCheck.Healthy c) eqn:Hhc; [done|].
      pose proof (length_filter_lt
                    (fun c => CitationCheck.Healthy c = true) checks c Hc)
        as Hlt.
      simpl in Hlt. specialize (Hlt ltac:(congruence)). lia.
    + intros Hall.
      unfold h. rewrite (healthy_count_all checks Hall). fold n.
      rewrite Z.div_mul by lia. done.
  - split.
    + intros Hone. assert (E : 9 * h / n = 0) by lia.
      apply Z.div_small_iff in E; lia.
    + intros Hsmall. rewrite Z.div_small by lia. done.
Qed.

Lemma linkHealthScore_extremes_witness :
  linkHealthScore (validateCitations in_order (Sample.all_links_ok 0)
                     (Citations Sample.paris)) = 10.
Proof.
  refine (proj2 (proj1 (linkHealthScore_extremes
                          (validateCitations in_order (Sample.all_links_ok 0)
                             (Citations Sample.paris)) _ _)) _).
  - vm_compute. discriminate.
  - vm_compute. discriminate.
  - vm_compute. repeat constructor.
Defined.

Lemma linkHealthScore_monotone_witness :
  linkHealthScore [zero_check]
  <= linkHealthScore (validateCitations in_order (Sample.all_links_ok 0)
                        (Citations Sample.paris)).
Proof.
  refine (linkHealthScore_monotone [zero_check]
            (validateCitations in_order (Sample.all_links_ok 0)
               (Citations Sample.paris)) _ _).
  - reflexivity.
  - vm_compute. discriminate.
Defined.

(** ** Judge: the order of the results *)

Section StableByFloat.
Context {A : Type} (key : A -> Q) (less : A -> A -> bool).
Hypothesis less_key : forall x y, less x y = true <-> (key y < key x)%Q.
#[local] Open Scope Q_scope.

Lemma less_key_false x y : less x y = false <-> key x <= key y.
Proof.
  destruct (less x y) eqn:E.
  - apply less_key in E. split; [done|]. intros H. lra.
  - split; [|done]. intros _.
    destruct (Qlt_le_dec (key y) (key x)) as [Hlt|Hle]; [|done].
    apply less_key in Hlt. congruence.
Qed.

Lemma insert_stable_ranked (l : list A) x :
  ranked_desc key l -> ranked_desc key (insert_stable less x l).
Proof.
  induction 1 as [|y l Hl IH Hy]; simpl.
  - repeat constructor.
  - destruct (less x y) eqn:Hxy.
    + apply less_key in Hxy. constructor; [by constructor|].
      constructor; [lra|]. eapply Forall_impl; [apply Hy|].
      intros z Hz. simpl in *. lra.
    + apply less_key_false in Hxy. constructor; [done|].
      rewrite (insert_stable_perm less x l). by constructor.
Qed.

Lemma foldl_insert_ranked (l acc : list A) :
  ranked_desc key acc ->
  ranked_desc key (foldl (fun sorted x => insert_stable less x sorted) acc l).
Proof.
  revert acc. induction l as [|x l IH]; intros acc Hacc; simpl; [done|].
  apply IH. by apply insert_stable_ranked.
Qed.

Lemma SliceStable_ranked (l : list A) : ranked_desc key (SliceStable less l).
Proof. apply foldl_insert_ranked. constructor. Qed.

Lemma insert_stable_ties (l : list A) x s :
  ranked_desc key l ->
  filter (fun y => key y == s) (insert_stable less x l)
  = filter (fun y => key y == s) l ++ filter (fun y => key y == s) [x].
Proof.
  induction 1 as [|y l Hl IH Hy]; simpl; [done|].
  destruct (less x y) eqn:Hxy.
  - apply less_key in Hxy.
    rewrite (filter_cons _ x), (filter_cons _ x []).
    destruct (decide (key x == s)) as [Hx|Hx]; [|by rewrite app_nil_r].
    assert (Hnone : filter (fun y => key y == s) (y :: l) = []).
    { apply filter_none. constructor; [simpl; lra|].
      eapply Forall_impl; [apply Hy|]. intros z Hz. simpl in *. lra. }
    by rewrite Hnone.
  - rewrite !(filter_cons _ y), IH. by destruct (decide (key y == s)).
Qed.

Lemma foldl_insert_ties (l acc : list A) s :
  ranked_desc key acc ->
  filter (fun y => key y == s)
         (foldl (fun sorted x => insert_stable less x sorted) acc l)
  = filter (fun y => key y == s) acc ++ filter (fun y => key y == s) l.
Proof.
  revert acc. induction l as [|x l IH]; intros acc Hacc; simpl.
  - by rewrite app_nil_r.
  - rewrite IH by (by apply insert_stable_ranked).
    rewrite insert_stable_ties by done.
    rewrite <- app_assoc. f_equal.
    rewrite (filter_cons _ x l). rewrite (filter_cons _ x []).
    by destruct (decide (key x == s)).
Qed.

Lemma SliceStable_ties_kept (l : list A) : ties_kept key l (SliceStable less l).
Proof.
  intros s. unfold SliceStable. rewrite foldl_insert_ties by constructor.
  done.
Qed.

Lemma ranked_desc_lookup (l : list A) i j x y :
  ranked_desc key l -> l !! i = Some x -> l !! j = Some y -> (i < j)%nat ->
  key y <= key x.
Proof.
  intros Hs. revert i j. induction Hs as [|z l Hl IH Hz]; intros i j Hi Hj Hij.
  - done.
  - destruct j as [|j]; [lia|]. simpl in Hj. destruct i as [|i].
    + simpl in Hi. inversion Hi; subst z.
      rewrite Forall_forall in Hz. apply Hz. by eapply list_elem_of_lookup_2.
    + simpl in Hi. apply (IH i j); [done|done|lia].
Qed.
End StableByFloat.

Lemma by_overall_key x y :
  by_overall x y = true <-> (rank_key y < rank_key x)%Q.
Proof.
  unfold by_overall, F64.gtb. rewrite Qlt_alt.
  rewrite <- (Qcompare_antisym (rank_key x) (rank_key y)).
  destruct (rank_key x ?= rank_key y)%Q; simpl; split; congruence.
Qed.

(** X13. When [Judge] has scored the results, it returns them by
    [Overall], highest first, a result without a score counting as 0; and
    results of equal [Overall] stay in the order in which they came in. *)
Theorem Judge_ranks_by_overall ToLower w results query verbose out mr :
  Judge ToLower w results query verbose = (out, None) ->
  mr ∈ results -> usable mr = true ->
  ranked_desc rank_key out
  /\ exists judged,
       Forall2 judged_from results judged
       /\ ties_kept rank_key judged out.
Proof.
  intros HJ Hin Hu.
  destruct (Judge_no_error ToLower _ _ _ _ _ HJ) as [[_ Hnone]|(evals & _ & ->)].
  { rewrite (Hnone mr Hin) in Hu. discriminate. }
  split.
  - apply (SliceStable_ranked rank_key by_overall by_overall_key).
  - eexists. split.
    + apply Forall2_imap. intros i mr' _. apply attach_judged_from.
    + apply (SliceStable_ties_kept rank_key by_overall by_overall_key).
Qed.

Lemma Judge_ranks_by_overall_witness :
  ranked_desc rank_key
    (Judge ToLower_ascii (Sample.world Sample.scored_claude)
       [Sample.fresh Sample.grok; Sample.fresh Sample.nova;
        Sample.fresh Sample.claude] "X" false).1.
Proof.
  refine (proj1 (Judge_ranks_by_overall ToLower_ascii
                   (Sample.world Sample.scored_claude)
                   [Sample.fresh Sample.grok; Sample.fresh Sample.nova;
                    Sample.fresh Sample.claude] "X" false _
                   (Sample.fresh Sample.nova) _ _ _)).
  - vm_compute. reflexivity.
  - vm_compute. right. left.
  - reflexivity.
Defined.

Section ScoredFirst.
Import F64 F64Facts.
#[local] Open Scope Q_scope.

Lemma weighted_mono q lh r s i q' lh' r' s' i' :
  (q <= q')%Z -> (lh <= lh')%Z -> (r <= r')%Z -> (s <= s')%Z -> (i <= i')%Z ->
  weighted q lh r s i <= weighted q' lh' r' s' i'.
Proof.
  intros Hq Hlh Hr Hs Hi. unfold weighted.
  repeat apply add_mono;
    (apply mul_mono_l; [by vm_compute|by apply of_int_mono]).
Qed.

Lemma weighted_pos q lh r s i :
  (0 <= q)%Z -> (1 <= lh)%Z -> (0 <= r)%Z -> (0 <= s)%Z -> (0 <= i)%Z ->
  0 < weighted q lh r s i.
Proof.
  intros Hq Hlh Hr Hs Hi.
  eapply Qlt_le_trans; [|apply (weighted_mono 0 1 0 0 0); done].
  by vm_compute.
Qed.

Lemma match_evaluation_elem ToLower w i evals p eval :
  well_behaved w ->
  match_evaluation ToLower w i (build_evalMap evals) p = Some eval ->
  eval ∈ evals.
Proof.
  intros [_ Hrange]. unfold match_evaluation.
  destruct (build_evalMap evals !! DisplayName p) as [e|] eqn:Hl.
  - intros [= <-]. by apply build_evalMap_lookup in Hl as [? _].
  - destruct (List.find _ _) as [[name e]|] eqn:Hf; [|done].
    intros [= <-]. apply find_some in Hf as [Hin _].
    apply list_elem_of_In in Hin. rewrite (Hrange i _) in Hin.
    apply elem_of_map_to_list in Hin.
    by apply build_evalMap_lookup in Hin as [? _].
Qed.

Lemma attach_rank_pos ToLower w allChecks evals i mr :
  well_behaved w ->
  Forall nonneg_evaluation evals ->
  usable mr = true ->
  0 < rank_key (attach ToLower w allChecks (build_evalMap evals) i mr).
Proof.
  intros Hw Hnn Hu. unfold attach. rewrite Hu. unfold rank_key. simpl.
  pose proof (linkHealthScore_range
                (checks_of allChecks (Name (ModelResult.Provider mr)))) as Hlh.
  destruct (match_evaluation _ _ _ _ _) as [eval|] eqn:Hm; simpl.
  - apply (match_evaluation_elem _ _ _ _ _ _ Hw) in Hm.
    rewrite Forall_forall in Hnn. destruct (Hnn eval Hm) as (?&?&?&?).
    apply weighted_pos; lia.
  - eapply Qlt_le_trans; [|apply (of_int_mono 1); lia]. by vm_compute.
Qed.
End ScoredFirst.

(** X14. Failed results are listed last: when the numbers of the
    evaluations are not negative and no failed result came in with a
    score, every result without an error precedes, in what [Judge]
    returns, every result with an error. *)
Theorem Judge_lists_failures_last ToLower w results query verbose out :
  well_behaved w ->
  (forall evals, scoring_gives w evals -> Forall nonneg_evaluation evals) ->
  (forall mr, mr ∈ results -> usable mr = false ->
     ModelResult.JudgeScore mr = None) ->
  Judge ToLower w results query verbose = (out, None) ->
  forall i j a b,
    out !! i = Some a -> out !! j = Some b ->
    usable a = true -> usable b = false ->
    (i < j)%nat.
Proof.
  intros Hw Hnn Hfresh HJ i j a b Hi Hj Ha Hb.
  destruct (Judge_no_error ToLower _ _ _ _ _ HJ)
    as [[-> Hnone]|(evals & Hgives & ->)].
  { rewrite (Hnone a) in Ha by (by eapply list_elem_of_lookup_2). discriminate. }
  specialize (Hnn evals Hgives).
  set (judged := imap (attach ToLower w (validate_all w results)
                         (build_evalMap evals)) results) in *.
  assert (Hsrc : forall x, x ∈ SliceStable by_overall judged ->
                   exists k mr, results !! k = Some mr
                     /\ x = attach ToLower w (validate_all w results)
                              (build_evalMap evals) k mr).
  { intros x Hx. rewrite SliceStable_perm in Hx.
    apply list_elem_of_lookup in Hx as [k Hk]. unfold judged in Hk.
    rewrite list_lookup_imap in Hk.
    destruct (results !! k) as [mr|] eqn:Hr; [|done].
    exists k, mr. split; [done|]. by inversion Hk. }
  assert (Hka : (0 < rank_key a)%Q).
  { destruct (Hsrc a) as (k & mr & Hr & ->); [by eapply list_elem_of_lookup_2|].
    apply attach_rank_pos; [done|done|].
    destruct (attach_judged_from ToLower w (validate_all w results)
                (build_evalMap evals) k mr) as (_ & HR & _).
    unfold usable in *. by rewrite <- HR. }
  assert (Hkb : rank_key b = 0%Q).
  { destruct (Hsrc b) as (k & mr & Hr & ->); [by eapply list_elem_of_lookup_2|].
    assert (Hum : usable mr = false).
    { destruct (attach_judged_from ToLower w (validate_all w results)
                  (build_evalMap evals) k mr) as (_ & HR & _).
      unfold usable in *. by rewrite <- HR. }
    unfold attach. rewrite Hum. unfold rank_key.
    by rewrite (Hfresh mr) by (done || by eapply list_elem_of_lookup_2). }
  destruct (Nat.lt_trichotomy i j) as [Hlt|[->|Hgt]]; [done| |].
  - rewrite Hi in Hj. inversion Hj; subst b. congruence.
  - pose proof (ranked_desc_lookup rank_key _ j i b a
                  (SliceStable_ranked rank_key by_overall by_overall_key judged)
                  Hj Hi Hgt) as Hle.
    rewrite Hkb in Hle. exfalso.
    apply (Qlt_irrefl 0). eapply Qlt_le_trans; eauto.
Qed.

Lemma Judge_lists_failures_last_witness :
  exists out,
    Judge ToLower_ascii (Sample.world Sample.scored_claude)
      [Sample.fresh Sample.grok; Sample.fresh Sample.nova;
       Sample.fresh Sample.claude] "X" false = (out, None)
    /\ (Name ∘ ModelResult.Provider) <$> out = ["nova"; "claude"; "grok"]
    /\ forall i j a b,
         out !! i = Some a -> out !! j = Some b ->
         usable a = true -> usable b = false -> (i < j)%nat.
Proof.
  eexists. split; [vm_compute; reflexivity|]. split; [reflexivity|].
  refine (Judge_lists_failures_last ToLower_ascii
            (Sample.world Sample.scored_claude)
            [Sample.fresh Sample.grok; Sample.fresh Sample.nova;
             Sample.fresh Sample.claude] "X" false _ _ _ _ _).
  - apply Sample_world_well_behaved.
  - intros evals (content & Hm & Hp & _). simpl in Hm.
    inversion Hm; subst content. simpl in Hp. inversion Hp; subst evals.
    repeat constructor; vm_compute; discriminate.
  - intros mr Hin _.
    repeat (apply elem_of_cons in Hin as [->|Hin]; [reflexivity|]).
    by apply elem_of_nil in Hin.
  - vm_compute. reflexivity.
Defined.

(** ** The deduplicator, seen from its callers *)

Lemma dedup_all_snoc cands c :
  dedup_all (cands ++ [c]) = DeduplicateCitations (dedup_all cands) c.
Proof. unfold dedup_all. by rewrite foldl_app. Qed.

Lemma seen_tracks_step st c :
  seen_tracks st -> seen_tracks (DeduplicateCitations st c).
Proof.
  intros Ht.
  destruct (String.eqb_spec (URL c) "") as [Hempty|Hurl].
  { rewrite DeduplicateCitations_noop by auto. done. }
  destruct (seen_get st.2 (URL c)) eqn:Hs.
  { rewrite DeduplicateCitations_noop by auto. done. }
  rewrite DeduplicateCitations_new by done.
  intros u. simpl. rewrite seen_get_insert, fmap_app, elem_of_app.
  rewrite orb_true_iff, (Ht u). simpl. rewrite list_elem_of_singleton.
  split.
  - intros [H|H]; [|by left]. right. apply String.eqb_eq in H. by subst u.
  - intros [H|H]; [by right|]. left. subst u. apply String.eqb_refl.
Qed.

Lemma seen_tracks_empty : seen_tracks ([], ∅).
Proof.
  intros u. unfold seen_get. simpl. rewrite lookup_empty. simpl.
  split; [done|]. intros H. by apply elem_of_nil in H.
Qed.

Lemma seen_tracks_dedup_all cands : seen_tracks (dedup_all cands).
Proof.
  induction cands as [|c cands IH] using rev_ind; [apply seen_tracks_empty|].
  rewrite dedup_all_snoc. by apply seen_tracks_step.
Qed.

Lemma dedup_all_urls cands u :
  u ∈ URL <$> (dedup_all cands).1 <-> u <> "" /\ u ∈ URL <$> cands.
Proof.
  induction cands as [|c cands IH] using rev_ind.
  - simpl. split; [intros H; by apply elem_of_nil in H|].
    intros [_ H]. by apply elem_of_nil in H.
  - rewrite dedup_all_snoc, fmap_app, elem_of_app. simpl.
    rewrite list_elem_of_singleton.
    pose proof (seen_tracks_dedup_all cands) as Ht.
    destruct (String.eqb_spec (URL c) "") as [Hempty|Hurl].
    { rewrite DeduplicateCitations_noop by auto. rewrite IH.
      split; [tauto|]. intros [Hu [H|H]]; [done|]. congruence. }
    destruct (seen_get (dedup_all cands).2 (URL c)) eqn:Hs.
    { rewrite DeduplicateCitations_noop by auto. rewrite IH.
      split; [tauto|]. intros [Hu [H|H]]; [done|]. subst u.
      apply IH. by apply Ht. }
    rewrite DeduplicateCitations_new by done. simpl.
    rewrite fmap_app, elem_of_app, IH. simpl. rewrite list_elem_of_singleton.
    split; [|tauto]. intros [H|H]; [tauto|]. subst u. tauto.
Qed.

Lemma dedup_all_sublist cands : (dedup_all cands).1 `sublist_of` cands.
Proof.
  induction cands as [|c cands IH] using rev_ind; [done|].
  rewrite dedup_all_snoc. unfold DeduplicateCitations.
  destruct (dedup_all cands) as [citations seen]. simpl in *.
  destruct (_ && _).
  - simpl. by apply sublist_app.
  - simpl. by apply sublist_inserts_r.
Qed.

(** X15. Fed a sequence of candidates from an empty state,
    [DeduplicateCitations] loses no source and keeps the order: the
    collection is a subsequence of the candidates; a URL occurs in it
    exactly when it is not empty and some candidate has it; and the
    citation kept for a URL is the first candidate with that URL. *)
Theorem dedup_keeps_first (cands : list Citation) :
  (dedup_all cands).1 `sublist_of` cands
  /\ (forall u,
        u ∈ URL <$> (dedup_all cands).1 <-> u <> "" /\ u ∈ URL <$> cands)
  /\ (forall c,
        c ∈ (dedup_all cands).1 ->
        exists i,
          cands !! i = Some c
          /\ forall j c', (j < i)%nat -> cands !! j = Some c' ->
               URL c' <> URL c).
Proof.
  split; [apply dedup_all_sublist|]. split; [apply dedup_all_urls|].
  induction cands as [|x cands IH] using rev_ind.
  - intros c Hc. by apply elem_of_nil in Hc.
  - intros c. rewrite dedup_all_snoc.
    pose proof (seen_tracks_dedup_all cands) as Ht.
    assert (Hold : c ∈ (dedup_all cands).1 ->
              exists i, (cands ++ [x]) !! i = Some c
                /\ forall j c', (j < i)%nat -> (cands ++ [x]) !! j = Some c' ->
                     URL c' <> URL c).
    { intros Hc. destruct (IH c Hc) as (i & Hi & Hfirst).
      pose proof (lookup_lt_Some _ _ _ Hi) as Hlt.
      exists i. split; [by rewrite lookup_app_l|].
      intros j c' Hj Hc'. rewrite lookup_app_l in Hc' by lia. eauto. }
    destruct (String.eqb_spec (URL x) "") as [Hempty|Hurl].
    { rewrite DeduplicateCitations_noop by auto. done. }
    destruct (seen_get (dedup_all cands).2 (URL x)) eqn:Hs.
    { rewrite DeduplicateCitations_noop by auto. done. }
    rewrite DeduplicateCitations_new by done. simpl.
    rewrite elem_of_app, list_elem_of_singleton. intros [Hc| ->]; [auto|].
    exists (length cands). split.
    + by rewrite lookup_app_r, Nat.sub_diag by lia.
    + intros j c' Hj Hc'. rewrite lookup_app_l in Hc' by lia.
      intros Heq.
      assert (Hin : URL x ∈ URL <$> (dedup_all cands).1).
      { apply dedup_all_urls. split; [done|]. rewrite <- Heq.
        apply list_elem_of_fmap_2. by eapply list_elem_of_lookup_2. }
      apply Ht in Hin. congruence.
Qed.

(** ** The adapters *)

Lemma append_assoc (a b c : string) : (a +:+ b) +:+ c = a +:+ (b +:+ c).
Proof.
  induction a as [|x a IH]; [done|].
  change (String x ((a +:+ b) +:+ c) = String x (a +:+ (b +:+ c))).
  by rewrite IH.
Qed.

Lemma append_empty_r (a : string) : a +:+ "" = a.
Proof.
  induction a as [|x a IH]; [done|].
  change (String x (a +:+ "") = String x a). by rewrite IH.
Qed.

Lemma join_app (l k : list string) : join (l ++ k) = join l +:+ join k.
Proof.
  unfold join. induction l as [|x l IH]; simpl; [done|].
  by rewrite IH, append_assoc.
Qed.

Lemma dedup_foldl_inv {X} (step : list Citation * gmap string bool -> X ->
                                  list Citation * gmap string bool)
    (cand : X -> list Citation) (l : list X) st :
  (forall st x, step st x = foldl DeduplicateCitations st (cand x)) ->
  foldl step st l = foldl DeduplicateCitations st (flat_map cand l).
Proof.
  intros Hstep. revert st. induction l as [|x l IH]; intros st; simpl; [done|].
  by rewrite foldl_app, IH, Hstep.
Qed.

Lemma claude_citation_step st citation :
  claude_citation st citation
  = foldl DeduplicateCitations st
      ((fun citation =>
          {| URL := anthropic.TextCitation.URL citation;
             Domain := "";
             Title := anthropic.TextCitation.Title citation |})
         <$> filter (fun citation =>
                       anthropic.TextCitation.Type_ citation
                       = "web_search_result_location") [citation]).
Proof.
  unfold claude_citation. rewrite filter_cons, filter_nil.
  destruct (String.eqb_spec (anthropic.TextCitation.Type_ citation)
              "web_search_result_location") as [Ht|Ht]; simpl.
  - rewrite decide_True by done. simpl.
    destruct (String.eqb_spec (anthropic.TextCitation.URL citation) "")
      as [Hu|Hu]; simpl; [|done].
    by rewrite DeduplicateCitations_noop by (left; done).
  - by rewrite decide_False by done.
Qed.

Lemma claude_citations_fold st citations :
  foldl claude_citation st citations
  = foldl DeduplicateCitations st
      ((fun citation =>
          {| URL := anthropic.TextCitation.URL citation;
             Domain := "";
             Title := anthropic.TextCitation.Title citation |})
         <$> filter (fun citation =>
                       anthropic.TextCitation.Type_ citation
                       = "web_search_result_location") citations).
Proof.
  revert st. induction citations as [|c citations IH]; intros st; [done|].
  simpl foldl at 1. rewrite IH, claude_citation_step.
  rewrite <- foldl_app, <- fmap_app. f_equal. f_equal.
  rewrite !filter_cons, filter_nil. by destruct (decide _).
Qed.

Lemma claude_blocks_fold blocks text st :
  foldl claude_block (text, st) blocks
  = (text +:+ join (claude_texts (anthropic.mkMessage blocks 0 0)),
     foldl DeduplicateCitations st
       (claude_candidates (anthropic.mkMessage blocks 0 0))).
Proof.
  unfold claude_texts, claude_candidates. simpl.
  revert text st. induction blocks as [|block blocks IH]; intros text st.
  - simpl. by rewrite append_empty_r.
  - simpl foldl at 1. destruct block as [t cits|name|]; simpl.
    + rewrite IH, claude_citations_fold, foldl_app.
      f_equal. unfold join. simpl. by rewrite append_assoc.
    + apply IH.
    + apply IH.
Qed.

Lemma dedup_inv_empty : dedup_inv ([], ∅).
Proof.
  split; [|split]; simpl.
  - constructor.
  - intros c Hc. by apply elem_of_nil in Hc.
  - intros c Hc. by apply elem_of_nil in Hc.
Qed.

Lemma dedup_all_inv cands :
  NoDup (URL <$> (dedup_all cands).1)
  /\ forall c, c ∈ (dedup_all cands).1 -> URL c <> "".
Proof.
  destruct (dedup_inv_foldl cands ([], ∅) dedup_inv_empty) as (H1 & H2 & _).
  done.
Qed.

Lemma parseClaudeResponse_eq (message : anthropic.Message) (result : Result) :
  Citations result = [] ->
  parseClaudeResponse message result
  = set_Text (set_Citations result (dedup_all (claude_candidates message)).1)
             (join (claude_texts message)).
Proof.
  intros Hempty. unfold parseClaudeResponse. rewrite Hempty.
  destruct message as [blocks i o]. simpl anthropic.Content.
  rewrite claude_blocks_fold. done.
Qed.

(** X16. When the Anthropic API answers, the result of the Claude
    adapter carries the concatenation of the text blocks and the cited web
    search results, deduplicated in the order of the message (no URL twice,
    no empty URL), with the duration, the token counts of the message and
    no error. *)
Theorem ClaudeProvider_Query_answer (message : anthropic.Message)
    (elapsed : Z) :
  Text (ClaudeProvider_Query (CallAnswered message) elapsed)
  = join (claude_texts message)
  /\ Citations (ClaudeProvider_Query (CallAnswered message) elapsed)
     = (dedup_all (claude_candidates message)).1
  /\ NoDup (URL <$> Citations
                      (ClaudeProvider_Query (CallAnswered message) elapsed))
  /\ (forall c,
        c ∈ Citations (ClaudeProvider_Query (CallAnswered message) elapsed) ->
        URL c <> "")
  /\ Duration (ClaudeProvider_Query (CallAnswered message) elapsed) = elapsed
  /\ Tokens (ClaudeProvider_Query (CallAnswered message) elapsed)
     = {| Input := anthropic.InputTokens message;
          Output := anthropic.OutputTokens message |}
  /\ Error (ClaudeProvider_Query (CallAnswered message) elapsed) = None.
Proof.
  unfold ClaudeProvider_Query. rewrite parseClaudeResponse_eq by done.
  destruct (dedup_all_inv (claude_candidates message)) as [H1 H2].
  repeat split; done.
Qed.

Lemma gemini_parts_fold parts text :
  foldl gemini_part text parts = text +:+ join (genai.Text <$> parts).
Proof.
  revert text. induction parts as [|part parts IH]; intros text; simpl.
  - by rewrite append_empty_r.
  - rewrite IH. unfold gemini_part, join. simpl.
    destruct (String.eqb_spec (genai.Text part) "") as [->|Hne]; simpl.
    + done.
    + by rewrite append_assoc.
Qed.

Lemma gemini_chunks_fold chunks st :
  foldl gemini_chunk st chunks
  = foldl DeduplicateCitations st (gemini_candidates chunks).
Proof.
  unfold gemini_candidates.
  revert st. induction chunks as [|chunk chunks IH]; intros st; simpl; [done|].
  rewrite IH. unfold gemini_chunk. by destruct (genai.Web chunk).
Qed.

Lemma parseGeminiResponse_eq (resp : genai.GenerateContentResponse)
    (result : Result) :
  Citations result = [] ->
  parseGeminiResponse (Some resp) result
  = match genai.Candidates resp with
    | [] => result
    | candidate :: _ =>
        match genai.Content candidate with
        | None => result
        | Some parts =>
            set_Citations
              (set_Text result (join (genai.Text <$> parts)))
              match genai.GroundingMetadata candidate with
              | None => []
              | Some chunks => (dedup_all (gemini_candidates chunks)).1
              end
        end
    end.
Proof.
  intros Hempty. unfold parseGeminiResponse.
  destruct (genai.Candidates resp) as [|candidate rest]; [done|].
  destruct (genai.Content candidate) as [parts|]; [|done].
  rewrite gemini_parts_fold.
  destruct (genai.GroundingMetadata candidate) as [chunks|].
  - simpl Citations. rewrite Hempty, gemini_chunks_fold. done.
  - destruct result. simpl in *. by subst.
Qed.

(** X17. When the Gemini API answers, only the first candidate is read.
    Without a candidate, or when the first candidate has no content, the
    result is empty and carries no error; otherwise its text is the
    concatenation of the parts and its citations are the web sources of the
    grounding chunks, deduplicated in order. *)
Theorem GeminiProvider_Query_answer (resp : genai.GenerateContentResponse)
    (elapsed : Z) :
  Error (GeminiProvider_Query (GeminiGenerated (CallAnswered resp) elapsed))
  = None
  /\ Duration (GeminiProvider_Query (GeminiGenerated (CallAnswered resp) elapsed))
     = elapsed
  /\ Text (GeminiProvider_Query (GeminiGenerated (CallAnswered resp) elapsed))
     = match genai.Candidates resp with
       | candidate :: _ =>
           join (genai.Text <$> default [] (genai.Content candidate))
       | [] => ""
       end
  /\ Citations
       (GeminiProvider_Query (GeminiGenerated (CallAnswered resp) elapsed))
     = match genai.Candidates resp with
       | candidate :: _ =>
           match genai.Content candidate, genai.GroundingMetadata candidate with
           | Some _, Some chunks => (dedup_all (gemini_candidates chunks)).1
           | _, _ => []
           end
       | [] => []
       end.
Proof.
  unfold GeminiProvider_Query.
  rewrite parseGeminiResponse_eq by (by destruct (genai.Usage resp)).
  destruct (genai.Candidates resp) as [|candidate rest];
    [by destruct (genai.Usage resp)|].
  destruct (genai.Content candidate) as [parts|];
    [|by destruct (genai.Usage resp)].
  destruct (genai.GroundingMetadata candidate), (genai.Usage resp); done.
Qed.

Lemma grok_matches_fold matches st :
  foldl grok_match st matches
  = foldl DeduplicateCitations st
      ((fun match_ => {| URL := nth 2 match_ ""; Domain := ""; Title := "" |})
         <$> filter (fun match_ => (3 <= length match_)%nat) matches).
Proof.
  revert st. induction matches as [|m matches IH]; intros st; [done|].
  simpl foldl at 1. rewrite IH, filter_cons. unfold grok_match.
  destruct (Nat.leb_spec 3 (length m)).
  - by rewrite decide_True by lia.
  - by rewrite decide_False by lia.
Qed.

Lemma grok_sources_fold sources st :
  foldl grok_source st sources
  = foldl DeduplicateCitations st
      ((fun src =>
          {| URL := grokResponse.Source.URL src;
             Domain := "";
             Title := grokResponse.Source.Title src |}) <$> sources).
Proof.
  revert st. induction sources as [|src sources IH]; intros st; [done|].
  simpl. by rewrite IH.
Qed.

Lemma grok_outputs_fold outputs st :
  foldl grok_output st outputs
  = foldl DeduplicateCitations st
      (flat_map
         (fun out =>
            if String.eqb (grokResponse.Output.Type_ out) "web_search_call"
               && String.eqb
                    (grokResponse.Action.Type_ (grokResponse.Output.Action out))
                    "search"
            then (fun src =>
                    {| URL := grokResponse.Source.URL src;
                       Domain := "";
                       Title := grokResponse.Source.Title src |})
                   <$> grokResponse.Action.Sources
                         (grokResponse.Output.Action out)
            else [])
         outputs).
Proof.
  apply dedup_foldl_inv. intros st' out. unfold grok_output.
  destruct (_ && _); [apply grok_sources_fold|done].
Qed.

Lemma parseGrokResponse_eq FindAll (resp : grokResponse.t) (result : Result) :
  Citations result = [] ->
  parseGrokResponse FindAll resp result
  = set_Citations (set_Text result (grok_text resp))
      (dedup_all (grok_candidates (FindAll (grok_text resp)) resp)).1.
Proof.
  intros Hempty. unfold parseGrokResponse, grok_candidates, dedup_all.
  fold (grok_text resp). simpl Citations. simpl Text. rewrite Hempty.
  by rewrite grok_outputs_fold, grok_matches_fold, foldl_app.
Qed.





Lemma bedrock_generated_fold generated text :
  foldl bedrock_generated text generated
  = text +:+ join (omap (fun g =>
                           match g with
                           | bedrock.GeneratedText Value => Some Value
                           | bedrock.GeneratedOther => None
                           end) generated).
Proof.
  revert text. induction generated as [|g generated IH]; intros text; simpl.
  - by rewrite append_empty_r.
  - rewrite IH. destruct g as [v|]; simpl; [|done].
    unfold join. simpl. by rewrite append_assoc.
Qed.

Lemma bedrock_citations_fold citations st :
  foldl bedrock_citation st citations
  = foldl DeduplicateCitations st
      (omap (fun citation =>
               match bedrock.Location citation with
               | Some (bedrock.LocationWeb Url Domain_) =>
                   Some {| URL := default "" Url;
                           Domain := default "" Domain_;
                           Title := "" |}
               | _ => None
               end) citations).
Proof.
  revert st. induction citations as [|c citations IH]; intros st; [done|].
  simpl. rewrite IH. unfold bedrock_citation.
  by destruct (bedrock.Location c) as [[u d|]|].
Qed.

Lemma bedrock_blocks_fold blocks text st :
  foldl bedrock_block (text, st) blocks
  = (text +:+ join (bedrock_texts blocks),
     foldl DeduplicateCitations st (bedrock_candidates blocks)).
Proof.
  unfold bedrock_texts, bedrock_candidates.
  revert text st. induction blocks as [|block blocks IH]; intros text st.
  - simpl. by rewrite append_empty_r.
  - simpl foldl at 1. destruct block as [v|generated citations|]; simpl.
    + rewrite IH. f_equal. unfold join. simpl. by rewrite append_assoc.
    + rewrite IH, bedrock_generated_fold, bedrock_citations_fold, foldl_app.
      f_equal. by rewrite join_app, append_assoc.
    + apply IH.
Qed.

Lemma parseBedrockResponse_eq (output : bedrock.ConverseOutput)
    (result : Result) :
  Citations result = [] ->
  parseBedrockResponse output result
  = match bedrock.Output output with
    | bedrock.MemberMessage content =>
        set_Text
          (set_Citations result (dedup_all (bedrock_candidates content)).1)
          (join (bedrock_texts content))
    | bedrock.OutputOther => set_Error result "unexpected output type"
    end.
Proof.
  intros Hempty. unfold parseBedrockResponse.
  destruct (bedrock.Output output) as [content|]; [|done].
  by rewrite Hempty, bedrock_blocks_fold.
Qed.

(** X19. When Bedrock answers with a message, the result of the Nova
    adapter carries the texts of the message in order, those generated with
    citations included, and the cited web locations, deduplicated in order;
    when the output is not a message the result carries the error
    "unexpected output type" and nothing else but duration and tokens.
    A token count that Bedrock leaves out reads as 0. *)
Theorem NovaProvider_Query_answer (output : bedrock.ConverseOutput)
    (elapsed : Z) :
  Duration (NovaProvider_Query (NovaConversed (CallAnswered output) elapsed))
  = elapsed
  /\ Tokens (NovaProvider_Query (NovaConversed (CallAnswered output) elapsed))
     = match bedrock.Usage output with
       | Some usage =>
           {| Input := default 0 (bedrock.TokenUsage.InputTokens usage);
              Output := default 0 (bedrock.TokenUsage.OutputTokens usage) |}
       | None => {| Input := 0; Output := 0 |}
       end
  /\ match bedrock.Output output with
     | bedrock.MemberMessage content =>
         Error (NovaProvider_Query
                  (NovaConversed (CallAnswered output) elapsed)) = None
         /\ Text (NovaProvider_Query
                    (NovaConversed (CallAnswered output) elapsed))
            = join (bedrock_texts content)
         /\ Citations (NovaProvider_Query
                         (NovaConversed (CallAnswered output) elapsed))
            = (dedup_all (bedrock_candidates content)).1
     | bedrock.OutputOther =>
         Error (NovaProvider_Query
                  (NovaConversed (CallAnswered output) elapsed))
         = Some "unexpected output type"
         /\ Text (NovaProvider_Query
                    (NovaConversed (CallAnswered output) elapsed)) = ""
         /\ Citations (NovaProvider_Query
                         (NovaConversed (CallAnswered output) elapsed)) = []
     end.
Proof.
  unfold NovaProvider_Query.
  rewrite parseBedrockResponse_eq by (by destruct (bedrock.Usage output)).
  destruct (bedrock.Output output), (bedrock.Usage output); done.
Qed.

Lemma adapters_elem s p :
  p ∈ adapters s ->
  p = ClaudeProvider s \/ p = GeminiProvider s \/ p = GrokProvider s
  \/ p = NovaProvider s.
Proof.
  unfold adapters. intros H.
  repeat (apply elem_of_cons in H as [->|H]; [tauto|]).
  by apply elem_of_nil in H.
Qed.

(** X20. Whatever the services answer, a result of one of the four
    adapters that carries an error carries neither text nor citations, and
    has heuristic score 0; every result, with or without an error, has no
    citation with an empty URL and no two citations with the same URL. *)
Theorem adapter_results_wellformed (s : Services) (p : Provider)
    (query : string) (verbose : bool) :
  p ∈ adapters s ->
  empty_on_error (Query p query verbose)
  /\ (Error (Query p query verbose) <> None ->
      calculateScore (Query p query verbose) = 0)
  /\ NoDup (URL <$> Citations (Query p query verbose))
  /\ (forall c, c ∈ Citations (Query p query verbose) -> URL c <> "").
Proof.
  intros Hp.
  assert (Hscore : Error (Query p query verbose) <> None ->
                   calculateScore (Query p query verbose) = 0).
  { intros He. unfold calculateScore.
    by destruct (Error (Query p query verbose)). }
  assert (Hempty : forall r : Result,
            Citations r = [] ->
            NoDup (URL <$> Citations r)
            /\ forall c, c ∈ Citations r -> URL c <> "").
  { intros r ->. split; [constructor|].
    intros c Hc. by apply elem_of_nil in Hc. }
  assert (Hnil : NoDup (URL <$> @nil Citation)
                 /\ forall c : Citation, c ∈ @nil Citation -> URL c <> "").
  { by apply (Hempty zero_Result). }
  unfold empty_on_error.
  destruct (adapters_elem s p Hp) as [-> | [-> | [-> | ->]]]; simpl in *.
  - unfold ClaudeProvider_Query in *.
    destruct (claude_api s query).1 as [err|message].
    + split; [done|]. split; [done|]. first [by apply Hempty | exact Hnil].
    + rewrite parseClaudeResponse_eq in * by done. simpl.
      split; [done|]. split; [done|]. apply dedup_all_inv.
  - unfold GeminiProvider_Query in *.
    destruct (gemini_api s query) as [err|[err|resp] elapsed].
    + split; [done|]. split; [done|]. first [by apply Hempty | exact Hnil].
    + split; [done|]. split; [done|]. first [by apply Hempty | exact Hnil].
    + rewrite parseGeminiResponse_eq in * by (by destruct (genai.Usage resp)).
      destruct (genai.Candidates resp) as [|candidate rest].
      { split; [by destruct (genai.Usage resp)|]. split; [done|].
        first [apply Hempty; by destruct (genai.Usage resp) | exact Hnil]. }
      destruct (genai.Content candidate) as [parts|].
      2:{ split; [by destruct (genai.Usage resp)|]. split; [done|].
          first [apply Hempty; by destruct (genai.Usage resp) | exact Hnil]. }
      split; [by destruct (genai.Usage resp)|]. split; [done|].
      destruct (genai.GroundingMetadata candidate) as [chunks|]; simpl.
      * apply dedup_all_inv.
      * first [by apply Hempty | exact Hnil].
  - unfold GrokProvider_Query in *.
    destruct (grok_api s query) as [err|err|err elapsed|elapsed status body rd];
      try (split; [done|]; split; [done|]; first [by apply Hempty | exact Hnil]).
    destruct (negb (status =? 200));
      [split; [done|]; split; [done|]; first [by apply Hempty | exact Hnil]|].
    destruct rd as [err|];
      [split; [done|]; split; [done|]; first [by apply Hempty | exact Hnil]|].
    destruct (json_Unmarshal s body) as [err|resp];
      [split; [done|]; split; [done|]; first [by apply Hempty | exact Hnil]|].
    rewrite parseGrokResponse_eq in *
      by (by destruct (grokResponse.Usage resp)).
    split; [by destruct (grokResponse.Usage resp)|]. split; [done|].
    simpl. apply dedup_all_inv.
  - unfold NovaProvider_Query in *.
    destruct (nova_api s query) as [err|[err|output] elapsed];
      try (split; [done|]; split; [done|]; first [by apply Hempty | exact Hnil]).
    rewrite parseBedrockResponse_eq in *
      by (by destruct (bedrock.Usage output)).
    destruct (bedrock.Output output) as [content|].
    + split; [by destruct (bedrock.Usage output)|]. split; [done|].
      simpl. apply dedup_all_inv.
    + split; [by destruct (bedrock.Usage output)|]. split; [done|].
      first [apply Hempty; by destruct (bedrock.Usage output) | exact Hnil].
Qed.

Lemma adapter_results_wellformed_witness :
  NoDup (URL <$> Citations
                   (Query (GrokProvider SampleServices.services) "X" false)).
Proof.
  refine (proj1 (proj2 (proj2 (adapter_results_wellformed
            SampleServices.services (GrokProvider SampleServices.services)
            "X" false _)))).
  vm_compute. right. right. left.
Defined.
